(** * alertengine: rule archive, evaluator state machine, notifier, reloader

    A shallow embedding of the Go sources

      - [rule/types.go], [rule/storage.go]        (package [rule])
      - [engine/evaluator.go]                      (package [engine]:
        [RuleEvaluator], [Manager], and the older [RuleEvaluator])
      - the [Reloader] and the older [Manager] of package [engine]
      - the readiness probe of [cmd/alertengine/main.go]

    Stateful code is written with explicit state passing.  What belongs to
    the Go standard library or to a third-party package ([time.ParseDuration],
    [sort.Slice], [sha256], [yaml.Marshal], [json.Marshal], the Prometheus
    client, the HTTP transport, the [common] label package) enters as a
    parameter of the definitions that call it. *)

From Stdlib Require Import ZArith Lia List Ascii.
From Stdlib Require Import Sorting.Permutation Sorting.Sorted.
From Stdlib Require Import Floats.PrimFloat.
From stdpp Require Import base option list sorting gmap sets strings pretty.

Local Open Scope string_scope.
Local Open Scope list_scope.
Local Open Scope Z_scope.

(** Go's [float64]. *)
Definition float64 : Set := PrimFloat.float.

(* ===================================================================== *)
(** ** Package [time] as the code uses it *)
(* ===================================================================== *)

Module time.

(** A [time.Time] is an instant; it is kept as the count of nanoseconds since
    the zero [Time] (January 1, year 1), so [time.Time{}] is [0].  A
    [time.Duration] is an [int64] count of nanoseconds. *)
Definition Time := Z.
Definition Duration := Z.

Definition zero : Time := 0.
Definition IsZero (t : Time) : bool := t =? 0.

Definition minDuration : Duration := - 2 ^ 63.
Definition maxDuration : Duration := 2 ^ 63 - 1.

(** [t.Sub(u)]: the difference, saturated to the range of [Duration]. *)
Definition Sub (t u : Time) : Duration :=
  if t - u <? minDuration then minDuration
  else if maxDuration <? t - u then maxDuration
  else t - u.

End time.

(* ===================================================================== *)
(** ** [rule/types.go] *)
(* ===================================================================== *)

Module Types.

(** [common.Labels]: a slice of name/value pairs. *)
Definition Labels := list (string * string).

Module Prom.
Record t := mk { ID : Z; URL : string }.
End Prom.

Module Rule.
Record t := mk {
  ID : Z;
  PromID : Z;
  Expr : string;
  Op : string;
  Value : string;
  For : string;
  Labels : Labels;
  Summary : string;
  Description : string
}.
End Rule.

Definition Rules := list Rule.t.

Module PromRules.
Record t := mk { Prom : Prom.t; Rules : Rules }.
End PromRules.

Module RuleVersion.
Record t := mk {
  Version : Z;
  PromID : Z;
  RuleCount : Z;
  CreatedAt : time.Time;
  FilePath : string;
  Hash : string
}.
End RuleVersion.

End Types.

(* ===================================================================== *)
(** ** Errors, panics, bytes *)
(* ===================================================================== *)

Definition bytes := list Byte.byte.

(** Errors of the operating system that the model distinguishes. *)
Inductive OSError := ENOENT | ENOTDIR | EISDIR | EEXIST | EIO.

(** Go [error] values built by the code (the [fmt.Errorf] wrappers), and the
    errors handed back by the libraries it calls. *)
Inductive error :=
| ErrHistoryDisabled                    (* "history is disabled" *)
| ErrCreateDirectory (e : OSError)      (* "failed to create directory: %w" *)
| ErrWriteFile (e : OSError)            (* "failed to write file: %w" *)
| ErrReadHistoryDir (e : OSError)       (* "failed to read history directory: %w" *)
| ErrYaml                               (* from yaml.Marshal *)
| ErrCreateClient                       (* "failed to create prometheus client: %w" *)
| ErrFetchRules                         (* "failed to fetch rules: %w" *)
| ErrQuery.                             (* from the Prometheus API *)

(** A Go call either comes back or panics (index out of range, nil
    dereference). *)
Inductive exec (A : Type) :=
| Done (a : A)
| Panic.
Arguments Done {A} a.
Arguments Panic {A}.

(* ===================================================================== *)
(** ** The file system seen by the archive *)
(* ===================================================================== *)

Module fs.

(** A path string denotes the list of its non-empty components; the
    components are resolved from the root (the process' working directory is
    taken to be the root).  This reading is that of the operating system for
    the paths [clean] accepts below; a [.] or a [..] in a path is not
    resolved, so nothing is stated about paths that carry them. *)
Definition sep : ascii := "/"%char.

Fixpoint components_from (cur : string) (s : string) : list string :=
  match s with
  | EmptyString => if decide (cur = "") then [] else [cur]
  | String c s' =>
      if decide (c = sep)
      then (if decide (cur = "") then components_from "" s'
            else cur :: components_from "" s')
      else components_from (cur +:+ String c "") s'
  end.

Definition components (s : string) : list string := components_from "" s.

(** The segments of a path string between its separators, empty ones kept. *)
Fixpoint segments_from (cur : string) (s : string) : list string :=
  match s with
  | EmptyString => [cur]
  | String c s' =>
      if decide (c = sep) then cur :: segments_from "" s'
      else segments_from (cur +:+ String c "") s'
  end.

(** A name that is a directory entry of its own. *)
Definition proper (name : string) : bool :=
  negb (String.eqb name "") && negb (String.eqb name ".")
  && negb (String.eqb name "..").

(** The paths that [filepath.Clean] returns as they are and that name their
    node by their components alone: proper names separated by single
    separators, after at most one leading separator.  So no [.] and no [..],
    no doubled and no trailing separator, not the empty path and not the root
    itself. *)
Definition clean (path : string) : bool :=
  match segments_from "" path with
  | [] => false
  | first :: rest =>
      (proper first
       || (String.eqb first "" && match rest with [] => false | _ => true end))
      && forallb proper rest
  end.

Inductive Node :=
| DirNode
| FileNode (content : bytes).

(** The tree below the root: component list to node.  The root itself is
    always a directory. *)
Abbreviation FS := (gmap (list string) Node).

Definition stat (t : FS) (p : list string) : option Node :=
  match p with
  | [] => Some DirNode
  | _ => t !! p
  end.

(** The parent of a component list: all but its last component. *)
Definition parent (p : list string) : list string := removelast p.

(** Every node hangs below a directory. *)
Definition wf (t : FS) : Prop :=
  forall p n, t !! p = Some n -> stat t (parent p) = Some DirNode.

(** [os.Mkdir]: the parent must be a directory and the name free. *)
Definition Mkdir (p : list string) (t : FS) : FS * option OSError :=
  match stat t p with
  | Some _ => (t, Some EEXIST)
  | None =>
      match stat t (parent p) with
      | Some DirNode => (<[p := DirNode]> t, None)
      | Some (FileNode _) => (t, Some ENOTDIR)
      | None => (t, Some ENOENT)
      end
  end.

(** [os.MkdirAll], by recursion on the path from its last component, as the
    library does it: a path that exists is accepted when it is a directory and
    refused otherwise; a missing one has its parent made first. *)
Fixpoint MkdirAll_rev (rp : list string) (t : FS) : FS * option OSError :=
  match stat t (rev rp) with
  | Some DirNode => (t, None)
  | Some (FileNode _) => (t, Some ENOTDIR)
  | None =>
      match rp with
      | [] => (t, None)
      | _ :: rparent =>
          match MkdirAll_rev rparent t with
          | (t1, Some e) => (t1, Some e)
          | (t1, None) => Mkdir (rev rp) t1
          end
      end
  end.

(** The empty path names nothing: its [Stat] and its [Mkdir] fail. *)
Definition MkdirAll (path : string) (t : FS) : FS * option OSError :=
  if decide (path = "") then (t, Some ENOENT)
  else MkdirAll_rev (rev (components path)) t.

(** [os.WriteFile]: create or truncate the file in an existing directory. *)
Definition WriteFile (path : string) (content : bytes) (t : FS)
  : FS * option OSError :=
  let p := components path in
  match stat t p with
  | Some DirNode => (t, Some EISDIR)
  | _ =>
      match stat t (parent p) with
      | Some DirNode => (<[p := FileNode content]> t, None)
      | Some (FileNode _) => (t, Some ENOTDIR)
      | None => (t, Some ENOENT)
      end
  end.

(** What [ioutil.ReadDir] and [os.ReadFile] give back. *)
Module FileInfo.
Record t := mk { Name : string; ModTime : time.Time; IsDir : bool }.
End FileInfo.

Inductive ReadDirResult :=
| ReadDirOk (files : list FileInfo.t)
| ReadDirNotExist                       (* os.IsNotExist(err) *)
| ReadDirFailed (e : OSError).

(** The read side of the disk: the two calls [ListVersions] makes. *)
Record Disk := mkDisk {
  ReadDir : string -> ReadDirResult;
  ReadFile : string -> option bytes      (* [None]: the read failed *)
}.

End fs.

(* ===================================================================== *)
(** ** Go strings *)
(* ===================================================================== *)

Module gostring.

Definition len (s : string) : Z := Z.of_nat (String.length s).

(** [s[i:]] and [s[:j]]; out of range they panic. *)
Definition slice_from (s : string) (i : Z) : exec string :=
  if (0 <=? i) && (i <=? len s)
  then Done (String.substring (Z.to_nat i) (String.length s - Z.to_nat i) s)
  else Panic.

Definition slice_to (s : string) (j : Z) : exec string :=
  if (0 <=? j) && (j <=? len s)
  then Done (String.substring 0 (Z.to_nat j) s)
  else Panic.

(** [filepath.Join] where its final [Clean] changes nothing: the non-empty
    elements joined by the separator.  That is the case when the first element
    is a clean path ([fs.clean]) or empty and the others are proper names; the
    statements that depend on where a path leads assume it. *)
Fixpoint Join (elems : list string) : string :=
  match elems with
  | [] => ""
  | e :: rest =>
      let r := Join rest in
      if decide (e = "") then r
      else if decide (r = "") then e
      else e +:+ "/" +:+ r
  end.

(** [strconv.FormatInt(n, 10)], also what [%d] prints. *)
Definition FormatInt (n : Z) : string := pretty n.

End gostring.

(* ===================================================================== *)
(** ** [rule/storage.go] *)
(* ===================================================================== *)

Module Storage.
Import Types fs gostring.

Record t := mk {
  baseDir : string;
  retentionDays : Z;
  enableHistory : bool
}.

Section WithLibraries.

(** [hex.EncodeToString(sha256.Sum256(content))]. *)
Variable sha256_hex : bytes -> string.

(** [sort.Slice] on the directory listing, given the [less] function. *)
Variable sort_Slice :
  (FileInfo.t -> FileInfo.t -> bool) -> list FileInfo.t -> list FileInfo.t.

Definition calculateHash (content : bytes) : string := sha256_hex content.

Definition getCurrentPath (s : t) (promID : Z) : string :=
  Join [baseDir s; "prom_" +:+ FormatInt promID; "current.yml"].

Definition getHistoryPath (s : t) (promID : Z) (timestamp : string) : string :=
  Join [baseDir s; "prom_" +:+ FormatInt promID; "history";
        "rule_" +:+ timestamp +:+ ".yml"].

Definition getPromHistoryDir (s : t) (promID : Z) : string :=
  Join [baseDir s; "prom_" +:+ FormatInt promID; "history"].

(** The path [SaveRule] writes to; [timestamp] is
    [time.Now().Format("20060102_150405")]. *)
Definition savePath (s : t) (promID : Z) (timestamp : string) : string :=
  if enableHistory s then getHistoryPath s promID timestamp
  else getCurrentPath s promID.

(** [filepath[:len(filepath)-len(filepath[len(filepath)-1:])]]. *)
Definition saveDir (filepath : string) : exec string :=
  match slice_from filepath (len filepath - 1) with
  | Panic => Panic
  | Done last => slice_to filepath (len filepath - len last)
  end.

Definition SaveRule (s : t) (promID : Z) (content : bytes)
    (timestamp : string) (d : FS) : exec (FS * (string * option error)) :=
  let hash := calculateHash content in
  let filepath := savePath s promID timestamp in
  match saveDir filepath with
  | Panic => Panic
  | Done dir =>
      Done
        match MkdirAll dir d with
        | (d1, Some e) => (d1, ("", Some (ErrCreateDirectory e)))
        | (d1, None) =>
            match WriteFile filepath content d1 with
            | (d2, Some e) => (d2, ("", Some (ErrWriteFile e)))
            | (d2, None) => (d2, (filepath, None))
            end
        end
  end.

Definition GetCurrentRule (s : t) (promID : Z) : string :=
  getCurrentPath s promID.

(** [files[i].ModTime().After(files[j].ModTime())]. *)
Definition newer (f g : FileInfo.t) : bool :=
  FileInfo.ModTime g <? FileInfo.ModTime f.

(** The [for i, file := range files] loop of [ListVersions], from index [i]
    on, appending to [versions]. *)
Fixpoint collectVersions (disk : Disk) (historyDir : string) (promID : Z)
    (limit : Z) (i : Z) (files : list FileInfo.t)
    (versions : list RuleVersion.t) : list RuleVersion.t :=
  match files with
  | [] => versions
  | file :: rest =>
      if (limit <=? i) && (0 <? limit) then versions
      else if FileInfo.IsDir file
      then collectVersions disk historyDir promID limit (i + 1) rest versions
      else
        match ReadFile disk (Join [historyDir; FileInfo.Name file]) with
        | None =>
            collectVersions disk historyDir promID limit (i + 1) rest versions
        | Some content =>
            collectVersions disk historyDir promID limit (i + 1) rest
              (versions ++
               [RuleVersion.mk (i + 1) promID 0 (FileInfo.ModTime file)
                  (Join [historyDir; FileInfo.Name file])
                  (calculateHash content)])
        end
  end.

(** [ListVersions]: the result slice ([None] is Go's [nil]) and the error. *)
Definition ListVersions (s : t) (disk : Disk) (promID : Z) (limit : Z)
  : option (list RuleVersion.t) * option error :=
  if negb (enableHistory s) then (None, Some ErrHistoryDisabled)
  else
    let historyDir := getPromHistoryDir s promID in
    match ReadDir disk historyDir with
    | ReadDirNotExist => (Some [], None)
    | ReadDirFailed e => (None, Some (ErrReadHistoryDir e))
    | ReadDirOk files =>
        let files := sort_Slice newer files in
        (Some (collectVersions disk historyDir promID limit 0 files []), None)
    end.

End WithLibraries.

End Storage.

(* ===================================================================== *)
(** ** The rest of [rule/storage.go]: opening the archive and cleaning it *)
(* ===================================================================== *)

Module Archive.
Import fs gostring Storage.

(** The errors these two functions build. *)
Inductive error :=
| ErrCreateBaseDirectory (e : OSError)  (* "failed to create base directory: %w" *)
| ErrReadBaseDirectory (e : OSError).   (* "failed to read base directory: %w" *)


(** An entry of [os.ReadDir]. *)
Module DirEntry.
Record t := mk { Name : string; IsDir : bool }.
End DirEntry.

(** The disk as [CleanupOldVersions] meets it: the listing of the base
    directory, the listings of the history directories, and for each path
    whether [os.Remove] can remove it ([None]: removed). *)
Record Disk := mkDisk {
  os_ReadDir : string -> list DirEntry.t + OSError;
  ioutil_ReadDir : string -> ReadDirResult;
  os_Remove : string -> option OSError
}.

(** [-n] on Go's [int]. *)
Definition negInt (n : Z) : Z := (- n + 2 ^ 63) mod 2 ^ 64 - 2 ^ 63.

(** [t.Before(u)]. *)
Definition Before (t u : time.Time) : bool := t <? u.

(** What a run has done so far: the paths removed, in order, and
    [deletedCount]. *)
Definition Progress : Type := list string * Z.

(** The inner loop, over the entries of one history directory. *)
Fixpoint removeOld (disk : Disk) (cutoffTime : time.Time) (historyDir : string)
    (files : list FileInfo.t) (st : Progress) : Progress :=
  match files with
  | [] => st
  | file :: rest =>
      if FileInfo.IsDir file then removeOld disk cutoffTime historyDir rest st
      else if Before (FileInfo.ModTime file) cutoffTime then
        let filePath := Join [historyDir; FileInfo.Name file] in
        match os_Remove disk filePath with
        | Some _ => removeOld disk cutoffTime historyDir rest st
        | None =>
            removeOld disk cutoffTime historyDir rest
              (fst st ++ [filePath], snd st + 1)
        end
      else removeOld disk cutoffTime historyDir rest st
  end.

(** The outer loop, over the entries of the base directory. *)
Fixpoint cleanDirs (disk : Disk) (cutoffTime : time.Time) (baseDir : string)
    (promDirs : list DirEntry.t) (st : Progress) : Progress :=
  match promDirs with
  | [] => st
  | promDir :: rest =>
      if negb (DirEntry.IsDir promDir) then cleanDirs disk cutoffTime baseDir rest st
      else
        let historyDir := Join [baseDir; DirEntry.Name promDir; "history"] in
        match ioutil_ReadDir disk historyDir with
        | ReadDirOk files =>
            cleanDirs disk cutoffTime baseDir rest
              (removeOld disk cutoffTime historyDir files st)
        | ReadDirNotExist => cleanDirs disk cutoffTime baseDir rest st
        | ReadDirFailed _ => cleanDirs disk cutoffTime baseDir rest st
        end
  end.

Section WithLibraries.

(** [t.AddDate(years, months, days)]. *)
Variable time_AddDate : time.Time -> Z -> Z -> Z -> time.Time.

(** [CleanupOldVersions] at the instant [now]: what was removed, the count,
    and the error returned. *)
Definition CleanupOldVersions (s : Storage.t) (disk : Disk) (now : time.Time)
  : Progress * option error :=
  if negb (enableHistory s) then (([], 0), None)
  else
    let cutoffTime := time_AddDate now 0 0 (negInt (retentionDays s)) in
    match os_ReadDir disk (baseDir s) with
    | inr e => (([], 0), Some (ErrReadBaseDirectory e))
    | inl promDirs => (cleanDirs disk cutoffTime (baseDir s) promDirs ([], 0), None)
    end.

End WithLibraries.

End Archive.

(* ===================================================================== *)
(** ** [engine/evaluator.go]: the rule evaluator *)
(* ===================================================================== *)

Module Engine.
Import Types.

Inductive RuleState := StateInactive | StatePending | StateFiring.

Module EvalRule.
Record t := mk {
  ID : string;
  PromID : Z;
  Expr : string;
  For : time.Duration;
  Labels : Labels;
  Annotations : gmap string string;
  State : RuleState;
  ActiveAt : time.Time;
  FiredAt : time.Time;
  LastValue : float64
}.

Definition set_Labels (l : Types.Labels) (r : t) : t :=
  mk (ID r) (PromID r) (Expr r) (For r) l (Annotations r)
     (State r) (ActiveAt r) (FiredAt r) (LastValue r).
Definition set_State (s : RuleState) (r : t) : t :=
  mk (ID r) (PromID r) (Expr r) (For r) (Labels r) (Annotations r)
     s (ActiveAt r) (FiredAt r) (LastValue r).
Definition set_ActiveAt (a : time.Time) (r : t) : t :=
  mk (ID r) (PromID r) (Expr r) (For r) (Labels r) (Annotations r)
     (State r) a (FiredAt r) (LastValue r).
Definition set_FiredAt (f : time.Time) (r : t) : t :=
  mk (ID r) (PromID r) (Expr r) (For r) (Labels r) (Annotations r)
     (State r) (ActiveAt r) f (LastValue r).
Definition set_LastValue (v : float64) (r : t) : t :=
  mk (ID r) (PromID r) (Expr r) (For r) (Labels r) (Annotations r)
     (State r) (ActiveAt r) (FiredAt r) v.
End EvalRule.

(** What a [QueryFunc] returns: [(bool, float64, map[string]string, error)];
    a [nil] map and a [nil] error are [None]. *)
Module QueryResult.
Record t := mk {
  hasValue : bool;
  value : float64;
  metricLabels : option (gmap string string);
  err : option error
}.
End QueryResult.

(** One call of the notify function: the rule as passed (by value) and the
    state string. *)
Definition Call : Type := EvalRule.t * string.

Section Evaluator.

(** Whatever the two function values of the evaluator read and change. *)
Context {W : Type}.

(** [common.FromMap]. *)
Variable common_FromMap : gmap string string -> Labels.

Definition QueryFunc := string -> W -> QueryResult.t * W.
Definition NotifyFunc := EvalRule.t -> string -> W -> exec W.

Record RuleEvaluator := mkRuleEvaluator {
  rules : list EvalRule.t;
  interval : time.Duration;
  queryFunc : QueryFunc;
  notifyFunc : option NotifyFunc         (* [None] is a nil function value *)
}.

Definition UpdateRules (e : RuleEvaluator) (rs : list EvalRule.t)
  : RuleEvaluator :=
  mkRuleEvaluator rs (interval e) (queryFunc e) (notifyFunc e).

(** The state threaded through a tick: the outside, and the calls made to the
    notify function so far (oldest first). *)
Definition Run_state : Type := W * list Call.

(** [if e.notifyFunc != nil { e.notifyFunc( *rule, state) }]. *)
Definition notify (e : RuleEvaluator) (rule : EvalRule.t) (state : string)
    (st : Run_state) : exec Run_state :=
  match notifyFunc e with
  | None => Done st
  | Some f =>
      match f rule state (fst st) with
      | Panic => Panic
      | Done w => Done (w, snd st ++ [(rule, state)])
      end
  end.

Definition updateRuleState (e : RuleEvaluator) (rule : EvalRule.t)
    (hasValue : bool) (value : float64) (now : time.Time) (st : Run_state)
  : exec (EvalRule.t * Run_state) :=
  let rule := EvalRule.set_LastValue value rule in
  match EvalRule.State rule with
  | StateInactive =>
      if hasValue
      then Done (EvalRule.set_ActiveAt now (EvalRule.set_State StatePending rule), st)
      else Done (rule, st)
  | StatePending =>
      if negb hasValue
      then Done (EvalRule.set_ActiveAt time.zero
                   (EvalRule.set_State StateInactive rule), st)
      else if EvalRule.For rule <=? time.Sub now (EvalRule.ActiveAt rule)
      then
        let rule := EvalRule.set_FiredAt now (EvalRule.set_State StateFiring rule) in
        match notify e rule "firing" st with
        | Panic => Panic
        | Done st' => Done (rule, st')
        end
      else Done (rule, st)
  | StateFiring =>
      if negb hasValue
      then
        match notify e rule "resolved" st with
        | Panic => Panic
        | Done st' =>
            Done (EvalRule.set_FiredAt time.zero
                    (EvalRule.set_ActiveAt time.zero
                       (EvalRule.set_State StateInactive rule)), st')
        end
      else
        match notify e rule "firing" st with
        | Panic => Panic
        | Done st' => Done (rule, st')
        end
  end.

(** The label merge of [evaluate]: the rule's labels first, the labels of the
    metric over them. *)
Definition mergeLabels (ruleLabels : Labels) (metricLabels : gmap string string)
  : gmap string string :=
  let mergedLabels :=
    foldl (fun m (label : string * string) => <[fst label := snd label]> m)
          ∅ ruleLabels in
  map_fold (fun k v m => <[k := v]> m) mergedLabels metricLabels.

(** The body of the [for i := range e.rules] loop for one rule. *)
Definition evaluateRule (e : RuleEvaluator) (now : time.Time)
    (rule : EvalRule.t) (st : Run_state) : exec (EvalRule.t * Run_state) :=
  let '(q, w) := queryFunc e (EvalRule.Expr rule) (fst st) in
  let st := (w, snd st) in
  match QueryResult.err q with
  | Some _ => Done (rule, st)
  | None =>
      let rule :=
        match QueryResult.hasValue q, QueryResult.metricLabels q with
        | true, Some metricLabels =>
            EvalRule.set_Labels
              (common_FromMap (mergeLabels (EvalRule.Labels rule) metricLabels))
              rule
        | _, _ => rule
        end in
      updateRuleState e rule (QueryResult.hasValue q) (QueryResult.value q) now st
  end.

Fixpoint evaluateRules (e : RuleEvaluator) (now : time.Time)
    (rs : list EvalRule.t) (st : Run_state)
  : exec (list EvalRule.t * Run_state) :=
  match rs with
  | [] => Done ([], st)
  | rule :: rest =>
      match evaluateRule e now rule st with
      | Panic => Panic
      | Done (rule', st1) =>
          match evaluateRules e now rest st1 with
          | Panic => Panic
          | Done (rest', st2) => Done (rule' :: rest', st2)
          end
      end
  end.

(** [evaluate]: one tick at [now = time.Now()]. *)
Definition evaluate (e : RuleEvaluator) (now : time.Time) (st : Run_state)
  : exec (RuleEvaluator * Run_state) :=
  match evaluateRules e now (rules e) st with
  | Panic => Panic
  | Done (rs, st') => Done (UpdateRules e rs, st')
  end.

(** [Run]: one [evaluate] per tick of the ticker, until the context is done;
    [ticks] are the instants [time.Now()] read by the ticks that arrive
    before the cancellation. *)
Fixpoint Run (e : RuleEvaluator) (ticks : list time.Time) (st : Run_state)
  : exec (RuleEvaluator * Run_state) :=
  match ticks with
  | [] => Done (e, st)
  | now :: later =>
      match evaluate e now st with
      | Panic => Panic
      | Done (e', st') => Run e' later st'
      end
  end.

End Evaluator.

Arguments RuleEvaluator : clear implicits.
Arguments QueryFunc : clear implicits.
Arguments NotifyFunc : clear implicits.
Arguments Run_state : clear implicits.

End Engine.

(* ===================================================================== *)
(** ** Configuration, metrics, and the outside of the process *)
(* ===================================================================== *)

Module Config.
Record t := mk {
  NotifyRetries : Z;
  GatewayURL : string;
  RulePath : string;
  PromPath : string;
  NotifyPath : string;
  AuthToken : string;
  EvaluationInterval : time.Duration;
  ReloadInterval : time.Duration
}.
End Config.

(** The counters and the gauge vector the code ticks; a counter is kept as
    the number of increments, the gauge as the last count set. *)
Module Metrics.
Record t := mk {
  RulesLoaded : gmap string Z;
  NotificationsSent : Z;
  NotifyErrors : Z;
  ReloadSuccess : Z;
  ReloadErrors : Z
}.

Definition zero : t := mk ∅ 0 0 0 0.

Definition RulesLoaded_Set (label : string) (n : Z) (m : t) : t :=
  mk (<[label := n]> (RulesLoaded m)) (NotificationsSent m) (NotifyErrors m)
     (ReloadSuccess m) (ReloadErrors m).
Definition NotificationsSent_Add (n : Z) (m : t) : t :=
  mk (RulesLoaded m) (NotificationsSent m + n) (NotifyErrors m)
     (ReloadSuccess m) (ReloadErrors m).
Definition NotifyErrors_Inc (m : t) : t :=
  mk (RulesLoaded m) (NotificationsSent m) (NotifyErrors m + 1)
     (ReloadSuccess m) (ReloadErrors m).
Definition ReloadSuccess_Inc (m : t) : t :=
  mk (RulesLoaded m) (NotificationsSent m) (NotifyErrors m)
     (ReloadSuccess m + 1) (ReloadErrors m).
Definition ReloadErrors_Inc (m : t) : t :=
  mk (RulesLoaded m) (NotificationsSent m) (NotifyErrors m)
     (ReloadSuccess m) (ReloadErrors m + 1).
End Metrics.

Module Alert.
Record t := mk {
  State : string;
  Labels : Types.Labels;
  Annotations : gmap string string;
  Value : float64;
  ActiveAt : string;
  FiredAt : string
}.
End Alert.

Module Request.
Record t := mk {
  Method : string;
  URL : string;
  Header : gmap string string;
  Body : bytes
}.
Definition Header_Set (k v : string) (r : t) : t :=
  mk (Method r) (URL r) (<[k := v]> (Header r)) (Body r).
End Request.

(** What [client.Do] gives back: a transport error, or a response with its
    status code. *)
Inductive HTTPResult :=
| TransportError
| Response (StatusCode : Z).

#[global] Instance HTTPResult_eq_dec : EqDecision HTTPResult.
Proof. solve_decision. Defined.

(** The value of a Prometheus query, as far as [queryPrometheus] looks. *)
Inductive PromValue :=
| Vector (samples : list (gmap string string * float64))
| Scalar (v : float64)
| OtherValue.

(** A tree of the values [Rules.Content] hands to [yaml.Marshal]. *)
#[local] Unset Elimination Schemes.
Inductive Yaml :=
| YString (s : string)
| YLabels (l : Types.Labels)
| YMap (entries : list (string * Yaml))
| YSeq (items : list Yaml).
#[local] Set Elimination Schemes.

(** The library functions the engine calls. *)
Module Library.
Record t := mk {
  (** [time.ParseDuration]; [None] is an error, and the library then returns
      the zero duration. *)
  time_ParseDuration : string -> option time.Duration;
  (** [t.Format(time.RFC3339)]. *)
  time_Format_RFC3339 : time.Time -> string;
  (** [math.Round(v*100) / 100]. *)
  round2 : float64 -> float64;
  (** [json.Marshal] of the alert array; [None] is an error. *)
  json_Marshal : list Alert.t -> option bytes;
  (** [yaml.Marshal]; [None] is an error. *)
  yaml_Marshal : Yaml -> option bytes;
  (** [http.NewRequest(method, url, body)]; [None] is a nil request (the URL
      does not parse). *)
  http_NewRequest : string -> string -> bytes -> option Request.t;
  (** [api.NewClient] on an address: whether it succeeds. *)
  api_NewClient : string -> bool;
  common_FromMap : gmap string string -> Types.Labels;
  sha256_hex : bytes -> string;
  sort_Slice : (fs.FileInfo.t -> fs.FileInfo.t -> bool) ->
               list fs.FileInfo.t -> list fs.FileInfo.t
}.
End Library.

(** The services the process talks to: the answer of the Prometheus at an
    address to its [n]-th query, and the answer of the gateway to the [n]-th
    request posted to it. *)
Module Outside.
Record t := mk {
  prometheus : string -> nat -> string -> PromValue + error;
  gateway : nat -> Request.t -> HTTPResult
}.
End Outside.

(** The state outside the evaluators: the disk of the archive, the metrics
    registry, and how far the two services have been consumed. *)
Module World.
Record t := mk {
  disk : fs.FS;
  metrics : Metrics.t;
  queries : nat;
  posts : list Request.t
}.
Definition set_disk (d : fs.FS) (w : t) : t :=
  mk d (metrics w) (queries w) (posts w).
Definition set_metrics (m : Metrics.t) (w : t) : t :=
  mk (disk w) m (queries w) (posts w).
Definition count_query (w : t) : t :=
  mk (disk w) (metrics w) (S (queries w)) (posts w).
Definition record_post (r : Request.t) (w : t) : t :=
  mk (disk w) (metrics w) (queries w) (posts w ++ [r]).
End World.

(* ===================================================================== *)
(** ** [Rules.Content] of [rule/types.go] *)
(* ===================================================================== *)

Module RulesContent.
Import Types gostring.

Definition ruleYaml (i : Rule.t) : Yaml :=
  YMap [("alert", YString (FormatInt (Rule.ID i)));
        ("expr", YString (String.concat " " [Rule.Expr i; Rule.Op i; Rule.Value i]));
        ("for", YString (Rule.For i));
        ("labels", YLabels (Rule.Labels i));
        ("annotations",
         YMap [("rule_id", YString (FormatInt (Rule.ID i)));
               ("prom_id", YString (FormatInt (Rule.PromID i)));
               ("summary", YString (Rule.Summary i));
               ("description", YString (Rule.Description i))])].

Definition Content (lib : Library.t) (r : Rules) : option bytes :=
  let rules := map ruleYaml r in
  Library.yaml_Marshal lib
    (YMap [("groups",
            YSeq [YMap [("name", YString "ruleengine"); ("rules", YSeq rules)]])]).

End RulesContent.

(* ===================================================================== *)
(** ** [engine/evaluator.go]: the manager of one Prometheus *)
(* ===================================================================== *)

Module Manager.
Import Types gostring Engine.

Record t := mk {
  prom : Prom.t;
  rules : Rules;
  config : Config.t;
  storage : Storage.t;
  evaluator : RuleEvaluator World.t;
  started : bool;                        (* [Run] was called *)
  cancelled : bool                       (* the manager's context is done *)
}.

Definition set_rules (rs : Rules) (m : t) : t :=
  mk (prom m) rs (config m) (storage m) (evaluator m) (started m) (cancelled m).
Definition set_evaluator (e : RuleEvaluator World.t) (m : t) : t :=
  mk (prom m) (rules m) (config m) (storage m) e (started m) (cancelled m).

Section WithOutside.

Variable lib : Library.t.
Variable out : Outside.t.

(** [strings.TrimSpace] on ASCII white space. *)
Definition isSpace (c : ascii) : bool :=
  let n := nat_of_ascii c in
  ((9 <=? n)%nat && (n <=? 13)%nat) || (n =? 32)%nat.

Fixpoint trimLeft (s : string) : string :=
  match s with
  | String c s' => if isSpace c then trimLeft s' else s
  | EmptyString => EmptyString
  end.

Definition TrimSpace (s : string) : string :=
  String.rev (trimLeft (String.rev (trimLeft s))).

Definition queryPrometheus (address : string) (expr : string) (w : World.t)
  : QueryResult.t * World.t :=
  let answer := Outside.prometheus out address (World.queries w) expr in
  let w := World.count_query w in
  match answer with
  | inr e => (QueryResult.mk false 0%float None (Some e), w)
  | inl (Vector ((metric, v) :: _)) =>
      (QueryResult.mk true v (Some metric) None, w)
  | inl (Vector []) => (QueryResult.mk false 0%float None None, w)
  | inl (Scalar v) => (QueryResult.mk true v None None, w)
  | inl OtherValue => (QueryResult.mk false 0%float None None, w)
  end.

(** The retry loop of [sendNotification], with [n] iterations left. *)
Fixpoint postAlert (cfg : Config.t) (url : string) (data : bytes) (n : nat)
    (w : World.t) : exec World.t :=
  match n with
  | O => Done w
  | S n' =>
      match Library.http_NewRequest lib "POST" url data with
      | None => Panic                    (* [req.Header.Set] on a nil request *)
      | Some req =>
          let req := Request.Header_Set "Token" (Config.AuthToken cfg) req in
          let req := Request.Header_Set "Content-Type" "application/json" req in
          let resp := Outside.gateway out (length (World.posts w)) req in
          let w := World.record_post req w in
          match resp with
          | TransportError =>
              postAlert cfg url data n'
                (World.set_metrics (Metrics.NotifyErrors_Inc (World.metrics w)) w)
          | Response StatusCode =>
              if StatusCode =? 200
              then Done (World.set_metrics
                           (Metrics.NotificationsSent_Add 1 (World.metrics w)) w)
              else postAlert cfg url data n'
                     (World.set_metrics (Metrics.NotifyErrors_Inc (World.metrics w)) w)
          end
      end
  end.

(** The alert [sendNotification] builds. *)
Definition makeAlert (rule : EvalRule.t) (state : string) : Alert.t :=
  Alert.mk state (EvalRule.Labels rule) (EvalRule.Annotations rule)
    (Library.round2 lib (EvalRule.LastValue rule))
    (Library.time_Format_RFC3339 lib (EvalRule.ActiveAt rule))
    (if negb (time.IsZero (EvalRule.FiredAt rule))
     then Library.time_Format_RFC3339 lib (EvalRule.FiredAt rule)
     else "").

Definition sendNotification (cfg : Config.t) (rule : EvalRule.t)
    (state : string) (w : World.t) : exec World.t :=
  let alert := makeAlert rule state in
  match Library.json_Marshal lib [alert] with
  | None =>
      Done (World.set_metrics (Metrics.NotifyErrors_Inc (World.metrics w)) w)
  | Some data =>
      let url := Config.GatewayURL cfg +:+ Config.NotifyPath cfg in
      (* for i := 1; i <= m.config.NotifyRetries; i++ *)
      postAlert cfg url data (Z.to_nat (Config.NotifyRetries cfg)) w
  end.

(** [NewManager]; [ctxDone] tells whether the context [ctx] handed in is
    already done: the manager's own context is derived from it
    ([context.WithCancel(ctx)]), so it is then done from the start. *)
Definition NewManager (ctxDone : bool) (prom : Prom.t) (cfg : Config.t)
    (storage : Storage.t) : t + error :=
  if negb (Library.api_NewClient lib (Prom.URL prom)) then inr ErrCreateClient
  else
    inl (mk prom [] cfg storage
           (mkRuleEvaluator [] (Config.EvaluationInterval cfg)
              (queryPrometheus (Prom.URL prom))
              (Some (sendNotification cfg)))
           false ctxDone).

(** The [EvalRule] that [Update] builds from a rule of the gateway. *)
Definition newEvalRule (r : Rule.t) : EvalRule.t :=
  let forDuration :=
    match Library.time_ParseDuration lib (Rule.For r) with
    | Some d => d
    | None => 0
    end in
  EvalRule.mk
    (FormatInt (Rule.ID r))
    (Rule.PromID r)
    (TrimSpace (Rule.Expr r +:+ " " +:+ Rule.Op r +:+ " " +:+ Rule.Value r))
    forDuration
    (Rule.Labels r)
    (<["rule_id" := FormatInt (Rule.ID r)]>
       (<["prom_id" := FormatInt (Rule.PromID r)]>
          (<["summary" := Rule.Summary r]>
             (<["description" := Rule.Description r]> ∅))))
    StateInactive
    time.zero
    time.zero
    0%float.

(** [Update]; [timestamp] is the clock read by [SaveRule]. *)
Definition Update (m : t) (rules : Rules) (timestamp : string) (w : World.t)
  : exec (t * World.t * option error) :=
  let m := set_rules rules m in
  match RulesContent.Content lib rules with
  | None => Done (m, w, Some ErrYaml)
  | Some content =>
      match Storage.SaveRule (Library.sha256_hex lib) (storage m)
              (Prom.ID (prom m)) content timestamp (World.disk w) with
      | Panic => Panic
      | Done (d, (_, Some err)) => Done (m, World.set_disk d w, Some err)
      | Done (d, (_, None)) =>
          let w := World.set_disk d w in
          let evalRules := map newEvalRule rules in
          let m := set_evaluator (UpdateRules (evaluator m) evalRules) m in
          let w :=
            World.set_metrics
              (Metrics.RulesLoaded_Set (FormatInt (Prom.ID (prom m)))
                 (Z.of_nat (length rules)) (World.metrics w)) w in
          Done (m, w, None)
      end
  end.

Definition Run (m : t) : t :=
  mk (prom m) (rules m) (config m) (storage m) (evaluator m) true (cancelled m).

Definition Stop (m : t) : t :=
  mk (prom m) (rules m) (config m) (storage m) (evaluator m) (started m) true.

End WithOutside.

End Manager.

(* ===================================================================== *)
(** ** The reloader *)
(* ===================================================================== *)

Module Reloader.
Import Types gostring Engine.

Record t := mk {
  config : Config.t;
  storage : Storage.t;
  managers : gmap Z Manager.t;
  running : bool;
  cancelled : bool                       (* the root context was cancelled *)
}.

Definition set_managers (ms : gmap Z Manager.t) (r : t) : t :=
  mk (config r) (storage r) ms (running r) (cancelled r).

Definition NewReloader (cfg : Config.t) (storage : Storage.t) : t :=
  mk cfg storage ∅ false false.

(** [Rules.PromRules] of [rule/types.go]: the rules grouped by [PromID], one
    group per id, in the order in which the map is ranged over. *)
Definition groupByProm (r : Rules) : gmap Z Rules :=
  foldl (fun tmp rule =>
           match tmp !! Rule.PromID rule with
           | Some v => <[Rule.PromID rule := v ++ [rule]]> tmp
           | None => <[Rule.PromID rule := [rule]]> tmp
           end) ∅ r.

Definition Rules_PromRules (r : Rules) : list PromRules.t :=
  map (fun kv : Z * Rules => PromRules.mk (Prom.mk (fst kv) "") (snd kv))
      (map_to_list (groupByProm r)).

(** The two answers of the gateway, as [fetchRules] and [fetchProms] return
    them. *)
Module Fetched.
Record t := mk {
  rules : Rules + error;
  proms : list Prom.t + error
}.
End Fetched.

Definition fillURL (proms : list Prom.t) (pr : PromRules.t) : PromRules.t :=
  match find (fun prom => Prom.ID (PromRules.Prom pr) =? Prom.ID prom) proms with
  | Some prom =>
      PromRules.mk (Prom.mk (Prom.ID (PromRules.Prom pr)) (Prom.URL prom))
                   (PromRules.Rules pr)
  | None => pr
  end.

Definition fetchPromRules (f : Fetched.t) : list PromRules.t + error :=
  match Fetched.rules f with
  | inr e => inr e
  | inl rules =>
      match Fetched.proms f with
      | inr e => inr e
      | inl proms => inl (map (fillURL proms) (Rules_PromRules rules))
      end
  end.

Section WithOutside.

Variable lib : Library.t.
Variable out : Outside.t.

(** The test of the inner loop of the sweep. *)
Definition sameTarget (manager : Manager.t) (pr : PromRules.t) : bool :=
  (Prom.ID (Manager.prom manager) =? Prom.ID (PromRules.Prom pr))
  && String.eqb (Prom.URL (Manager.prom manager)) (Prom.URL (PromRules.Prom pr))
  && negb (String.eqb (Prom.URL (PromRules.Prom pr)) "").

Definition shouldDelete (promRules : list PromRules.t) (manager : Manager.t)
  : bool :=
  negb (existsb (sameTarget manager) promRules).

(** The first loop of [Update].  Each entry of the map is decided on its own
    (the order of the range does not matter, and deleting the entry at hand is
    allowed); a deleted manager is stopped and dropped. *)
Definition sweep (promRules : list PromRules.t) (ms : gmap Z Manager.t)
  : gmap Z Manager.t :=
  filter (fun kv : Z * Manager.t => shouldDelete promRules (snd kv) = false) ms.

(** The body of the second loop of [Update] for one group; [timestamp] is the
    clock read by the save of this group. *)
Definition converge (r : t) (timestamp : string) (pr : PromRules.t)
    (st : gmap Z Manager.t * World.t) : exec (gmap Z Manager.t * World.t) :=
  if String.eqb (Prom.URL (PromRules.Prom pr)) "" then Done st
  else
    let id := Prom.ID (PromRules.Prom pr) in
    let found :=
      match fst st !! id with
      | Some manager => Some (fst st, manager)
      | None =>
          match Manager.NewManager lib out (cancelled r) (PromRules.Prom pr)
                  (config r) (storage r) with
          | inr _ => None
          | inl newManager =>
              let newManager := Manager.Run newManager in
              Some (<[id := newManager]> (fst st), newManager)
          end
      end in
    match found with
    | None => Done st
    | Some (ms, manager) =>
        match Manager.Update lib manager (PromRules.Rules pr) timestamp (snd st) with
        | Panic => Panic
        | Done (manager, w, _) => Done (<[id := manager]> ms, w)
        end
    end.

Fixpoint convergeAll (r : t) (clock : Z -> string) (promRules : list PromRules.t)
    (st : gmap Z Manager.t * World.t) : exec (gmap Z Manager.t * World.t) :=
  match promRules with
  | [] => Done st
  | pr :: rest =>
      match converge r (clock (Prom.ID (PromRules.Prom pr))) pr st with
      | Panic => Panic
      | Done st' => convergeAll r clock rest st'
      end
  end.

(** [Update]: [f] is what the gateway answers, [clock id] the clock read by
    the save for source [id]. *)
Definition Update (r : t) (f : Fetched.t) (clock : Z -> string) (w : World.t)
  : exec (t * World.t * option error) :=
  match fetchPromRules f with
  | inr _ => Done (r, w, Some ErrFetchRules)
  | inl promRules =>
      match convergeAll r clock promRules (sweep promRules (managers r), w) with
      | Panic => Panic
      | Done (ms, w') => Done (set_managers ms r, w', None)
      end
  end.

Definition Run (r : t) : t :=
  mk (config r) (storage r) (Manager.Run <$> managers r) true (cancelled r).

Definition Stop (r : t) : t :=
  mk (config r) (storage r) (Manager.Stop <$> managers r) false true.

(** What the loop meets while it waits: a tick of the reload ticker (with the
    gateway's answers and the clock of that reload), the context being done,
    or [Stop] called from another goroutine. *)
Inductive LoopEvent :=
| TickEvent (f : Fetched.t) (clock : Z -> string)
| DoneEvent
| StopEvent.

(** The [for r.running { select { ... } }] part of [Loop]. *)
Fixpoint rounds (events : list LoopEvent) (r : t) (w : World.t)
  : exec (t * World.t) :=
  if negb (running r) then Done (r, w)
  else
    match events with
    | [] => Done (r, w)
    | DoneEvent :: _ => Done (r, w)
    | StopEvent :: _ => Done (Stop r, w)
    | TickEvent f clock :: later =>
        match Update r f clock w with
        | Panic => Panic
        | Done (r', w', Some _) =>
            rounds later r'
              (World.set_metrics (Metrics.ReloadErrors_Inc (World.metrics w')) w')
        | Done (r', w', None) =>
            rounds later r'
              (World.set_metrics (Metrics.ReloadSuccess_Inc (World.metrics w')) w')
        end
    end.

(** [Loop]: the immediate update ([f0], [clock0]), then the rounds. *)
Definition Loop (f0 : Fetched.t) (clock0 : Z -> string)
    (events : list LoopEvent) (r : t) (w : World.t) : exec (t * World.t) :=
  match Update r f0 clock0 w with
  | Panic => Panic
  | Done (r', w', _) => rounds events r' w'
  end.

Definition GetManagerCount (r : t) : Z := Z.of_nat (size (managers r)).

End WithOutside.

End Reloader.

(* ===================================================================== *)
(** ** The readiness probe of [cmd/alertengine/main.go] *)
(* ===================================================================== *)

Module Health.

(** The handler of [/health]: status and body. *)
Definition health : Z * string := (200, "OK").

(** The handler of [/ready]. *)
Definition ready (r : Reloader.t) : Z * string :=
  if 0 <? Reloader.GetManagerCount r then (200, "Ready")
  else (503, "Not Ready").

End Health.

(* ===================================================================== *)
(** ** The older evaluator and manager *)
(* ===================================================================== *)

Module Legacy.
Import Types Engine.

Section Evaluator.

Context {W : Type}.

Record RuleEvaluator := mkRuleEvaluator {
  rules : list EvalRule.t;
  interval : time.Duration;
  queryFunc : string -> W -> (bool * float64 * option error) * W;
  notifyFunc : option (EvalRule.t -> string -> W -> exec W)
}.

Definition notify (e : RuleEvaluator) (rule : EvalRule.t) (state : string)
    (st : W * list Call) : exec (W * list Call) :=
  match notifyFunc e with
  | None => Done st
  | Some f =>
      match f rule state (fst st) with
      | Panic => Panic
      | Done w => Done (w, snd st ++ [(rule, state)])
      end
  end.

Definition updateRuleState (e : RuleEvaluator) (rule : EvalRule.t)
    (hasValue : bool) (now : time.Time) (st : W * list Call)
  : exec (EvalRule.t * (W * list Call)) :=
  match EvalRule.State rule with
  | StateInactive =>
      if hasValue
      then Done (EvalRule.set_ActiveAt now (EvalRule.set_State StatePending rule), st)
      else Done (rule, st)
  | StatePending =>
      if negb hasValue
      then Done (EvalRule.set_ActiveAt time.zero
                   (EvalRule.set_State StateInactive rule), st)
      else if EvalRule.For rule <=? time.Sub now (EvalRule.ActiveAt rule)
      then
        let rule := EvalRule.set_FiredAt now (EvalRule.set_State StateFiring rule) in
        match notify e rule "firing" st with
        | Panic => Panic
        | Done st' => Done (rule, st')
        end
      else Done (rule, st)
  | StateFiring =>
      if negb hasValue
      then
        match notify e rule "resolved" st with
        | Panic => Panic
        | Done st' =>
            Done (EvalRule.set_FiredAt time.zero
                    (EvalRule.set_ActiveAt time.zero
                       (EvalRule.set_State StateInactive rule)), st')
        end
      else Done (rule, st)
  end.

End Evaluator.

(** The retry loop of the older [sendNotification]: the request is commented
    out; every iteration prints the alert and counts a notification sent. *)
Fixpoint countSent (n : nat) (w : World.t) : World.t :=
  match n with
  | O => w
  | S n' =>
      countSent n'
        (World.set_metrics (Metrics.NotificationsSent_Add 1 (World.metrics w)) w)
  end.

Definition sendNotification (cfg : Config.t) (rule : EvalRule.t)
    (state : string) (w : World.t) : exec World.t :=
  Done (countSent (Z.to_nat (Config.NotifyRetries cfg)) w).

End Legacy.

(* ===================================================================== *)
(** ** Stand-ins for the libraries and the services

    Concrete, computable instances of the parameters, used to run the
    definitions on examples. *)
(* ===================================================================== *)

Module Reference.
Import Types.

(** Insertion sort by [less], stable. *)
Fixpoint insert_by {A} (less : A -> A -> bool) (x : A) (l : list A) : list A :=
  match l with
  | [] => [x]
  | y :: l' => if less y x then y :: insert_by less x l' else x :: l
  end.

Fixpoint sort_by {A} (less : A -> A -> bool) (l : list A) : list A :=
  match l with
  | [] => []
  | x :: l' => insert_by less x (sort_by less l')
  end.

(** A duration parser that knows whole seconds only: ["<digits>s"]. *)
Fixpoint digits (s : string) (acc : Z) : option (Z * string) :=
  match s with
  | String c s' =>
      let n := Z.of_nat (nat_of_ascii c) in
      if (48 <=? n) && (n <=? 57) then digits s' (10 * acc + (n - 48))
      else Some (acc, s)
  | EmptyString => Some (acc, s)
  end.

Definition parseSeconds (s : string) : option time.Duration :=
  match s with
  | String c _ =>
      let n := Z.of_nat (nat_of_ascii c) in
      if (48 <=? n) && (n <=? 57)
      then match digits s 0 with
           | Some (v, "s") => Some (v * 1000000000)
           | _ => None
           end
      else None
  | EmptyString => None
  end.

Definition lib : Library.t :=
  Library.mk
    parseSeconds
    (fun t => pretty t)
    (fun v => v)
    (fun _ => Some [])
    (fun _ => Some [])
    (fun method url body => Some (Request.mk method url ∅ body))
    (fun _ => true)
    (fun m => map_to_list m)
    (fun _ => "")
    (@sort_by fs.FileInfo.t).

(** A Prometheus that always answers one sample of value 5; a gateway that
    always answers 500. *)
Definition out : Outside.t :=
  Outside.mk
    (fun _ _ _ => inl (Vector [(∅, 5%float)]))
    (fun _ _ => Response 500).

Definition world : World.t := World.mk ∅ Metrics.zero 0 [].

Definition config : Config.t :=
  Config.mk 2 "http://gateway" "/api/v1/rules" "/api/v1/proms" "/api/v1/alerts"
            "token" 30000000000 300000000000.

End Reference.

(* ===================================================================== *)
(** * Properties *)
(* ===================================================================== *)

(** ** Strings and paths *)

Section StringFacts.

Lemma append_nil_l (s : string) : "" +:+ s = s.
Proof. reflexivity. Qed.

Lemma append_cons (c : ascii) (a b : string) :
  String c a +:+ b = String c (a +:+ b).
Proof. reflexivity. Qed.

Lemma append_nil_r (s : string) : s +:+ "" = s.
Proof.
  induction s as [|c s IH]; [done |]. by rewrite append_cons, IH.
Qed.

Lemma append_assoc (a b c : string) : (a +:+ b) +:+ c = a +:+ (b +:+ c).
Proof.
  induction a as [|x a IH]; [done |]. by rewrite !append_cons, IH.
Qed.

Lemma append_length (a b : string) :
  String.length (a +:+ b) = (String.length a + String.length b)%nat.
Proof.
  induction a as [|x a IH]; [done |]. rewrite append_cons. simpl. by rewrite IH.
Qed.

Lemma append_eq_nil (a b : string) : a +:+ b = "" -> a = "" /\ b = "".
Proof. destruct a; [done |]. rewrite append_cons. discriminate. Qed.

Lemma substring_length (s : string) (i k : nat) :
  (i + k <= String.length s)%nat -> String.length (String.substring i k s) = k.
Proof.
  revert i k. induction s as [|c s IH]; intros i k H; simpl in H.
  - assert (i = 0 /\ k = 0)%nat as [-> ->] by lia. done.
  - destruct i as [|i]; destruct k as [|k]; simpl; try done.
    + rewrite (IH 0%nat k); [done | simpl; lia].
    + apply (IH i 0%nat); lia.
    + apply (IH i (S k)); lia.
Qed.

Lemma substring_prefix (p t : string) :
  String.substring 0 (String.length p) (p +:+ t) = p.
Proof.
  induction p as [|c p IH].
  - rewrite append_nil_l. by destruct t.
  - rewrite append_cons. simpl. by rewrite IH.
Qed.

(** A non-empty string is a string followed by its last character. *)
Lemma string_snoc (s : string) :
  s <> "" -> exists p c, s = p +:+ String c "".
Proof.
  induction s as [|c s IH]; [done | intros _].
  destruct s as [|c' s'].
  - by exists "", c.
  - destruct IH as (p & x & Hp); [done |].
    exists (String c p), x. rewrite append_cons. by rewrite <- Hp.
Qed.

End StringFacts.

Section PathFacts.
Import fs gostring.

(** No separator occurs in the string. *)
Fixpoint no_sep (s : string) : bool :=
  match s with
  | EmptyString => true
  | String c s' => negb (bool_decide (c = sep)) && no_sep s'
  end.

Lemma components_from_app_sep (cur a b : string) :
  components_from cur (a +:+ String sep b)
  = components_from cur a ++ components_from "" b.
Proof.
  revert cur. induction a as [|c a IH]; intros cur.
  - rewrite append_nil_l. simpl.
    destruct (decide (sep = sep)); [| done]. by destruct (decide (cur = "")).
  - rewrite append_cons. simpl.
    destruct (decide (c = sep)).
    + destruct (decide (cur = "")); by rewrite IH.
    + by rewrite IH.
Qed.

Lemma components_from_plain (x cur : string) :
  no_sep x = true -> cur +:+ x <> "" -> components_from cur x = [cur +:+ x].
Proof.
  revert cur. induction x as [|c x IH]; intros cur Hx Hne; simpl.
  - rewrite append_nil_r in *. by destruct (decide (cur = "")).
  - simpl in Hx. apply andb_true_iff in Hx as [Hc Hx].
    apply negb_true_iff, bool_decide_eq_false in Hc.
    destruct (decide (c = sep)); [done |].
    rewrite IH; [| done |].
    + by rewrite append_assoc, append_cons, append_nil_l.
    + rewrite append_assoc, append_cons, append_nil_l. done.
Qed.

Lemma components_snoc (d name : string) :
  no_sep name = true -> name <> "" ->
  components (d +:+ String sep name) = components d ++ [name].
Proof.
  intros Hs Hne. unfold components.
  rewrite components_from_app_sep, (components_from_plain name "");
    by rewrite ?append_nil_l.
Qed.

Lemma Join_snoc_nonempty (l : list string) (name : string) :
  name <> "" -> Join (l ++ [name]) <> "".
Proof.
  intros Hne. induction l as [|e l IH]; simpl.
  - destruct (decide (name = "")); [done |]. by destruct (decide ("" = "")).
  - destruct (decide (e = "")); [done |].
    destruct (decide (Join (l ++ [name]) = "")); [done |].
    intros [-> _]%append_eq_nil. done.
Qed.

Lemma Join_snoc_empty (l : list string) (name : string) :
  name <> "" -> Join l = "" -> Join (l ++ [name]) = name.
Proof.
  intros Hne. induction l as [|e l IH]; simpl; intros Hl.
  - destruct (decide (name = "")); [done |]. by destruct (decide ("" = "")).
  - destruct (decide (e = "")); [by apply IH |].
    destruct (decide (Join l = "")); [done |].
    by apply append_eq_nil in Hl as [-> _].
Qed.

Lemma Join_snoc (l : list string) (name : string) :
  name <> "" -> Join l <> "" ->
  Join (l ++ [name]) = Join l +:+ String sep name.
Proof.
  intros Hne. induction l as [|e l IH]; simpl; [done |]. intros Hl.
  destruct (decide (e = "")); [by apply IH |].
  destruct (decide (Join (l ++ [name]) = "")) as [Hn|_];
    [by apply Join_snoc_nonempty in Hn |].
  destruct (decide (Join l = "")) as [Hl'|Hl'].
  - by rewrite Join_snoc_empty.
  - rewrite IH by done. by rewrite !append_assoc.
Qed.

(** The slice of [SaveRule] takes the path without its last byte. *)
Lemma saveDir_drops_last (p : string) (c : ascii) :
  Storage.saveDir (p +:+ String c "") = Done p.
Proof.
  unfold Storage.saveDir, slice_from, slice_to, len.
  rewrite append_length. simpl String.length.
  set (n := String.length p).
  assert (Z.of_nat (n + 1)%nat - 1 = Z.of_nat n) as -> by lia.
  rewrite Nat2Z.id.
  assert ((0 <=? Z.of_nat n) && (Z.of_nat n <=? Z.of_nat (n + 1)%nat) = true)
    as Hin by (apply andb_true_intro; split; apply Z.leb_le; lia).
  rewrite Hin.
  rewrite substring_length by (rewrite append_length; simpl; lia).
  assert (Z.of_nat (n + 1)%nat - Z.of_nat (n + 1 - n)%nat = Z.of_nat n) as -> by lia.
  rewrite Hin.
  rewrite Nat2Z.id. subst n. by rewrite substring_prefix.
Qed.

End PathFacts.

(** ** The file system *)

Section FileSystemFacts.
Import fs.

(** No prefix of the path is a regular file. *)
Definition no_file_on (t : FS) (p : list string) : Prop :=
  forall q k c, p = q ++ k -> stat t q <> Some (FileNode c).

Lemma parent_snoc (p : list string) (c : string) : parent (p ++ [c]) = p.
Proof. apply removelast_last. Qed.

Lemma stat_snoc (t : FS) (p : list string) (c : string) :
  stat t (p ++ [c]) = t !! (p ++ [c]).
Proof. by destruct p. Qed.

Lemma stat_insert_dir (t : FS) (p q : list string) :
  stat t q = Some DirNode -> stat (<[p := DirNode]> t) q = Some DirNode.
Proof.
  destruct q as [|x q]; [done |]. unfold stat. intros H.
  destruct (decide (p = x :: q)) as [->|Hne].
  - by rewrite lookup_insert_eq.
  - by rewrite lookup_insert_ne.
Qed.

Lemma wf_empty : wf ∅.
Proof. intros p n H. by rewrite lookup_empty in H. Qed.

Lemma no_file_on_empty (p : list string) : no_file_on ∅ p.
Proof.
  intros q k c _. destruct q; simpl; [done |]. by rewrite lookup_empty.
Qed.

Lemma wf_insert_dir (t : FS) (p : list string) (c : string) :
  wf t -> stat t p = Some DirNode -> wf (<[p ++ [c] := DirNode]> t).
Proof.
  intros Hwf Hp q n Hq.
  apply stat_insert_dir.
  destruct (decide (p ++ [c] = q)) as [<-|Hne].
  - by rewrite parent_snoc.
  - rewrite lookup_insert_ne in Hq by done. by eapply Hwf.
Qed.

Lemma wf_insert_file (t : FS) (p : list string) (content : bytes) :
  wf t -> stat t (parent p) = Some DirNode ->
  stat t p <> Some DirNode ->
  wf (<[p := FileNode content]> t).
Proof.
  intros Hwf Hp Hnd q n Hq.
  assert (stat t (parent q) = Some DirNode) as Hpq.
  { destruct (decide (p = q)) as [<-|Hne]; [done |].
    rewrite lookup_insert_ne in Hq by done. by eapply Hwf. }
  destruct (parent q) as [|x l] eqn:E; [done |]. unfold stat in Hpq |- *.
  destruct (decide (p = x :: l)) as [->|Hne].
  - exfalso. apply Hnd. by rewrite <- Hpq.
  - by rewrite lookup_insert_ne.
Qed.

(** [MkdirAll] succeeds when no regular file is in the way; it leaves a
    directory at the path, keeps what was there, and adds only directories
    along the path. *)
Lemma MkdirAll_rev_spec (rp : list string) (t : FS) :
  wf t -> no_file_on t (rev rp) ->
  exists t',
    MkdirAll_rev rp t = (t', None)
    /\ wf t'
    /\ stat t' (rev rp) = Some DirNode
    /\ (forall q n, t !! q = Some n -> t' !! q = Some n)
    /\ (forall q n, t' !! q = Some n ->
          t !! q = Some n \/ (n = DirNode /\ exists k, rev rp = q ++ k)).
Proof.
  revert t. induction rp as [|c rparent IH]; intros t Hwf Hnf.
  - exists t. simpl. repeat split; auto.
  - simpl MkdirAll_rev. simpl rev in *.
    destruct (stat t (rev rparent ++ [c])) as [[|content]|] eqn:Hst.
    + exists t. repeat split; auto.
    + exfalso. eapply (Hnf (rev rparent ++ [c]) []); [by rewrite app_nil_r | done].
    + destruct (IH t Hwf) as (t1 & -> & Hwf1 & Hdir1 & Hkeep1 & Hnew1).
      { intros q k x Hq. apply (Hnf q (k ++ [c]) x). by rewrite app_assoc, <- Hq. }
      rewrite stat_snoc in Hst.
      assert (t1 !! (rev rparent ++ [c]) = None) as Hfree.
      { destruct (t1 !! (rev rparent ++ [c])) as [n|] eqn:E; [| done].
        destruct (Hnew1 _ _ E) as [H | (_ & k & Hk)]; [congruence |].
        apply (f_equal length) in Hk. rewrite !length_app in Hk. simpl in Hk. lia. }
      unfold Mkdir. rewrite stat_snoc, Hfree, parent_snoc, Hdir1.
      eexists. split; [done |]. split; [by apply wf_insert_dir |].
      split; [by rewrite stat_snoc, lookup_insert_eq |]. split.
      * intros q n Hq. rewrite lookup_insert_ne; [by apply Hkeep1 |].
        intros <-. congruence.
      * intros q n Hq.
        destruct (decide (rev rparent ++ [c] = q)) as [<-|Hne].
        -- rewrite lookup_insert_eq in Hq. injection Hq as <-.
           right. split; [done |]. exists []. by rewrite app_nil_r.
        -- rewrite lookup_insert_ne in Hq by done.
           destruct (Hnew1 _ _ Hq) as [H | (-> & k & Hk)]; [by left |].
           right. split; [done |]. exists (k ++ [c]). by rewrite app_assoc, <- Hk.
Qed.


Lemma MkdirAll_spec (path : string) (t : FS) :
  path <> "" -> wf t -> no_file_on t (components path) ->
  exists t',
    MkdirAll path t = (t', None)
    /\ wf t'
    /\ stat t' (components path) = Some DirNode
    /\ (forall q n, t !! q = Some n -> t' !! q = Some n)
    /\ (forall q n, t' !! q = Some n ->
          t !! q = Some n \/ (n = DirNode /\ exists k, components path = q ++ k)).
Proof.
  intros Hne Hwf Hnf. unfold MkdirAll. rewrite decide_False by done.
  destruct (MkdirAll_rev_spec (rev (components path)) t Hwf) as (t' & H);
    rewrite rev_involutive in *; [done |]. by exists t'.
Qed.

End FileSystemFacts.

(** ** The rule archive: [SaveRule] *)

Section SaveRuleFacts.
Import fs gostring Storage.

Variable sha256_hex : bytes -> string.

Definition promDir (promID : Z) : string := "prom_" +:+ FormatInt promID.

(** The elements of the directory [SaveRule] means to write into. *)
Definition saveParent (s : Storage.t) (promID : Z) : list string :=
  if enableHistory s then [baseDir s; promDir promID; "history"]
  else [baseDir s; promDir promID].

(** The name of the file written, and that name without its last byte. *)
Definition saveName (s : Storage.t) (timestamp : string) : string :=
  if enableHistory s then "rule_" +:+ timestamp +:+ ".yml" else "current.yml".

Definition spuriousName (s : Storage.t) (timestamp : string) : string :=
  if enableHistory s then "rule_" +:+ timestamp +:+ ".ym" else "current.ym".

Lemma no_sep_app (a b : string) : no_sep (a +:+ b) = no_sep a && no_sep b.
Proof.
  induction a as [|c a IH]; [done |]. rewrite append_cons. simpl.
  by rewrite IH, andb_assoc.
Qed.

Lemma promDir_nonempty (promID : Z) : promDir promID <> "".
Proof. unfold promDir. by rewrite append_cons. Qed.

Lemma saveParent_nonempty (s : Storage.t) (promID : Z) :
  Join (saveParent s promID) <> "".
Proof.
  unfold saveParent. destruct (enableHistory s).
  - by apply (Join_snoc_nonempty [baseDir s; promDir promID] "history").
  - apply (Join_snoc_nonempty [baseDir s] (promDir promID)), promDir_nonempty.
Qed.

Lemma saveName_last (s : Storage.t) (timestamp : string) :
  saveName s timestamp = spuriousName s timestamp +:+ "l".
Proof.
  unfold saveName, spuriousName. destruct (enableHistory s); [| done].
  by rewrite !append_assoc.
Qed.

Lemma saveName_no_sep (s : Storage.t) (timestamp : string) :
  no_sep timestamp = true ->
  no_sep (saveName s timestamp) = true /\ no_sep (spuriousName s timestamp) = true.
Proof.
  intros H. unfold saveName, spuriousName. destruct (enableHistory s); [| done].
  rewrite !no_sep_app, H. done.
Qed.

Lemma spuriousName_nonempty (s : Storage.t) (timestamp : string) :
  spuriousName s timestamp <> "".
Proof.
  unfold spuriousName. destruct (enableHistory s); [| done]. by rewrite append_cons.
Qed.

Lemma savePath_Join (s : Storage.t) (promID : Z) (timestamp : string) :
  savePath s promID timestamp
  = Join (saveParent s promID) +:+ String sep (saveName s timestamp).
Proof.
  pose proof (saveParent_nonempty s promID) as Hne.
  unfold savePath, getHistoryPath, getCurrentPath, saveParent, saveName in *.
  destruct (enableHistory s).
  - apply (Join_snoc [baseDir s; promDir promID; "history"]); [| done].
    by rewrite append_cons.
  - by apply (Join_snoc [baseDir s; promDir promID]).
Qed.

Lemma spuriousPath_Join (s : Storage.t) (promID : Z) (timestamp : string) :
  Join (saveParent s promID ++ [spuriousName s timestamp])
  = Join (saveParent s promID) +:+ String sep (spuriousName s timestamp).
Proof.
  apply Join_snoc; [apply spuriousName_nonempty | apply saveParent_nonempty].
Qed.

Lemma spuriousPath_nonempty (s : Storage.t) (promID : Z) (timestamp : string) :
  Join (saveParent s promID ++ [spuriousName s timestamp]) <> "".
Proof. rewrite spuriousPath_Join. by intros [_ ?]%append_eq_nil. Qed.

(** The path written is never empty, so the slice of [SaveRule] is in range. *)
Lemma SaveRule_no_panic (s : Storage.t) (promID : Z) (content : bytes)
    (timestamp : string) (d : FS) :
  SaveRule sha256_hex s promID content timestamp d <> Panic.
Proof.
  unfold SaveRule. rewrite savePath_Join, saveName_last.
  rewrite <- append_cons, <- append_assoc, saveDir_drops_last. done.
Qed.

Lemma stat_insert_ne (t : FS) (p q : list string) (n : Node) :
  p <> q -> stat (<[p := n]> t) q = stat t q.
Proof.
  intros Hne. destruct q; [done |]. unfold stat. by rewrite lookup_insert_ne.
Qed.

Lemma snoc_last_ne (s : string) (c : ascii) : s <> s +:+ String c "".
Proof.
  intros H. apply (f_equal String.length) in H.
  rewrite append_length in H. simpl in H. lia.
Qed.

End SaveRuleFacts.

(** C9.  Take an archive whose base directory is a clean path, and a
    timestamp without separator (as the time format gives it).  Every
    [SaveRule] calls [MkdirAll] on the target path without its
    last byte (for instance [{base}/prom_{id}/current.ym]), not on the
    directory of the target, and then writes the target.  On a well-formed file
    system where no regular file is in the way and the target is not a
    directory, the call succeeds and leaves: a directory at that shortened
    path, which is not the directory of the target but lies in it; the
    directory of the target (made because it is a prefix of the shortened
    path: every node added besides the file is a directory on that path); and
    the file with the content written. *)
Theorem SaveRule_spurious_directory
    (sha256_hex : bytes -> string) (s : Storage.t) (promID : Z)
    (content : bytes) (timestamp : string) (d : fs.FS) :
  fs.clean (Storage.baseDir s) = true ->
  no_sep timestamp = true ->
  let filepath := Storage.savePath s promID timestamp in
  let dir := gostring.Join (saveParent s promID ++ [spuriousName s timestamp]) in
  filepath = dir +:+ "l"
  /\ Storage.saveDir filepath = Done dir
  /\ Storage.SaveRule sha256_hex s promID content timestamp d
     = Done match fs.MkdirAll dir d with
            | (d1, Some e) => (d1, ("", Some (ErrCreateDirectory e)))
            | (d1, None) =>
                match fs.WriteFile filepath content d1 with
                | (d2, Some e) => (d2, ("", Some (ErrWriteFile e)))
                | (d2, None) => (d2, (filepath, None))
                end
            end
  /\ (fs.wf d ->
      no_file_on d (fs.components dir) ->
      fs.stat d (fs.components filepath) <> Some fs.DirNode ->
      exists d',
        Storage.SaveRule sha256_hex s promID content timestamp d
        = Done (d', (filepath, None))
        /\ fs.stat d' (fs.components dir) = Some fs.DirNode
        /\ fs.components dir <> fs.parent (fs.components filepath)
        /\ fs.parent (fs.components dir) = fs.parent (fs.components filepath)
        /\ fs.stat d' (fs.parent (fs.components filepath)) = Some fs.DirNode
        /\ d' !! fs.components filepath = Some (fs.FileNode content)
        /\ (forall q n, d' !! q = Some n ->
              d !! q = Some n
              \/ q = fs.components filepath
              \/ (n = fs.DirNode /\ exists k, fs.components dir = q ++ k))).
Proof.
  intros _ Hts filepath dir. subst filepath dir.
  assert (Storage.savePath s promID timestamp
          = gostring.Join (saveParent s promID ++ [spuriousName s timestamp]) +:+ "l")
    as Hpath.
  { rewrite savePath_Join, spuriousPath_Join, saveName_last.
    by rewrite append_assoc, append_cons. }
  assert (Storage.saveDir (Storage.savePath s promID timestamp)
          = Done (gostring.Join (saveParent s promID ++ [spuriousName s timestamp])))
    as Hslice by (rewrite Hpath; apply saveDir_drops_last).
  split; [done |]. split; [done |].
  split; [unfold Storage.SaveRule; cbv zeta; by rewrite Hslice |].
  intros Hwf Hnf Hnd.
  destruct (saveName_no_sep s timestamp Hts) as [Hn1 Hn2].
  pose proof (spuriousName_nonempty s timestamp) as Hne2.
  assert (saveName s timestamp <> "") as Hne1.
  { rewrite saveName_last. intros [_ ?]%append_eq_nil. done. }
  unfold Storage.SaveRule. cbv zeta. rewrite Hslice. clear Hslice Hpath.
  rewrite spuriousPath_Join in *. rewrite savePath_Join in *.
  rewrite !components_snoc in * by done.
  set (P := fs.components (gostring.Join (saveParent s promID))) in *.
  rewrite !parent_snoc.
  assert (P ++ [spuriousName s timestamp] <> P ++ [saveName s timestamp]) as Hdiff.
  { intros H. apply app_inv_head in H. injection H as H.
    rewrite saveName_last in H. by apply snoc_last_ne in H. }
  destruct (MkdirAll_spec
              (gostring.Join (saveParent s promID)
               +:+ String fs.sep (spuriousName s timestamp)) d
              ltac:(by intros [_ ?]%append_eq_nil) Hwf)
    as (d1 & Hmk & Hwf1 & Hdir1 & Hkeep1 & Hnew1);
    rewrite ?components_snoc in * by done; [done |].
  fold P in Hdir1, Hnew1. rewrite Hmk.
  assert (fs.stat d1 P = Some fs.DirNode) as HP.
  { rewrite stat_snoc in Hdir1. apply Hwf1 in Hdir1. by rewrite parent_snoc in Hdir1. }
  assert (fs.stat d1 (P ++ [saveName s timestamp]) <> Some fs.DirNode) as Hnd1.
  { rewrite stat_snoc in *. intros H.
    destruct (Hnew1 _ _ H) as [H' | (_ & k & Hk)]; [done |].
    assert (k = []) as ->.
    { apply (f_equal length) in Hk. rewrite !length_app in Hk. simpl in Hk.
      destruct k; [done | simpl in Hk; lia]. }
    rewrite app_nil_r in Hk. done. }
  unfold fs.WriteFile.
  rewrite components_snoc by done. fold P.
  rewrite parent_snoc, HP.
  assert (forall A (x y : A),
            match fs.stat d1 (P ++ [saveName s timestamp]) with
            | Some fs.DirNode => x
            | _ => y
            end = y) as Hmatch.
  { intros A x y. destruct (fs.stat d1 (P ++ [saveName s timestamp])) as [[|?]|]; done. }
  rewrite Hmatch. eexists. split; [done |].
  split; [by rewrite stat_insert_ne |].
  split; [intros H; apply (f_equal length) in H; rewrite length_app in H; simpl in H; lia |].
  split; [done |].
  split.
  { rewrite stat_insert_ne; [done |].
    intros H; apply (f_equal length) in H; rewrite length_app in H; simpl in H; lia. }
  split; [by rewrite lookup_insert_eq |].
  intros q n Hq.
  destruct (decide (P ++ [saveName s timestamp] = q)) as [<-|Hne]; [by right; left |].
  rewrite lookup_insert_ne in Hq by done.
  destruct (Hnew1 _ _ Hq) as [H | H]; [by left | by right; right].
Qed.

(** The statement at work: history off, source 7, an empty disk. *)
Lemma SaveRule_spurious_directory_witness :
  let s := Storage.mk "/var/lib/alertengine/rules" 30 false in
  let dir := "/var/lib/alertengine/rules/prom_7/current.ym" in
  Storage.savePath s 7 "" = dir +:+ "l"
  /\ Storage.saveDir (Storage.savePath s 7 "") = Done dir
  /\ exists d',
       Storage.SaveRule (fun _ => "") s 7 [] "" ∅
       = Done (d', (Storage.savePath s 7 "", None))
       /\ fs.stat d' (fs.components dir) = Some fs.DirNode.
Proof.
  intros s dir.
  destruct (SaveRule_spurious_directory (fun _ => "") s 7 [] "" ∅ eq_refl eq_refl)
    as (H1 & H2 & _ & H).
  destruct H as (d' & H3 & H4 & _).
  - apply wf_empty.
  - apply no_file_on_empty.
  - vm_compute. discriminate.
  - split; [exact H1 |]. split; [exact H2 |]. exists d'. split; [exact H3 | exact H4].
Defined.

(** ** The rule archive: [ListVersions] *)

Section PickFacts.

Context {A B : Type}.

(** The entries of [l] that [f] keeps, [f] seeing the index of each entry. *)
Definition pick (f : nat -> A -> option B) (l : list A) : list B :=
  omap id (imap f l).

Lemma pick_nil (f : nat -> A -> option B) : pick f [] = [].
Proof. done. Qed.

Lemma pick_cons (f : nat -> A -> option B) (x : A) (l : list A) :
  pick f (x :: l)
  = match f 0%nat x with
    | Some y => y :: pick (f ∘ S) l
    | None => pick (f ∘ S) l
    end.
Proof. unfold pick. rewrite imap_cons. simpl. by destruct (f 0%nat x). Qed.

Lemma pick_ext (f g : nat -> A -> option B) (l : list A) :
  (forall i x, f i x = g i x) -> pick f l = pick g l.
Proof. intros H. unfold pick. f_equal. apply imap_ext. auto. Qed.

Lemma pick_lookup (f : nat -> A -> option B) (l : list A) (k : nat) (v : B) :
  pick f l !! k = Some v ->
  exists i x, l !! i = Some x /\ f i x = Some v /\ (k <= i)%nat.
Proof.
  revert f k. induction l as [|x l IH]; intros f k; [done |].
  rewrite pick_cons. destruct (f 0%nat x) as [y|] eqn:E.
  - destruct k as [|k]; simpl.
    + intros [= <-]. exists 0%nat, x. auto.
    + intros (i & z & Hi & Hf & Hk)%IH. exists (S i), z. split_and!; [done | done | lia].
  - intros (i & z & Hi & Hf & Hk)%IH. exists (S i), z. split_and!; [done | done | lia].
Qed.

(** When every entry is kept, positions are preserved. *)
Lemma pick_total (f : nat -> A -> option B) (l : list A) :
  (forall i x, x ∈ l -> is_Some (f i x)) ->
  length (pick f l) = length l
  /\ forall k v, pick f l !! k = Some v ->
       exists x, l !! k = Some x /\ f k x = Some v.
Proof.
  revert f. induction l as [|x l IH]; intros f Hall; [done |].
  rewrite pick_cons.
  destruct (Hall 0%nat x) as [y Hy]; [by left |]. rewrite Hy.
  destruct (IH (f ∘ S)) as [Hlen Hpos].
  { intros i z Hz. apply Hall. by right. }
  split; [simpl; by rewrite Hlen |].
  intros [|k] v; simpl.
  - intros [= <-]. by exists x.
  - intros H. by apply Hpos in H.
Qed.

(** Ordinals read off the index grow strictly along the result. *)
Lemma pick_index_sorted (f : nat -> A -> option B) (g : B -> Z) (off : Z)
    (l : list A) :
  (forall i x v, f i x = Some v -> g v = Z.of_nat i + off) ->
  StronglySorted Z.lt (g <$> pick f l) /\ Forall (fun v => off <= g v) (pick f l).
Proof.
  revert f off. induction l as [|x l IH]; intros f off Hg.
  - split; constructor.
  - rewrite pick_cons.
    destruct (IH (f ∘ S) (off + 1)) as [Hs Hb].
    { intros i z v Hv. rewrite (Hg _ _ _ Hv). lia. }
    assert (Forall (fun v => off <= g v) (pick (f ∘ S) l)) as Hb'.
    { eapply Forall_impl; [exact Hb |]. simpl. intros; lia. }
    destruct (f 0%nat x) as [y|] eqn:E; [| done].
    pose proof (Hg _ _ _ E) as Hy. split.
    + rewrite fmap_cons. constructor; [done |].
      apply Forall_fmap. eapply Forall_impl; [exact Hb |]. simpl. intros; lia.
    + constructor; [lia | done].
Qed.

(** A listing sorted by [m] stays sorted through [pick]. *)
Lemma pick_key_sorted (f : nat -> A -> option B) (m : A -> Z) (h : B -> Z)
    (l : list A) :
  (forall i x v, f i x = Some v -> h v = m x) ->
  StronglySorted (fun a b => m b <= m a) l ->
  StronglySorted (fun a b => h b <= h a) (pick f l)
  /\ forall bound, Forall (fun x => m x <= bound) l ->
       Forall (fun v => h v <= bound) (pick f l).
Proof.
  revert f. induction l as [|x l IH]; intros f Hh Hs.
  - split; [constructor | intros; constructor].
  - rewrite pick_cons. inversion Hs as [|? ? Hs' Hx]; subst.
    destruct (IH (f ∘ S)) as [IHs IHb]; [intros i z v; apply Hh | done |].
    destruct (f 0%nat x) as [y|] eqn:E.
    + pose proof (Hh _ _ _ E) as Hy. split.
      * constructor; [done |]. rewrite Hy. by apply IHb.
      * intros bound Hb. inversion Hb; subst. constructor; [lia | by apply IHb].
    + split; [done |]. intros bound Hb. inversion Hb; subst. by apply IHb.
Qed.

End PickFacts.

Section ListVersionsFacts.
Import Types fs gostring Storage.

Variable sha256_hex : bytes -> string.

(** The record [ListVersions] makes of the entry at index [i] of the sorted
    listing, when it makes one. *)
Definition versionOf (disk : Disk) (historyDir : string) (promID : Z)
    (i : nat) (file : FileInfo.t) : option RuleVersion.t :=
  if FileInfo.IsDir file then None
  else
    match ReadFile disk (Join [historyDir; FileInfo.Name file]) with
    | None => None
    | Some content =>
        Some (RuleVersion.mk (Z.of_nat i + 1) promID 0 (FileInfo.ModTime file)
                (Join [historyDir; FileInfo.Name file]) (sha256_hex content))
    end.

(** The entries the loop looks at: the first [limit] when [limit > 0], all
    otherwise. *)
Definition truncated {A} (limit : Z) (files : list A) : list A :=
  if 0 <? limit then take (Z.to_nat limit) files else files.

Lemma collectVersions_break (disk : Disk) (historyDir : string) (promID limit : Z)
    (file : FileInfo.t) (rest : list FileInfo.t) (i : Z)
    (acc : list RuleVersion.t) :
  (limit <=? i) && (0 <? limit) = true ->
  collectVersions sha256_hex disk historyDir promID limit i (file :: rest) acc
  = acc.
Proof. intros H. simpl. by rewrite H. Qed.

Lemma collectVersions_step (disk : Disk) (historyDir : string) (promID limit : Z)
    (file : FileInfo.t) (rest : list FileInfo.t) (k : nat)
    (acc : list RuleVersion.t) :
  (limit <=? Z.of_nat k) && (0 <? limit) = false ->
  collectVersions sha256_hex disk historyDir promID limit (Z.of_nat k)
    (file :: rest) acc
  = collectVersions sha256_hex disk historyDir promID limit (Z.of_nat (S k)) rest
      (acc ++ option_list (versionOf disk historyDir promID k file)).
Proof.
  intros H. simpl collectVersions. rewrite H. unfold versionOf.
  replace (Z.of_nat (S k)) with (Z.of_nat k + 1) by lia.
  destruct (FileInfo.IsDir file); [by rewrite app_nil_r |].
  destruct (ReadFile disk _); [done | by rewrite app_nil_r].
Qed.

Lemma collectVersions_pick (disk : Disk) (historyDir : string) (promID limit : Z)
    (files : list FileInfo.t) (k : nat) (acc : list RuleVersion.t) :
  collectVersions sha256_hex disk historyDir promID limit (Z.of_nat k) files acc
  = acc ++ pick (fun j => versionOf disk historyDir promID (k + j))
             (if 0 <? limit then take (Z.to_nat limit - k) files else files).
Proof.
  revert k acc. induction files as [|file rest IH]; intros k acc.
  - simpl. rewrite take_nil. destruct (0 <? limit); by rewrite pick_nil, app_nil_r.
  - destruct ((limit <=? Z.of_nat k) && (0 <? limit)) eqn:Hc.
    + rewrite collectVersions_break by done.
      apply andb_true_iff in Hc as [Hk Hpos]. rewrite Hpos.
      replace (Z.to_nat limit - k)%nat with 0%nat by lia.
      by rewrite take_0, pick_nil, app_nil_r.
    + rewrite collectVersions_step by done. rewrite IH, <- app_assoc. f_equal.
      assert ((if 0 <? limit then take (Z.to_nat limit - k) (file :: rest)
               else file :: rest)
              = file :: (if 0 <? limit then take (Z.to_nat limit - S k) rest
                         else rest)) as ->.
      { destruct (0 <? limit) eqn:Hpos; [| done].
        rewrite andb_true_r in Hc.
        replace (Z.to_nat limit - k)%nat with (S (Z.to_nat limit - S k)) by lia.
        done. }
      rewrite pick_cons, Nat.add_0_r.
      rewrite (pick_ext (_ ∘ S) (fun j => versionOf disk historyDir promID (S k + j)))
        by (intros i x; simpl; by rewrite Nat.add_succ_r).
      by destruct (versionOf disk historyDir promID k file).
Qed.

Lemma truncated_sorted {A} (R : A -> A -> Prop) (limit : Z) (l : list A) :
  StronglySorted R l -> StronglySorted R (truncated limit l).
Proof.
  intros H. unfold truncated. destruct (0 <? limit); [| done].
  rewrite <- (take_drop (Z.to_nat limit) l) in H.
  by apply StronglySorted_app_1_l in H.
Qed.

End ListVersionsFacts.

(** The stand-in sort is a sort: it permutes, and orders by modification
    time, newest first. *)
Section ReferenceSort.
Import fs.

Definition newest_first (f g : FileInfo.t) : Prop :=
  FileInfo.ModTime g <= FileInfo.ModTime f.

Lemma insert_by_perm {A} (less : A -> A -> bool) (x : A) (l : list A) :
  Permutation (Reference.insert_by less x l) (x :: l).
Proof.
  induction l as [|y l IH]; simpl; [done |].
  destruct (less y x); [| done].
  rewrite IH. apply perm_swap.
Qed.

Lemma sort_by_perm {A} (less : A -> A -> bool) (l : list A) :
  Permutation (Reference.sort_by less l) l.
Proof.
  induction l as [|x l IH]; simpl; [done |].
  rewrite insert_by_perm. by constructor.
Qed.

Lemma insert_by_newer_sorted (x : FileInfo.t) (l : list FileInfo.t) :
  StronglySorted newest_first l ->
  StronglySorted newest_first (Reference.insert_by Storage.newer x l).
Proof.
  induction 1 as [|y l Hs IH Hy]; simpl; [repeat constructor |].
  unfold Storage.newer at 1.
  destruct (FileInfo.ModTime x <? FileInfo.ModTime y) eqn:E.
  - constructor; [done |].
    rewrite insert_by_perm. constructor; [unfold newest_first; lia | done].
  - constructor; [by constructor |].
    constructor; [unfold newest_first; lia |].
    eapply Forall_impl; [exact Hy |]. unfold newest_first. simpl. intros; lia.
Qed.

Lemma sort_by_newer_sorted (l : list FileInfo.t) :
  StronglySorted newest_first (Reference.sort_by Storage.newer l).
Proof.
  induction l as [|x l IH]; simpl; [constructor |].
  by apply insert_by_newer_sorted.
Qed.

End ReferenceSort.

(** What [ListVersions] returns.  It fails with the
    disabled error when history is off.  Otherwise, on a listing that can be
    read, it sorts the entries newest first, looks at the first [limit] of them
    when [limit > 0] and at all of them otherwise, and returns one record for
    each entry looked at that is neither a directory nor unreadable.  The
    ordinal of a record is the position (from 1) of its entry in the sorted
    listing, skipped entries counted: the ordinals grow strictly along the
    result, the [k]-th record has an ordinal of at least [k], and exactly [k]
    only when no entry looked at was skipped. *)
Theorem ListVersions_ordinal_is_listing_position
    (sha256_hex : bytes -> string)
    (sort_Slice : (fs.FileInfo.t -> fs.FileInfo.t -> bool) ->
                  list fs.FileInfo.t -> list fs.FileInfo.t)
    (s : Storage.t) (disk : fs.Disk) (promID limit : Z) :
  (forall l, Permutation (sort_Slice Storage.newer l) l) ->
  (forall l, StronglySorted newest_first (sort_Slice Storage.newer l)) ->
  (Storage.enableHistory s = false ->
   Storage.ListVersions sha256_hex sort_Slice s disk promID limit
   = (None, Some ErrHistoryDisabled))
  /\ forall files,
       Storage.enableHistory s = true ->
       fs.ReadDir disk (Storage.getPromHistoryDir s promID) = fs.ReadDirOk files ->
       let historyDir := Storage.getPromHistoryDir s promID in
       let kept := truncated limit (sort_Slice Storage.newer files) in
       let versions := pick (versionOf sha256_hex disk historyDir promID) kept in
       Storage.ListVersions sha256_hex sort_Slice s disk promID limit
       = (Some versions, None)
       /\ (0 < limit -> length kept = Nat.min (Z.to_nat limit) (length files))
       /\ (limit <= 0 -> Permutation kept files)
       /\ StronglySorted
            (fun a b => Types.RuleVersion.CreatedAt b <= Types.RuleVersion.CreatedAt a)
            versions
       /\ StronglySorted Z.lt (Types.RuleVersion.Version <$> versions)
       /\ (forall k v, versions !! k = Some v ->
             exists i file,
               kept !! i = Some file
               /\ versionOf sha256_hex disk historyDir promID i file = Some v
               /\ (k <= i)%nat
               /\ Types.RuleVersion.Version v = Z.of_nat i + 1)
       /\ ((forall file, file ∈ kept ->
              fs.FileInfo.IsDir file = false
              /\ is_Some (fs.ReadFile disk
                            (gostring.Join [historyDir; fs.FileInfo.Name file]))) ->
           length versions = length kept
           /\ forall k v, versions !! k = Some v ->
                Types.RuleVersion.Version v = Z.of_nat k + 1).
Proof.
  intros Hperm Hsorted. split.
  { intros Hoff. unfold Storage.ListVersions. by rewrite Hoff. }
  intros files Hon Hdir historyDir kept versions. subst historyDir.
  set (historyDir := Storage.getPromHistoryDir s promID) in *.
  assert (forall i x v,
            versionOf sha256_hex disk historyDir promID i x = Some v ->
            Types.RuleVersion.Version v = Z.of_nat i + 1
            /\ Types.RuleVersion.CreatedAt v = fs.FileInfo.ModTime x) as Hver.
  { intros i x v. unfold versionOf. destruct (fs.FileInfo.IsDir x); [done |].
    destruct (fs.ReadFile disk _); [| done]. by intros [= <-]. }
  split_and!.
  - unfold Storage.ListVersions. rewrite Hon. simpl negb. cbv iota.
    fold historyDir. rewrite Hdir.
    rewrite (collectVersions_pick _ _ _ _ _ _ 0%nat []). simpl app.
    subst versions kept. unfold truncated. do 2 f_equal.
    rewrite Nat.sub_0_r. done.
  - intros Hpos. subst kept. unfold truncated.
    assert ((0 <? limit) = true) as -> by lia.
    rewrite length_take. by rewrite (Permutation_length (Hperm files)).
  - intros Hneg. subst kept. unfold truncated.
    assert ((0 <? limit) = false) as -> by lia. apply Hperm.
  - apply (pick_key_sorted _ fs.FileInfo.ModTime).
    + intros i x v Hv. by apply Hver in Hv as [_ ?].
    + apply truncated_sorted, Hsorted.
  - apply (pick_index_sorted _ _ 1). intros i x v Hv. by apply Hver in Hv as [? _].
  - intros k v Hk. apply pick_lookup in Hk as (i & x & Hi & Hv & Hle).
    exists i, x. split_and!; [done | done | done |]. by apply Hver in Hv as [? _].
  - intros Hall.
    destruct (pick_total (versionOf sha256_hex disk historyDir promID) kept)
      as [Hlen Hpos].
    { intros i x Hx. destruct (Hall x Hx) as [Hd [c Hc]].
      unfold versionOf. rewrite Hd, Hc. by eexists. }
    split; [done |]. intros k v Hk.
    destruct (Hpos k v Hk) as (x & _ & Hv). by apply Hver in Hv as [? _].
Qed.

(** An archive with history on, and a history directory that holds a
    subdirectory (the newest entry) and one rule file. *)
Definition archive_with_history : Storage.t :=
  Storage.mk "/var/lib/alertengine/rules" 30 true.

Definition disk_with_subdirectory : fs.Disk :=
  fs.mkDisk
    (fun _ => fs.ReadDirOk
                [fs.FileInfo.mk "rule_20240101_000000.yml" 10 false;
                 fs.FileInfo.mk "scratch" 20 true])
    (fun _ => Some []).

Lemma ListVersions_ordinal_is_listing_position_witness :
  exists v,
    Storage.ListVersions (fun _ => "") (@Reference.sort_by fs.FileInfo.t)
      archive_with_history disk_with_subdirectory 1 0
    = (Some [v], None)
    /\ Types.RuleVersion.Version v = 2.
Proof.
  destruct (ListVersions_ordinal_is_listing_position (fun _ => "")
              (@Reference.sort_by fs.FileInfo.t)
              archive_with_history disk_with_subdirectory 1 0)
    as [_ H].
  - intros l. apply sort_by_perm.
  - intros l. apply sort_by_newer_sorted.
  - destruct (H [fs.FileInfo.mk "rule_20240101_000000.yml" 10 false;
                 fs.FileInfo.mk "scratch" 20 true]) as [Heq _];
      [reflexivity | reflexivity |].
    eexists. split; [exact Heq | reflexivity].
Defined.

(** C8, where the code departs from it.  The ordinals of the records
    returned are not [1..N] in returned order: with a subdirectory sorted
    before the only rule file, the one record returned carries ordinal 2, so
    it is not true that the [k]-th record has version [k]. *)
Lemma ListVersions_ordinals_not_contiguous :
  Storage.ListVersions (fun _ => "") (@Reference.sort_by fs.FileInfo.t)
    archive_with_history disk_with_subdirectory 1 0
  = (Some [Types.RuleVersion.mk 2 1 0 10
             "/var/lib/alertengine/rules/prom_1/history/rule_20240101_000000.yml"
             ""],
     None)
  /\ ~ (forall versions,
         Storage.ListVersions (fun _ => "") (@Reference.sort_by fs.FileInfo.t)
           archive_with_history disk_with_subdirectory 1 0
         = (Some versions, None) ->
         forall k v, versions !! k = Some v ->
           Types.RuleVersion.Version v = Z.of_nat k + 1).
Proof.
  split; [reflexivity |]. intros H.
  specialize (H _ eq_refl 0%nat _ eq_refl). vm_compute in H. discriminate.
Qed.

(** C10.  With history on and no history directory for the source on disk,
    [ListVersions] returns the empty list and no error. *)
Theorem ListVersions_missing_history_directory
    (sha256_hex : bytes -> string)
    (sort_Slice : (fs.FileInfo.t -> fs.FileInfo.t -> bool) ->
                  list fs.FileInfo.t -> list fs.FileInfo.t)
    (s : Storage.t) (disk : fs.Disk) (promID limit : Z) :
  Storage.enableHistory s = true ->
  fs.ReadDir disk (Storage.getPromHistoryDir s promID) = fs.ReadDirNotExist ->
  Storage.ListVersions sha256_hex sort_Slice s disk promID limit = (Some [], None).
Proof.
  intros Hon Hdir. unfold Storage.ListVersions. by rewrite Hon, Hdir.
Qed.

Lemma ListVersions_missing_history_directory_witness :
  Storage.ListVersions (fun _ => "") (@Reference.sort_by fs.FileInfo.t)
    archive_with_history
    (fs.mkDisk (fun _ => fs.ReadDirNotExist) (fun _ => None)) 42 5
  = (Some [], None).
Proof.
  apply ListVersions_missing_history_directory; reflexivity.
Defined.

(** ** The evaluator: ticks *)

Section EvaluatorFacts.
Import Types Engine.

Context {W : Type}.
Variable common_FromMap : gmap string string -> Labels.
Variable e : RuleEvaluator W.
Variable now : time.Time.

Lemma notify_log (rule : EvalRule.t) (state : string) (st st' : Run_state W) :
  notify e rule state st = Done st' -> exists more, snd st' = snd st ++ more.
Proof.
  unfold notify. destruct (notifyFunc e) as [f|].
  - destruct (f rule state (fst st)); [| done]. intros [= <-]. by eexists.
  - intros [= <-]. exists []. by rewrite app_nil_r.
Qed.

Lemma updateRuleState_log (rule rule' : EvalRule.t) (hasValue : bool)
    (value : float64) (st st' : Run_state W) :
  updateRuleState e rule hasValue value now st = Done (rule', st') ->
  exists more, snd st' = snd st ++ more.
Proof.
  unfold updateRuleState.
  destruct (EvalRule.State _), hasValue; simpl;
    repeat match goal with
    | |- context [if ?b then _ else _] => destruct b
    | |- context [notify e ?r ?s st] =>
        let E := fresh in destruct (notify e r s st) eqn:E;
        [apply notify_log in E | done]
    end;
    intros [= <- <-]; try done; exists []; by rewrite app_nil_r.
Qed.

Lemma evaluateRule_log (rule rule' : EvalRule.t) (st st' : Run_state W) :
  evaluateRule common_FromMap e now rule st = Done (rule', st') ->
  exists more, snd st' = snd st ++ more.
Proof.
  unfold evaluateRule. destruct (queryFunc e _ _) as [q w].
  destruct (QueryResult.err q).
  - intros [= <- <-]. exists []. by rewrite app_nil_r.
  - intros H. by apply updateRuleState_log in H.
Qed.

Lemma evaluateRules_log (rs rs' : list EvalRule.t) (st st' : Run_state W) :
  evaluateRules common_FromMap e now rs st = Done (rs', st') ->
  length rs' = length rs /\ exists more, snd st' = snd st ++ more.
Proof.
  revert rs' st. induction rs as [|rule rest IH]; intros rs' st; simpl.
  - intros [= <- <-]. split; [done |]. exists []. by rewrite app_nil_r.
  - destruct (evaluateRule _ _ _ rule st) as [[rule1 st1]|] eqn:E1; [| done].
    destruct (evaluateRules _ _ _ rest st1) as [[rest1 st2]|] eqn:E2; [| done].
    intros [= <- <-].
    apply evaluateRule_log in E1 as [m1 H1]. apply IH in E2 as [Hlen [m2 H2]].
    split; [simpl; by rewrite Hlen |].
    exists (m1 ++ m2). by rewrite H2, H1, app_assoc.
Qed.

Lemma evaluateRules_app (pre rest : list EvalRule.t) (st : Run_state W) :
  evaluateRules common_FromMap e now (pre ++ rest) st
  = match evaluateRules common_FromMap e now pre st with
    | Panic => Panic
    | Done (pre', st1) =>
        match evaluateRules common_FromMap e now rest st1 with
        | Panic => Panic
        | Done (rest', st2) => Done (pre' ++ rest', st2)
        end
    end.
Proof.
  revert st. induction pre as [|rule pre IH]; intros st; simpl.
  - by destruct (evaluateRules _ _ _ rest st) as [[? ?]|].
  - destruct (evaluateRule _ _ _ rule st) as [[rule1 st1]|]; [| done].
    rewrite IH.
    destruct (evaluateRules _ _ _ pre st1) as [[pre1 st2]|]; [| done].
    by destruct (evaluateRules _ _ _ rest st2) as [[? ?]|].
Qed.

End EvaluatorFacts.

(** C2.  On every tick, a rule that is in [StateFiring] and whose query comes
    back without error and with a value stays in [StateFiring], and the notify
    function is called for it with ["firing"]: the call is made on each such
    tick, not only on the tick of the transition from [StatePending].  When
    the tick comes back, the rule sits at its place in the new rule list,
    still firing, and the call is in the log of the tick. *)
Theorem firing_rule_notifies_on_every_tick
    {W : Type} (common_FromMap : gmap string string -> Types.Labels)
    (e : Engine.RuleEvaluator W) (nf : Engine.NotifyFunc W) (now : time.Time)
    (pre post pre' : list Engine.EvalRule.t) (rule : Engine.EvalRule.t)
    (st st1 : Engine.Run_state W) (q : Engine.QueryResult.t) (w1 : W) :
  Engine.notifyFunc e = Some nf ->
  Engine.EvalRule.State rule = Engine.StateFiring ->
  Engine.evaluateRules common_FromMap e now pre st = Done (pre', st1) ->
  Engine.queryFunc e (Engine.EvalRule.Expr rule) (fst st1) = (q, w1) ->
  Engine.QueryResult.err q = None ->
  Engine.QueryResult.hasValue q = true ->
  exists rule',
    Engine.EvalRule.State rule' = Engine.StateFiring
    /\ Engine.EvalRule.ID rule' = Engine.EvalRule.ID rule
    /\ Engine.EvalRule.ActiveAt rule' = Engine.EvalRule.ActiveAt rule
    /\ Engine.EvalRule.FiredAt rule' = Engine.EvalRule.FiredAt rule
    /\ Engine.EvalRule.LastValue rule' = Engine.QueryResult.value q
    /\ Engine.evaluateRules common_FromMap e now (pre ++ rule :: post) st
       = match nf rule' "firing" w1 with
         | Panic => Panic
         | Done w2 =>
             match Engine.evaluateRules common_FromMap e now post
                     (w2, snd st1 ++ [(rule', "firing")]) with
             | Panic => Panic
             | Done (post', st3) => Done (pre' ++ rule' :: post', st3)
             end
         end
    /\ forall rs st3,
         Engine.evaluateRules common_FromMap e now (pre ++ rule :: post) st
         = Done (rs, st3) ->
         rs !! length pre = Some rule' /\ (rule', "firing") ∈ snd st3.
Proof.
  intros Hnf Hstate Hpre Hq Herr Hval.
  set (merged :=
         match Engine.QueryResult.metricLabels q with
         | Some metricLabels =>
             Engine.EvalRule.set_Labels
               (common_FromMap
                  (Engine.mergeLabels (Engine.EvalRule.Labels rule) metricLabels))
               rule
         | None => rule
         end).
  exists (Engine.EvalRule.set_LastValue (Engine.QueryResult.value q) merged).
  assert (Engine.EvalRule.State merged = Engine.StateFiring) as Hm
    by (subst merged; by destruct (Engine.QueryResult.metricLabels q)).
  assert (Engine.evaluateRules common_FromMap e now (pre ++ rule :: post) st
          = match nf (Engine.EvalRule.set_LastValue (Engine.QueryResult.value q) merged)
                    "firing" w1 with
            | Panic => Panic
            | Done w2 =>
                match Engine.evaluateRules common_FromMap e now post
                        (w2, snd st1 ++
                             [(Engine.EvalRule.set_LastValue
                                 (Engine.QueryResult.value q) merged, "firing")]) with
                | Panic => Panic
                | Done (post', st3) =>
                    Done (pre' ++
                          Engine.EvalRule.set_LastValue
                            (Engine.QueryResult.value q) merged :: post', st3)
                end
            end) as Htick.
  { rewrite evaluateRules_app, Hpre. simpl Engine.evaluateRules.
    unfold Engine.evaluateRule. rewrite Hq, Herr, Hval. fold merged.
    unfold Engine.updateRuleState. simpl Engine.EvalRule.State. rewrite Hm.
    simpl negb. cbv iota. unfold Engine.notify. rewrite Hnf. simpl fst. simpl snd.
    destruct (nf _ "firing" w1) as [w2|]; [| done].
    by destruct (Engine.evaluateRules _ _ _ post _) as [[? ?]|]. }
  split_and!; [done | | | | | exact Htick |];
    try (subst merged; by destruct (Engine.QueryResult.metricLabels q)).
  intros rs st3. rewrite Htick.
  destruct (nf _ "firing" w1) as [w2|]; [| done].
  destruct (Engine.evaluateRules _ _ _ post _) as [[post' st2]|] eqn:Hpost; [| done].
  intros [= <- <-].
  apply evaluateRules_log in Hpre as [Hlen _].
  apply evaluateRules_log in Hpost as [_ [more Hmore]].
  split.
  - rewrite lookup_app_r by lia. rewrite Hlen, Nat.sub_diag. done.
  - rewrite Hmore. simpl. set_solver.
Qed.

(** The evaluator that [NewManager] builds for a source at [http://prom-a],
    and a rule of it that has been firing since instant 200. *)
Definition evaluator_a : Engine.RuleEvaluator World.t :=
  Engine.mkRuleEvaluator [] 30000000000
    (Manager.queryPrometheus Reference.out "http://prom-a")
    (Some (Manager.sendNotification Reference.lib Reference.out Reference.config)).

Definition firing_rule : Engine.EvalRule.t :=
  Engine.EvalRule.mk "1" 7 "up > 0" 0 [] ∅ Engine.StateFiring 100 200 5%float.

Lemma NewManager_evaluator :
  Manager.NewManager Reference.lib Reference.out false
    (Types.Prom.mk 7 "http://prom-a") Reference.config
    (Storage.mk "/var/lib/alertengine/rules" 30 false)
  = inl (Manager.mk (Types.Prom.mk 7 "http://prom-a") [] Reference.config
           (Storage.mk "/var/lib/alertengine/rules" 30 false)
           evaluator_a false false).
Proof. reflexivity. Qed.

Lemma firing_rule_notifies_on_every_tick_witness :
  exists rule' rs st3,
    Engine.evaluateRules (Library.common_FromMap Reference.lib) evaluator_a 300
      [firing_rule] (Reference.world, [])
    = Done (rs, st3)
    /\ rs !! 0%nat = Some rule'
    /\ Engine.EvalRule.State rule' = Engine.StateFiring
    /\ (rule', "firing") ∈ snd st3.
Proof.
  destruct (firing_rule_notifies_on_every_tick
              (Library.common_FromMap Reference.lib) evaluator_a
              (Manager.sendNotification Reference.lib Reference.out Reference.config)
              300 [] [] [] firing_rule (Reference.world, []) (Reference.world, [])
              (Engine.QueryResult.mk true 5%float (Some ∅) None)
              (World.count_query Reference.world))
    as (rule' & Hstate & _ & _ & _ & _ & Htick & Hlog); try reflexivity.
  destruct (Engine.evaluateRules (Library.common_FromMap Reference.lib) evaluator_a
              300 ([] ++ [firing_rule]) (Reference.world, []))
    as [[rs st3]|] eqn:E.
  - destruct (Hlog rs st3 eq_refl) as [H1 H2].
    exists rule', rs, st3. split; [exact E |]. split; [exact H1 |].
    split; [exact Hstate | exact H2].
  - vm_compute in E. discriminate E.
Defined.

(** The older evaluator keeps a firing rule firing and calls nothing for
    it. *)
Lemma Legacy_firing_rule_is_silent {W : Type} (e : @Legacy.RuleEvaluator W)
    (rule : Engine.EvalRule.t) (now : time.Time) (st : W * list Engine.Call) :
  Engine.EvalRule.State rule = Engine.StateFiring ->
  Legacy.updateRuleState e rule true now st = Done (rule, st).
Proof. intros H. unfold Legacy.updateRuleState. by rewrite H. Qed.

(** ** The evaluator: the state machine of a rule *)

Section StateMachineFacts.
Import Types Engine.


(** The invariant the code keeps: a pending rule is short of its duration
    unless it became pending on this very step. *)
Definition rule_invariant (now : time.Time) (r : EvalRule.t) : Prop :=
  match EvalRule.State r with
  | StateInactive =>
      EvalRule.ActiveAt r = time.zero /\ EvalRule.FiredAt r = time.zero
  | StatePending =>
      EvalRule.ActiveAt r <> time.zero /\ EvalRule.FiredAt r = time.zero
      /\ (time.Sub now (EvalRule.ActiveAt r) < EvalRule.For r
          \/ EvalRule.ActiveAt r = now)
  | StateFiring =>
      EvalRule.ActiveAt r <> time.zero /\ EvalRule.FiredAt r <> time.zero
      /\ EvalRule.For r <= time.Sub (EvalRule.FiredAt r) (EvalRule.ActiveAt r)
  end.



Context {W : Type}.

Lemma updateRuleState_invariant (e : RuleEvaluator W) (rule rule' : EvalRule.t)
    (hasValue : bool) (value : float64) (now0 now : time.Time)
    (st st' : Run_state W) :
  now <> time.zero ->
  rule_invariant now0 rule ->
  updateRuleState e rule hasValue value now st = Done (rule', st') ->
  rule_invariant now rule'.
Proof.
  intros Hnow Hinv. unfold updateRuleState, rule_invariant in *.
  simpl EvalRule.State.
  destruct (EvalRule.State rule) eqn:Hs, hasValue; simpl negb; cbv iota.
  - intros [= <- <-]. simpl. split_and!; [done | tauto | by right].
  - intros [= <- <-]. simpl. by rewrite Hs.
  - simpl EvalRule.For. simpl EvalRule.ActiveAt.
    destruct (EvalRule.For rule <=? _) eqn:Hfor.
    + destruct (notify e _ "firing" st); [| done]. intros [= <- <-]. simpl.
      split_and!; [tauto | done | lia].
    + intros [= <- <-]. simpl. rewrite Hs. split_and!; [tauto | tauto | left; lia].
  - intros [= <- <-]. simpl. tauto.
  - destruct (notify e _ "firing" st); [| done]. intros [= <- <-]. simpl.
    by rewrite Hs.
  - destruct (notify e _ "resolved" st); [| done]. intros [= <- <-]. simpl. done.
Qed.

End StateMachineFacts.

(** ** The manager: [Update] *)

Section ManagerUpdateFacts.
Import Types Engine.

Variable lib : Library.t.

(** [Update] comes back: it keeps the source, the two function values of the
    evaluator and every counter; on success the evaluator holds the rules built
    afresh from the gateway's, on failure it holds what it held. *)
Lemma Update_cases (m : Manager.t) (rules : Rules) (timestamp : string)
    (w : World.t) :
  exists m' w' err,
    Manager.Update lib m rules timestamp w = Done (m', w', err)
    /\ Manager.prom m' = Manager.prom m
    /\ Manager.started m' = Manager.started m
    /\ queryFunc (Manager.evaluator m') = queryFunc (Manager.evaluator m)
    /\ notifyFunc (Manager.evaluator m') = notifyFunc (Manager.evaluator m)
    /\ Metrics.NotificationsSent (World.metrics w')
       = Metrics.NotificationsSent (World.metrics w)
    /\ Metrics.NotifyErrors (World.metrics w') = Metrics.NotifyErrors (World.metrics w)
    /\ Metrics.ReloadSuccess (World.metrics w') = Metrics.ReloadSuccess (World.metrics w)
    /\ Metrics.ReloadErrors (World.metrics w') = Metrics.ReloadErrors (World.metrics w)
    /\ World.posts w' = World.posts w
    /\ match err with
       | None =>
           Engine.rules (Manager.evaluator m') = map (Manager.newEvalRule lib) rules
       | Some _ =>
           Engine.rules (Manager.evaluator m') = Engine.rules (Manager.evaluator m)
       end.
Proof.
  unfold Manager.Update.
  destruct (RulesContent.Content lib rules) as [content|].
  - pose proof (SaveRule_no_panic (Library.sha256_hex lib)
                  (Manager.storage (Manager.set_rules rules m))
                  (Prom.ID (Manager.prom (Manager.set_rules rules m)))
                  content timestamp (World.disk w)) as Hnp.
    destruct (Storage.SaveRule _ _ _ _ _ _) as [[d [path [err|]]]|]; [| | done].
    + eexists _, _, _. split; [done |]. by split_and!.
    + eexists _, _, _. split; [done |]. by split_and!.
  - eexists _, _, _. split; [done |]. by split_and!.
Qed.

Lemma newEvalRule_fresh (r : Rule.t) :
  EvalRule.ID (Manager.newEvalRule lib r) = gostring.FormatInt (Rule.ID r)
  /\ EvalRule.State (Manager.newEvalRule lib r) = StateInactive
  /\ EvalRule.ActiveAt (Manager.newEvalRule lib r) = time.zero
  /\ EvalRule.FiredAt (Manager.newEvalRule lib r) = time.zero
  /\ EvalRule.LastValue (Manager.newEvalRule lib r) = 0%float.
Proof. done. Qed.

End ManagerUpdateFacts.

(** The evaluator of a manager calls [sendNotification]: [NewManager] installs
    it, and [Update] keeps it (see [Update_cases]). *)
Lemma NewManager_notifyFunc (lib : Library.t) (out : Outside.t) (ctxDone : bool)
    (prom : Types.Prom.t) (cfg : Config.t) (storage : Storage.t) (m : Manager.t) :
  Manager.NewManager lib out ctxDone prom cfg storage = inl m ->
  Manager.prom m = prom
  /\ Engine.rules (Manager.evaluator m) = []
  /\ Engine.notifyFunc (Manager.evaluator m)
     = Some (Manager.sendNotification lib out cfg).
Proof.
  unfold Manager.NewManager. destruct (negb _); [done |]. by intros [= <-].
Qed.

(** C1, as the code has it.  [Update] does not merge with the prior state.
    It always comes back; when it succeeds, the evaluator holds one rule per
    rule of the gateway, in order, each one fresh: [StateInactive], zero
    [ActiveAt] and [FiredAt], zero [LastValue], whether or not a rule of the
    same id was held before.  When it fails, the evaluator keeps the rules it
    held. *)
Theorem Update_starts_every_rule_fresh
    (lib : Library.t) (m : Manager.t) (rules : Types.Rules)
    (timestamp : string) (w : World.t) :
  exists m' w' err,
    Manager.Update lib m rules timestamp w = Done (m', w', err)
    /\ match err with
       | None =>
           Engine.EvalRule.ID <$> Engine.rules (Manager.evaluator m')
           = (fun r => gostring.FormatInt (Types.Rule.ID r)) <$> rules
           /\ Forall (fun r =>
                        Engine.EvalRule.State r = Engine.StateInactive
                        /\ Engine.EvalRule.ActiveAt r = time.zero
                        /\ Engine.EvalRule.FiredAt r = time.zero
                        /\ Engine.EvalRule.LastValue r = 0%float)
                     (Engine.rules (Manager.evaluator m'))
       | Some _ =>
           Engine.rules (Manager.evaluator m') = Engine.rules (Manager.evaluator m)
       end.
Proof.
  destruct (Update_cases lib m rules timestamp w)
    as (m' & w' & err & Heq & _ & _ & _ & _ & _ & _ & _ & _ & _ & Hrules).
  exists m', w', err. split; [done |].
  destruct err; [done |]. rewrite Hrules. clear. split.
  - induction rules as [|r rs IH]; [done |].
    simpl map. rewrite !fmap_cons. by f_equal.
  - induction rules as [|r rs IH]; simpl; constructor; [| done].
    by destruct (newEvalRule_fresh lib r) as (_ & ? & ? & ? & ?).
Qed.

(** A manager whose evaluator holds the firing rule of id 1, and the same
    rule as the gateway sends it again. *)
Definition manager_a : Manager.t :=
  Manager.mk (Types.Prom.mk 7 "http://prom-a") [] Reference.config
    (Storage.mk "/var/lib/alertengine/rules" 30 false)
    (Engine.UpdateRules evaluator_a [firing_rule]) true false.

Definition gateway_rule_1 : Types.Rule.t :=
  Types.Rule.mk 1 7 "up" ">" "0" "" [] "summary" "description".

(** C1 as stated fails: rule 1 is firing before the update and is in the new
    ruleset, and after the update it is inactive with its timestamps and last
    value cleared. *)
Lemma Update_drops_prior_state :
  exists m' w' old new,
    Manager.Update Reference.lib manager_a [gateway_rule_1] "" Reference.world
    = Done (m', w', None)
    /\ Engine.rules (Manager.evaluator manager_a) = [old]
    /\ Engine.rules (Manager.evaluator m') = [new]
    /\ Engine.EvalRule.ID new = Engine.EvalRule.ID old
    /\ Engine.EvalRule.State old = Engine.StateFiring
    /\ Engine.EvalRule.State new = Engine.StateInactive
    /\ Engine.EvalRule.FiredAt old = 200
    /\ Engine.EvalRule.FiredAt new = 0.
Proof.
  destruct (Manager.Update Reference.lib manager_a [gateway_rule_1] ""
              Reference.world) as [[[m' w'] err]|] eqn:E.
  - exists m', w', firing_rule, (Manager.newEvalRule Reference.lib gateway_rule_1).
    vm_compute in E. injection E as <- <- <-. repeat split.
  - vm_compute in E. discriminate E.
Qed.


(** The rule the manager builds from [gateway_rule_1], whose [for] is empty. *)
Definition fresh_rule : Engine.EvalRule.t :=
  Manager.newEvalRule Reference.lib gateway_rule_1.






(** ** The notifier *)

Section NotifierFacts.

Variable lib : Library.t.
Variable out : Outside.t.
Variable cfg : Config.t.
Variable url : string.
Variable data : bytes.
Variable req0 : Request.t.

Hypothesis NewRequest_ok : Library.http_NewRequest lib "POST" url data = Some req0.

(** The request as posted: [req0] with the two headers set. *)
Definition posted : Request.t :=
  Request.Header_Set "Content-Type" "application/json"
    (Request.Header_Set "Token" (Config.AuthToken cfg) req0).

(** The outside after [n] failed posts in a row. *)
Definition after_failures (n : nat) (w : World.t) : World.t :=
  World.mk (World.disk w)
    (Metrics.mk (Metrics.RulesLoaded (World.metrics w))
       (Metrics.NotificationsSent (World.metrics w))
       (Metrics.NotifyErrors (World.metrics w) + Z.of_nat n)
       (Metrics.ReloadSuccess (World.metrics w))
       (Metrics.ReloadErrors (World.metrics w)))
    (World.queries w)
    (World.posts w ++ replicate n posted).

Definition failing_step (w : World.t) : World.t :=
  World.set_metrics
    (Metrics.NotifyErrors_Inc (World.metrics (World.record_post posted w)))
    (World.record_post posted w).

Lemma after_failures_S (n : nat) (w : World.t) :
  after_failures n (failing_step w) = after_failures (S n) w.
Proof.
  unfold after_failures, failing_step. simpl. f_equal.
  - f_equal. lia.
  - by rewrite <- app_assoc.
Qed.

Lemma length_posts_failing_step (w : World.t) :
  length (World.posts (failing_step w)) = S (length (World.posts w)).
Proof. simpl. rewrite length_app. simpl. lia. Qed.

Lemma postAlert_step_failure (n : nat) (w : World.t) :
  Outside.gateway out (length (World.posts w)) posted <> Response 200 ->
  Manager.postAlert lib out cfg url data (S n) w
  = Manager.postAlert lib out cfg url data n (failing_step w).
Proof.
  intros H. simpl. rewrite NewRequest_ok. fold posted.
  destruct (Outside.gateway out (length (World.posts w)) posted) as [|code];
    [done |].
  destruct (code =? 200) eqn:E; [| done].
  apply Z.eqb_eq in E. by subst.
Qed.

Lemma postAlert_step_success (n : nat) (w : World.t) :
  Outside.gateway out (length (World.posts w)) posted = Response 200 ->
  Manager.postAlert lib out cfg url data (S n) w
  = Done (World.set_metrics
            (Metrics.NotificationsSent_Add 1
               (World.metrics (World.record_post posted w)))
            (World.record_post posted w)).
Proof. intros H. simpl. rewrite NewRequest_ok. fold posted. by rewrite H. Qed.

Lemma postAlert_exhausted (n : nat) (w : World.t) :
  (forall j, (j < n)%nat ->
     Outside.gateway out (length (World.posts w) + j) posted <> Response 200) ->
  Manager.postAlert lib out cfg url data n w = Done (after_failures n w).
Proof.
  revert w. induction n as [|n IH]; intros w Hfail.
  - simpl. unfold after_failures. destruct w as [d [? ? ? ? ?] q p]. simpl.
    by rewrite Z.add_0_r, app_nil_r.
  - rewrite postAlert_step_failure.
    + rewrite IH; [by rewrite after_failures_S |].
      intros j Hj. rewrite length_posts_failing_step.
      replace (S (length (World.posts w)) + j)%nat
        with (length (World.posts w) + S j)%nat by lia.
      apply Hfail. lia.
    + specialize (Hfail 0%nat). rewrite Nat.add_0_r in Hfail. apply Hfail. lia.
Qed.

Lemma postAlert_first_success (n i : nat) (w : World.t) :
  (i < n)%nat ->
  (forall j, (j < i)%nat ->
     Outside.gateway out (length (World.posts w) + j) posted <> Response 200) ->
  Outside.gateway out (length (World.posts w) + i) posted = Response 200 ->
  Manager.postAlert lib out cfg url data n w
  = Done (World.set_metrics
            (Metrics.NotificationsSent_Add 1
               (World.metrics (World.record_post posted (after_failures i w))))
            (World.record_post posted (after_failures i w))).
Proof.
  revert i w. induction n as [|n IH]; intros i w Hi Hfail Hok; [lia |].
  destruct i as [|i].
  - rewrite Nat.add_0_r in Hok. rewrite postAlert_step_success by done.
    unfold after_failures. destruct w as [d [? ? ? ? ?] q p]. simpl.
    by rewrite Z.add_0_r, app_nil_r.
  - rewrite postAlert_step_failure.
    + rewrite (IH i); [by rewrite after_failures_S | lia | |].
      * intros j Hj. rewrite length_posts_failing_step.
        replace (S (length (World.posts w)) + j)%nat
          with (length (World.posts w) + S j)%nat by lia.
        apply Hfail. lia.
      * rewrite length_posts_failing_step.
        replace (S (length (World.posts w)) + i)%nat
          with (length (World.posts w) + S i)%nat by lia.
        done.
    + specialize (Hfail 0%nat). rewrite Nat.add_0_r in Hfail. apply Hfail. lia.
Qed.

(** Whatever the gateway answers, the loop makes at most [n] posts. *)
Lemma postAlert_bound (n : nat) (w : World.t) :
  exists w',
    Manager.postAlert lib out cfg url data n w = Done w'
    /\ (length (World.posts w') <= length (World.posts w) + n)%nat.
Proof.
  revert w. induction n as [|n IH]; intros w.
  - exists w. split; [done | lia].
  - destruct (decide (Outside.gateway out (length (World.posts w)) posted
                      = Response 200)) as [Hok|Hno].
    + rewrite postAlert_step_success by done. eexists. split; [done |].
      simpl. rewrite length_app. simpl. lia.
    + rewrite postAlert_step_failure by done.
      destruct (IH (failing_step w)) as (w' & -> & Hlen).
      exists w'. split; [done |]. rewrite length_posts_failing_step in Hlen. lia.
Qed.

End NotifierFacts.

(** C6.  A notification whose alert marshals and whose request can be built
    posts the same request at most [NotifyRetries] times, one after the other.
    It stops at the first answer with status 200 and then counts one
    notification sent; every answer before it (a transport error or another
    status) counts one notify error and is followed by the next post.  When no
    answer is a 200, all [NotifyRetries] posts are made, each counted as an
    error, and nothing is counted as sent; so with two retries and two answers
    of status 500 the errors grow by 2 and the notifications sent stay. *)
Theorem sendNotification_retries
    (lib : Library.t) (out : Outside.t) (cfg : Config.t)
    (rule : Engine.EvalRule.t) (state : string) (w : World.t)
    (data : bytes) (req0 : Request.t) :
  Library.json_Marshal lib [Manager.makeAlert lib rule state] = Some data ->
  Library.http_NewRequest lib "POST"
    (Config.GatewayURL cfg +:+ Config.NotifyPath cfg) data = Some req0 ->
  let n := Z.to_nat (Config.NotifyRetries cfg) in
  let req := posted cfg req0 in
  let answer i := Outside.gateway out (length (World.posts w) + i) req in
  let sent w' := Metrics.NotificationsSent (World.metrics w') in
  let errors w' := Metrics.NotifyErrors (World.metrics w') in
  (exists w',
     Manager.sendNotification lib out cfg rule state w = Done w'
     /\ (length (World.posts w') <= length (World.posts w) + n)%nat)
  /\ (forall i, (i < n)%nat ->
        (forall j, (j < i)%nat -> answer j <> Response 200) ->
        answer i = Response 200 ->
        exists w',
          Manager.sendNotification lib out cfg rule state w = Done w'
          /\ World.posts w' = World.posts w ++ replicate (S i) req
          /\ sent w' = sent w + 1
          /\ errors w' = errors w + Z.of_nat i)
  /\ ((forall j, (j < n)%nat -> answer j <> Response 200) ->
      exists w',
        Manager.sendNotification lib out cfg rule state w = Done w'
        /\ World.posts w' = World.posts w ++ replicate n req
        /\ sent w' = sent w
        /\ errors w' = errors w + Z.of_nat n)
  /\ (Config.NotifyRetries cfg = 2 ->
      answer 0%nat = Response 500 -> answer 1%nat = Response 500 ->
      exists w',
        Manager.sendNotification lib out cfg rule state w = Done w'
        /\ length (World.posts w') = (length (World.posts w) + 2)%nat
        /\ sent w' = sent w
        /\ errors w' = errors w + 2).
Proof.
  intros Hjson Hreq n req answer sent errors.
  assert (Manager.sendNotification lib out cfg rule state w
          = Manager.postAlert lib out cfg
              (Config.GatewayURL cfg +:+ Config.NotifyPath cfg) data n w) as Hsend.
  { unfold Manager.sendNotification. by rewrite Hjson. }
  rewrite Hsend.
  assert ((forall j, (j < n)%nat -> answer j <> Response 200) ->
          exists w',
            Manager.postAlert lib out cfg
              (Config.GatewayURL cfg +:+ Config.NotifyPath cfg) data n w = Done w'
            /\ World.posts w' = World.posts w ++ replicate n req
            /\ sent w' = sent w
            /\ errors w' = errors w + Z.of_nat n) as Hexhausted.
  { intros Hfail. eexists. split; [by apply (postAlert_exhausted _ _ _ _ _ req0) |].
    done. }
  split_and!.
  - by apply (postAlert_bound _ _ _ _ _ req0).
  - intros i Hi Hfail Hok. eexists.
    split; [by apply (postAlert_first_success _ _ _ _ _ req0 Hreq n i) |].
    subst sent errors. simpl. split_and!; [| done | done].
    rewrite <- app_assoc. f_equal. fold req.
    change [req] with (replicate 1 req). rewrite <- replicate_add.
    by rewrite Nat.add_1_r.
  - exact Hexhausted.
  - intros H2 H500a H500b.
    destruct Hexhausted as (w' & Hw' & Hposts & Hsent & Herrors).
    { subst n. rewrite H2. intros j Hj.
      assert (j = 0 \/ j = 1)%nat as [-> | ->] by lia; congruence. }
    exists w'. subst n. rewrite H2 in *.
    split_and!; [done | | done | by rewrite Herrors].
    rewrite Hposts, length_app, length_replicate. done.
Qed.

Lemma sendNotification_retries_witness :
  exists w',
    Manager.sendNotification Reference.lib Reference.out Reference.config
      firing_rule "firing" Reference.world = Done w'
    /\ length (World.posts w') = 2%nat
    /\ Metrics.NotificationsSent (World.metrics w') = 0
    /\ Metrics.NotifyErrors (World.metrics w') = 2.
Proof.
  destruct (sendNotification_retries Reference.lib Reference.out Reference.config
              firing_rule "firing" Reference.world []
              (Request.mk "POST" "http://gateway/api/v1/alerts" ∅ []))
    as (_ & _ & _ & H); [reflexivity | reflexivity |].
  destruct H as (w' & Hw' & Hposts & Hsent & Herrors);
    [reflexivity | reflexivity | reflexivity |].
  exists w'. split; [exact Hw' |]. split; [exact Hposts |].
  split; [exact Hsent | exact Herrors].
Defined.

(** The older [sendNotification] posts nothing and counts one notification
    sent per iteration of its loop. *)
Lemma Legacy_sendNotification_counts_sent (cfg : Config.t)
    (rule : Engine.EvalRule.t) (state : string) (w : World.t) :
  exists w',
    Legacy.sendNotification cfg rule state w = Done w'
    /\ World.posts w' = World.posts w
    /\ Metrics.NotifyErrors (World.metrics w') = Metrics.NotifyErrors (World.metrics w)
    /\ Metrics.NotificationsSent (World.metrics w')
       = Metrics.NotificationsSent (World.metrics w)
         + Z.of_nat (Z.to_nat (Config.NotifyRetries cfg)).
Proof.
  eexists. split; [reflexivity |].
  generalize (Z.to_nat (Config.NotifyRetries cfg)) as n. intros n. revert w.
  induction n as [|n IH]; intros w; simpl; [split_and!; [done | done | lia] |].
  destruct (IH (World.set_metrics
                  (Metrics.NotificationsSent_Add 1 (World.metrics w)) w))
    as (H1 & H2 & H3).
  rewrite H1, H2, H3. simpl. split_and!; [done | done | lia].
Qed.

(** ** The reloader: [Update] *)

Section ReloaderFacts.
Import Types.

Variable lib : Library.t.
Variable out : Outside.t.

(** Every manager sits under the id of its source, and its source has a
    URL.  This holds of the empty map of [NewReloader] and is kept by
    [Update]. *)
Definition managers_wf (ms : gmap Z Manager.t) : Prop :=
  forall id m, ms !! id = Some m ->
    Prom.ID (Manager.prom m) = id /\ Prom.URL (Manager.prom m) <> "".

(** Moreover every manager is for one of the incoming groups. *)
Definition live_for (groups : list PromRules.t) (ms : gmap Z Manager.t) : Prop :=
  forall id m, ms !! id = Some m ->
    Prom.ID (Manager.prom m) = id
    /\ Prom.URL (Manager.prom m) <> ""
    /\ exists g, g ∈ groups /\ PromRules.Prom g = Manager.prom m.

Lemma sameTarget_true (m : Manager.t) (pr : PromRules.t) :
  Reloader.sameTarget m pr = true <->
  PromRules.Prom pr = Manager.prom m /\ Prom.URL (PromRules.Prom pr) <> "".
Proof.
  unfold Reloader.sameTarget.
  rewrite !andb_true_iff, Z.eqb_eq, String.eqb_eq, negb_true_iff, String.eqb_neq.
  destruct (PromRules.Prom pr) as [i u], (Manager.prom m) as [i' u']. simpl.
  split.
  - intros [[-> ->] H]. done.
  - intros [[= -> ->] H]. done.
Qed.

Lemma shouldDelete_false (groups : list PromRules.t) (m : Manager.t) :
  Reloader.shouldDelete groups m = false <->
  exists g, g ∈ groups /\ PromRules.Prom g = Manager.prom m
            /\ Prom.URL (PromRules.Prom g) <> "".
Proof.
  unfold Reloader.shouldDelete. rewrite negb_false_iff, existsb_exists.
  split.
  - intros (g & Hin & Hg). apply sameTarget_true in Hg as [? ?].
    exists g. by rewrite list_elem_of_In.
  - intros (g & Hin & Hp & Hu). exists g. rewrite <- list_elem_of_In.
    split; [done |]. by apply sameTarget_true.
Qed.

Lemma sweep_lookup (groups : list PromRules.t) (ms : gmap Z Manager.t)
    (id : Z) (m : Manager.t) :
  Reloader.sweep groups ms !! id = Some m <->
  ms !! id = Some m /\ Reloader.shouldDelete groups m = false.
Proof. unfold Reloader.sweep. by rewrite map_lookup_filter_Some. Qed.

Lemma sweep_live_for (groups : list PromRules.t) (ms : gmap Z Manager.t) :
  managers_wf ms -> live_for groups (Reloader.sweep groups ms).
Proof.
  intros Hwf id m [Hm Hkeep]%sweep_lookup.
  destruct (Hwf id m Hm) as [Hid Hurl].
  apply shouldDelete_false in Hkeep as (g & Hin & Hp & _).
  split_and!; [done | done |]. by exists g.
Qed.

Lemma converge_spec (groups : list PromRules.t) (r : Reloader.t)
    (timestamp : string) (pr : PromRules.t) (ms : gmap Z Manager.t)
    (w : World.t) :
  pr ∈ groups ->
  live_for groups ms ->
  (Prom.URL (PromRules.Prom pr) <> "" ->
   ms !! Prom.ID (PromRules.Prom pr) = None ->
   Library.api_NewClient lib (Prom.URL (PromRules.Prom pr)) = true) ->
  exists ms' w',
    Reloader.converge lib out r timestamp pr (ms, w) = Done (ms', w')
    /\ live_for groups ms'
    /\ forall id, is_Some (ms' !! id) <->
         is_Some (ms !! id)
         \/ (Prom.URL (PromRules.Prom pr) <> "" /\ Prom.ID (PromRules.Prom pr) = id).
Proof.
  intros Hin Hlive Hnew. unfold Reloader.converge.
  destruct (String.eqb_spec (Prom.URL (PromRules.Prom pr)) "") as [Hempty|Hurl].
  { exists ms, w. split_and!; [done | done |]. intros id. tauto. }
  simpl fst. simpl snd.
  destruct (ms !! Prom.ID (PromRules.Prom pr)) as [m|] eqn:Hm.
  - destruct (Update_cases lib m (PromRules.Rules pr) timestamp w)
      as (m' & w' & err & -> & Hprom & _).
    exists (<[Prom.ID (PromRules.Prom pr) := m']> ms), w'.
    split_and!; [done | |].
    + intros id x. destruct (decide (Prom.ID (PromRules.Prom pr) = id)) as [<-|Hne].
      * rewrite lookup_insert_eq. intros [= <-]. rewrite Hprom. by apply Hlive.
      * rewrite lookup_insert_ne by done. apply Hlive.
    + intros id. destruct (decide (Prom.ID (PromRules.Prom pr) = id)) as [<-|Hne].
      * rewrite lookup_insert_eq, Hm. split; [by right | by eexists].
      * rewrite lookup_insert_ne by done. split; [by left | intros [?|[_ ?]]; done].
  - unfold Manager.NewManager. rewrite (Hnew Hurl eq_refl). simpl negb. cbv iota.
    match goal with
    | |- context [Manager.Update lib ?nm _ _ _] =>
        destruct (Update_cases lib nm (PromRules.Rules pr) timestamp w)
          as (m' & w' & err & -> & Hprom & _)
    end.
    simpl in Hprom.
    eexists _, w'. split_and!; [done | |].
    + intros id x. destruct (decide (Prom.ID (PromRules.Prom pr) = id)) as [<-|Hne].
      * rewrite lookup_insert_eq. intros [= <-]. rewrite Hprom.
        split_and!; [done | done |]. by exists pr.
      * rewrite !lookup_insert_ne by done. apply Hlive.
    + intros id. destruct (decide (Prom.ID (PromRules.Prom pr) = id)) as [<-|Hne].
      * rewrite lookup_insert_eq. split; [by right | by eexists].
      * rewrite !lookup_insert_ne by done. split; [by left | intros [?|[_ ?]]; done].
Qed.

Lemma convergeAll_spec (groups : list PromRules.t) (r : Reloader.t)
    (clock : Z -> string) (gs : list PromRules.t) (ms : gmap Z Manager.t)
    (w : World.t) :
  (forall g, g ∈ gs -> g ∈ groups) ->
  live_for groups ms ->
  (forall g, g ∈ gs ->
     Prom.URL (PromRules.Prom g) <> "" ->
     ms !! Prom.ID (PromRules.Prom g) = None ->
     Library.api_NewClient lib (Prom.URL (PromRules.Prom g)) = true) ->
  exists ms' w',
    Reloader.convergeAll lib out r clock gs (ms, w) = Done (ms', w')
    /\ live_for groups ms'
    /\ forall id, is_Some (ms' !! id) <->
         is_Some (ms !! id)
         \/ exists g, g ∈ gs /\ Prom.URL (PromRules.Prom g) <> ""
                      /\ Prom.ID (PromRules.Prom g) = id.
Proof.
  revert ms w. induction gs as [|pr gs IH]; intros ms w Hsub Hlive Hnew.
  - exists ms, w. split_and!; [done | done |].
    intros id. split; [by left | intros [?|(g & Hg & _)]; [done | by inversion Hg]].
  - simpl.
    destruct (converge_spec groups r (clock (Prom.ID (PromRules.Prom pr))) pr ms w)
      as (ms1 & w1 & -> & Hlive1 & Hdom1).
    { apply Hsub. by left. }
    { done. }
    { apply Hnew. by left. }
    destruct (IH ms1 w1) as (ms' & w' & -> & Hlive' & Hdom').
    { intros g Hg. apply Hsub. by right. }
    { done. }
    { intros g Hg Hurl Hnone. apply Hnew; [by right | done |].
      destruct (ms !! Prom.ID (PromRules.Prom g)) eqn:E; [| done].
      assert (is_Some (ms1 !! Prom.ID (PromRules.Prom g))) as [? ?]
        by (apply Hdom1; left; by eexists).
      congruence. }
    exists ms', w'. split_and!; [done | done |].
    intros id. rewrite Hdom', Hdom1. split.
    + intros [[?|[? ?]]|(g & Hg & ? & ?)].
      * by left.
      * right. exists pr. split_and!; [by left | done | done].
      * right. exists g. split_and!; [by right | done | done].
    + intros [?|(g & Hg & Hu & Hi)]; [by left; left |].
      apply elem_of_cons in Hg as [->|Hg].
      * left. by right.
      * right. by exists g.
Qed.

End ReloaderFacts.

Lemma managers_wf_empty : managers_wf ∅.
Proof. intros id m H. by rewrite lookup_empty in H. Qed.

(** C3.  Take a reconcile whose fetch succeeds with the groups [groups], on a
    manager map that is well formed (as every map reached from [NewReloader]
    is), and in which every construction that is needed succeeds (for a group
    with a URL whose id has no manager left after the sweep).  Then [Update]
    comes back without error, and the keys of the manager map are exactly the
    ids of the groups with a non-empty URL.  The sweep removes a manager iff no
    group has both its id and its URL; and every manager of the new map is for
    an incoming group with a non-empty URL, so a group with an empty URL gets
    none. *)
Theorem Update_live_managers
    (lib : Library.t) (out : Outside.t) (r : Reloader.t)
    (f : Reloader.Fetched.t) (clock : Z -> string) (w : World.t)
    (groups : list Types.PromRules.t) :
  Reloader.fetchPromRules f = inl groups ->
  managers_wf (Reloader.managers r) ->
  (forall g, g ∈ groups ->
     Types.Prom.URL (Types.PromRules.Prom g) <> "" ->
     Reloader.sweep groups (Reloader.managers r)
       !! Types.Prom.ID (Types.PromRules.Prom g) = None ->
     Library.api_NewClient lib (Types.Prom.URL (Types.PromRules.Prom g)) = true) ->
  exists r' w',
    Reloader.Update lib out r f clock w = Done (r', w', None)
    /\ dom (Reloader.managers r')
       = list_to_set
           ((fun g => Types.Prom.ID (Types.PromRules.Prom g))
              <$> filter (fun g => Types.Prom.URL (Types.PromRules.Prom g) <> "")
                         groups)
    /\ managers_wf (Reloader.managers r')
    /\ (forall id m,
          Reloader.managers r !! id = Some m ->
          Reloader.sweep groups (Reloader.managers r) !! id = None <->
          ~ exists g, g ∈ groups
                      /\ Types.Prom.ID (Types.PromRules.Prom g)
                         = Types.Prom.ID (Manager.prom m)
                      /\ Types.Prom.URL (Types.PromRules.Prom g)
                         = Types.Prom.URL (Manager.prom m))
    /\ (forall id m',
          Reloader.managers r' !! id = Some m' ->
          exists g, g ∈ groups
                    /\ Types.PromRules.Prom g = Manager.prom m'
                    /\ Types.Prom.URL (Types.PromRules.Prom g) <> "").
Proof.
  intros Hfetch Hwf Hnew. unfold Reloader.Update. rewrite Hfetch.
  destruct (convergeAll_spec lib out groups r clock groups
              (Reloader.sweep groups (Reloader.managers r)) w)
    as (ms' & w' & -> & Hlive & Hdom); [done | by apply sweep_live_for | done |].
  exists (Reloader.set_managers ms' r), w'. simpl. split_and!.
  - done.
  - apply set_eq. intros id.
    rewrite elem_of_dom, Hdom, elem_of_list_to_set, list_elem_of_fmap. split.
    + intros [[m Hm]|(g & Hg & Hu & Hi)].
      * apply sweep_lookup in Hm as [Hm Hkeep].
        apply shouldDelete_false in Hkeep as (g & Hg & Hp & Hu).
        exists g. split; [| by apply list_elem_of_filter].
        rewrite Hp. symmetry. by apply (Hwf id m).
      * exists g. split; [done | by apply list_elem_of_filter].
    + intros (g & -> & [Hu Hg]%list_elem_of_filter). right. by exists g.
  - intros id m Hm. destruct (Hlive id m Hm) as (? & ? & _). done.
  - intros id m Hm. destruct (Hwf id m Hm) as [Hid Hurl]. split.
    + intros Hgone (g & Hg & Hi & Hu).
      assert (Reloader.sweep groups (Reloader.managers r) !! id = Some m) as Hkept.
      { apply sweep_lookup. split; [done |]. apply shouldDelete_false.
        exists g. split_and!; [done | | congruence].
        destruct (Types.PromRules.Prom g), (Manager.prom m). simpl in *. congruence. }
      congruence.
    + intros Hno.
      destruct (Reloader.sweep groups (Reloader.managers r) !! id) as [m1|] eqn:E;
        [| done].
      exfalso. apply Hno.
      apply sweep_lookup in E as [Hm1 Hkeep].
      assert (m1 = m) as -> by congruence.
      apply shouldDelete_false in Hkeep as (g & Hg & Hp & _).
      exists g. by rewrite Hp.
  - intros id m' Hm'. destruct (Hlive id m' Hm') as (_ & Hu & g & Hg & Hp).
    exists g. split_and!; [done | done | by rewrite Hp].
Qed.

(** Two rules of source 7, which the gateway lists at [http://prom-a], and
    one rule of source 8, which it does not list. *)
Definition gateway_answers : Reloader.Fetched.t :=
  Reloader.Fetched.mk
    (inl [gateway_rule_1;
          Types.Rule.mk 2 7 "load" "<" "5" "120s" [] "s" "d";
          Types.Rule.mk 3 8 "mem" ">" "9" "5m" [] "s" "d"])
    (inl [Types.Prom.mk 7 "http://prom-a"]).

Definition fresh_reloader : Reloader.t :=
  Reloader.NewReloader Reference.config
    (Storage.mk "/var/lib/alertengine/rules" 30 false).

Lemma Update_live_managers_witness :
  exists r' w',
    Reloader.Update Reference.lib Reference.out fresh_reloader gateway_answers
      (fun _ => "") Reference.world
    = Done (r', w', None)
    /\ dom (Reloader.managers r') = {[ 7 ]}.
Proof.
  destruct (Reloader.fetchPromRules gateway_answers) as [groups|] eqn:Hfetch;
    [| vm_compute in Hfetch; discriminate Hfetch].
  destruct (Update_live_managers Reference.lib Reference.out fresh_reloader
              gateway_answers (fun _ => "") Reference.world groups)
    as (r' & w' & Hup & Hdom & _).
  - exact Hfetch.
  - apply managers_wf_empty.
  - intros. reflexivity.
  - exists r', w'. split; [exact Hup |]. rewrite Hdom.
    vm_compute in Hfetch. injection Hfetch as <-.
    match goal with
    | |- list_to_set ?l = _ =>
        let l' := eval vm_compute in l in change l with l'
    end.
    rewrite list_to_set_cons, list_to_set_nil. apply (right_id_L ∅ (∪)).
Defined.

(** ** The reloader: [Loop] *)

Section LoopFacts.
Import Types.

Variable lib : Library.t.
Variable out : Outside.t.

(** The reloads counted so far, as successes or as errors. *)
Definition reloads_counted (w : World.t) : Z :=
  Metrics.ReloadSuccess (World.metrics w) + Metrics.ReloadErrors (World.metrics w).

Definition is_tick (ev : Reloader.LoopEvent) : bool :=
  match ev with
  | Reloader.TickEvent _ _ => true
  | _ => false
  end.

Lemma converge_total (r : Reloader.t) (timestamp : string) (pr : PromRules.t)
    (st : gmap Z Manager.t * World.t) :
  exists st',
    Reloader.converge lib out r timestamp pr st = Done st'
    /\ Metrics.ReloadSuccess (World.metrics (snd st'))
       = Metrics.ReloadSuccess (World.metrics (snd st))
    /\ Metrics.ReloadErrors (World.metrics (snd st'))
       = Metrics.ReloadErrors (World.metrics (snd st)).
Proof.
  unfold Reloader.converge.
  destruct (String.eqb _ ""); [by exists st |].
  destruct (fst st !! _) as [m|].
  - destruct (Update_cases lib m (PromRules.Rules pr) timestamp (snd st))
      as (m' & w' & err & -> & _ & _ & _ & _ & _ & _ & Hs & He & _).
    by eexists.
  - destruct (Manager.NewManager lib out _ _ _ _) as [nm|]; [| by exists st].
    destruct (Update_cases lib (Manager.Run nm) (PromRules.Rules pr) timestamp (snd st))
      as (m' & w' & err & -> & _ & _ & _ & _ & _ & _ & Hs & He & _).
    by eexists.
Qed.

Lemma convergeAll_total (r : Reloader.t) (clock : Z -> string)
    (gs : list PromRules.t) (st : gmap Z Manager.t * World.t) :
  exists st',
    Reloader.convergeAll lib out r clock gs st = Done st'
    /\ Metrics.ReloadSuccess (World.metrics (snd st'))
       = Metrics.ReloadSuccess (World.metrics (snd st))
    /\ Metrics.ReloadErrors (World.metrics (snd st'))
       = Metrics.ReloadErrors (World.metrics (snd st)).
Proof.
  revert st. induction gs as [|pr gs IH]; intros st; simpl; [by exists st |].
  destruct (converge_total r (clock (Prom.ID (PromRules.Prom pr))) pr st)
    as (st1 & -> & Hs1 & He1).
  destruct (IH st1) as (st' & -> & Hs & He).
  exists st'. by rewrite Hs, He.
Qed.

(** [Update] comes back and ticks neither reload counter. *)
Lemma Reloader_Update_total (r : Reloader.t) (f : Reloader.Fetched.t)
    (clock : Z -> string) (w : World.t) :
  exists r' w' err,
    Reloader.Update lib out r f clock w = Done (r', w', err)
    /\ Reloader.running r' = Reloader.running r
    /\ reloads_counted w' = reloads_counted w
    /\ (err <> None -> r' = r /\ w' = w).
Proof.
  unfold Reloader.Update, reloads_counted.
  destruct (Reloader.fetchPromRules f) as [groups|].
  - destruct (convergeAll_total r clock groups
                (Reloader.sweep groups (Reloader.managers r), w))
      as ([ms' w'] & -> & Hs & He).
    eexists _, _, _. split; [done |]. simpl in *. by rewrite Hs, He.
  - eexists _, _, _. split; [done |]. done.
Qed.

Lemma rounds_counted (events : list Reloader.LoopEvent) (r : Reloader.t)
    (w : World.t) :
  exists r' w',
    Reloader.rounds lib out events r w = Done (r', w')
    /\ 0 <= reloads_counted w' - reloads_counted w
       <= Z.of_nat (length (filter is_tick events))
    /\ (Reloader.running r = true -> forallb is_tick events = true ->
        reloads_counted w' - reloads_counted w = Z.of_nat (length events)).
Proof.
  revert r w. induction events as [|ev events IH]; intros r w.
  - exists r, w. simpl. destruct (Reloader.running r); simpl; split_and!; (done || lia).
  - simpl Reloader.rounds. destruct (Reloader.running r) eqn:Hrun; simpl negb; cbv iota.
    2:{ exists r, w. split_and!; (done || lia). }
    destruct ev as [f clock| |].
    + destruct (Reloader_Update_total r f clock w)
        as (r1 & w1 & err & -> & Hrun1 & Hc1 & _).
      rewrite filter_cons_True by done. simpl length.
      destruct err.
      * destruct (IH r1 (World.set_metrics
                           (Metrics.ReloadErrors_Inc (World.metrics w1)) w1))
          as (r' & w' & -> & Hb & Hall).
        exists r', w'. split; [done |].
        unfold reloads_counted in *. simpl in *. split; [lia |].
        intros _ Hticks. specialize (Hall ltac:(congruence) Hticks). lia.
      * destruct (IH r1 (World.set_metrics
                           (Metrics.ReloadSuccess_Inc (World.metrics w1)) w1))
          as (r' & w' & -> & Hb & Hall).
        exists r', w'. split; [done |].
        unfold reloads_counted in *. simpl in *. split; [lia |].
        intros _ Hticks. specialize (Hall ltac:(congruence) Hticks). lia.
    + exists r, w. split_and!; (done || lia).
    + eexists _, w. split_and!; (done || lia).
Qed.

End LoopFacts.

(** C7, where the code departs from it.  [Loop] runs [Update] once at once
    and then once per tick, but it counts only the updates of the ticks: the
    reloads counted (successes plus errors) grow by at most the number of
    ticks, by exactly that number when the loop is running and meets ticks
    only, and not at all when no tick arrives, although the immediate update
    has run. *)
Theorem Loop_counts_ticks_only
    (lib : Library.t) (out : Outside.t) (f0 : Reloader.Fetched.t)
    (clock0 : Z -> string) (events : list Reloader.LoopEvent)
    (r : Reloader.t) (w : World.t) :
  exists r' w',
    Reloader.Loop lib out f0 clock0 events r w = Done (r', w')
    /\ 0 <= reloads_counted w' - reloads_counted w
       <= Z.of_nat (length (filter is_tick events))
    /\ (Reloader.running r = true -> forallb is_tick events = true ->
        reloads_counted w' - reloads_counted w = Z.of_nat (length events))
    /\ (events = [] -> reloads_counted w' = reloads_counted w).
Proof.
  unfold Reloader.Loop.
  destruct (Reloader_Update_total lib out r f0 clock0 w)
    as (r1 & w1 & err & -> & Hrun1 & Hc1 & _).
  destruct (rounds_counted lib out events r1 w1) as (r' & w' & -> & Hb & Hall).
  exists r', w'. rewrite Hc1, Hrun1 in *.
  split; [done |]. split; [exact Hb |]. split; [exact Hall |].
  intros ->. simpl in Hb. lia.
Qed.

(** The immediate update of a running reloader fails (the gateway is down),
    no tick arrives: the update has run, and no counter has moved. *)
Lemma Loop_initial_failure_is_not_counted :
  Reloader.Loop Reference.lib Reference.out
    (Reloader.Fetched.mk (inr ErrFetchRules) (inr ErrFetchRules)) (fun _ => "")
    [Reloader.DoneEvent] (Reloader.Run fresh_reloader) Reference.world
  = Done (Reloader.Run fresh_reloader, Reference.world)
  /\ Metrics.ReloadErrors (World.metrics Reference.world) = 0
  /\ Metrics.ReloadSuccess (World.metrics Reference.world) = 0.
Proof. split_and!; reflexivity. Qed.

(** The immediate update of a running reloader succeeds and installs the
    manager of source 7, no tick arrives: no counter has moved either. *)
Lemma Loop_initial_success_is_not_counted :
  exists r' w',
    Reloader.Loop Reference.lib Reference.out gateway_answers (fun _ => "")
      [Reloader.DoneEvent] (Reloader.Run fresh_reloader) Reference.world
    = Done (r', w')
    /\ Reloader.GetManagerCount r' = 1
    /\ Metrics.ReloadSuccess (World.metrics w') = 0
    /\ Metrics.ReloadErrors (World.metrics w') = 0.
Proof.
  destruct (Reloader.Loop Reference.lib Reference.out gateway_answers (fun _ => "")
              [Reloader.DoneEvent] (Reloader.Run fresh_reloader) Reference.world)
    as [[r' w']|] eqn:E; [| vm_compute in E; discriminate E].
  exists r', w'. split; [done |].
  vm_compute in E. injection E as <- <-. split_and!; reflexivity.
Qed.

(* ===================================================================== *)
(** * Further properties of the code *)
(* ===================================================================== *)

(** ** The evaluator: what a tick may call and change *)

Section TickFacts.
Import Types Engine.

Context {W : Type}.
Variable common_FromMap : gmap string string -> Labels.
Variable e : RuleEvaluator W.

(** A call the state machine may make: for a rule that is firing (or was,
    when it resolves), with both timestamps set and its duration served. *)
Definition held_for (c : Call) : Prop :=
  (snd c = "firing" \/ snd c = "resolved")
  /\ EvalRule.State (fst c) = StateFiring
  /\ EvalRule.ActiveAt (fst c) <> time.zero
  /\ EvalRule.FiredAt (fst c) <> time.zero
  /\ EvalRule.For (fst c) <= time.Sub (EvalRule.FiredAt (fst c)) (EvalRule.ActiveAt (fst c)).

(** What a step keeps of a rule. *)
Definition same_identity (r r' : EvalRule.t) : Prop :=
  EvalRule.ID r' = EvalRule.ID r
  /\ EvalRule.PromID r' = EvalRule.PromID r
  /\ EvalRule.Expr r' = EvalRule.Expr r
  /\ EvalRule.For r' = EvalRule.For r
  /\ EvalRule.Annotations r' = EvalRule.Annotations r.

Lemma notify_calls (rule : EvalRule.t) (state : string) (st st' : Run_state W) :
  notify e rule state st = Done st' ->
  snd st' = snd st \/ snd st' = snd st ++ [(rule, state)].
Proof.
  unfold notify. destruct (notifyFunc e) as [f|].
  - destruct (f rule state (fst st)); [| done]. intros [= <-]. by right.
  - intros [= <-]. by left.
Qed.

Lemma updateRuleState_calls (rule rule' : EvalRule.t) (hasValue : bool)
    (value : float64) (now0 now : time.Time) (st st' : Run_state W) :
  now <> time.zero ->
  rule_invariant now0 rule ->
  updateRuleState e rule hasValue value now st = Done (rule', st') ->
  exists more,
    snd st' = snd st ++ more /\ (length more <= 1)%nat /\ Forall held_for more.
Proof.
  intros Hnow Hinv. unfold updateRuleState, rule_invariant in *.
  simpl EvalRule.State.
  assert (forall r s st1,
            notify e r s st = Done st1 -> held_for (r, s) ->
            exists more,
              snd st1 = snd st ++ more /\ (length more <= 1)%nat
              /\ Forall held_for more) as Hcall.
  { intros r s st1 [Hn|Hn]%notify_calls Hh.
    - exists []. rewrite app_nil_r. split_and!; [done | simpl; lia | constructor].
    - exists [(r, s)]. split_and!; [done | simpl; lia | by constructor]. }
  assert (exists more : list Call,
            snd st = snd st ++ more /\ (length more <= 1)%nat
            /\ Forall held_for more) as Hnone.
  { exists []. rewrite app_nil_r. split_and!; [done | simpl; lia | constructor]. }
  destruct (EvalRule.State rule) eqn:Hs, hasValue; simpl negb; cbv iota;
    try (intros [= <- <-]; exact Hnone).
  - simpl EvalRule.For. simpl EvalRule.ActiveAt.
    destruct (EvalRule.For rule <=? _) eqn:Hfor; [| intros [= <- <-]; exact Hnone].
    destruct (notify e _ "firing" st) as [st1|] eqn:En; [| done].
    intros [= <- <-]. eapply Hcall; [exact En |].
    unfold held_for. simpl. split_and!; [by left | done | tauto | done | lia].
  - destruct (notify e _ "firing" st) as [st1|] eqn:En; [| done].
    intros [= <- <-]. eapply Hcall; [exact En |].
    unfold held_for. simpl. rewrite Hs. split_and!; [by left | done | tauto | tauto | tauto].
  - destruct (notify e _ "resolved" st) as [st1|] eqn:En; [| done].
    intros [= <- <-]. eapply Hcall; [exact En |].
    unfold held_for. simpl. rewrite Hs. split_and!; [by right | done | tauto | tauto | tauto].
Qed.

Lemma updateRuleState_identity (rule rule' : EvalRule.t) (hasValue : bool)
    (value : float64) (now : time.Time) (st st' : Run_state W) :
  updateRuleState e rule hasValue value now st = Done (rule', st') ->
  same_identity rule rule' /\ EvalRule.Labels rule' = EvalRule.Labels rule.
Proof.
  unfold updateRuleState. simpl EvalRule.State.
  destruct (EvalRule.State rule), hasValue; simpl negb; cbv iota;
    repeat match goal with
    | |- context [if ?b then _ else _] => destruct b
    | |- context [notify e ?r ?s st] => destruct (notify e r s st); [| done]
    end;
    by intros [= <- <-].
Qed.

Lemma evaluateRule_invariant (rule rule' : EvalRule.t) (now0 now : time.Time)
    (st st' : Run_state W) :
  now <> time.zero ->
  rule_invariant now0 rule ->
  evaluateRule common_FromMap e now rule st = Done (rule', st') ->
  (exists now1, rule_invariant now1 rule')
  /\ exists more,
       snd st' = snd st ++ more /\ (length more <= 1)%nat /\ Forall held_for more.
Proof.
  intros Hnow Hinv. unfold evaluateRule.
  destruct (queryFunc e _ _) as [q w].
  destruct (QueryResult.err q).
  - intros [= <- <-]. split; [by exists now0 |].
    exists []. simpl. rewrite app_nil_r. split_and!; [done | lia | constructor].
  - intros H.
    assert (rule_invariant now0
              match QueryResult.hasValue q, QueryResult.metricLabels q with
              | true, Some metricLabels =>
                  EvalRule.set_Labels
                    (common_FromMap (mergeLabels (EvalRule.Labels rule) metricLabels))
                    rule
              | _, _ => rule
              end) as Hinv'.
    { destruct (QueryResult.hasValue q); [| done].
      by destruct (QueryResult.metricLabels q). }
    split.
    + exists now. by eapply updateRuleState_invariant.
    + by eapply updateRuleState_calls in H.
Qed.

Lemma evaluateRule_identity (rule rule' : EvalRule.t) (now : time.Time)
    (st st' : Run_state W) :
  evaluateRule common_FromMap e now rule st = Done (rule', st') ->
  same_identity rule rule'.
Proof.
  unfold evaluateRule. destruct (queryFunc e _ _) as [q w].
  destruct (QueryResult.err q); [by intros [= <- <-] |].
  intros [H _]%updateRuleState_identity.
  destruct (QueryResult.hasValue q); [| done].
  by destruct (QueryResult.metricLabels q).
Qed.

End TickFacts.

(** A tick only notifies for rules that have served their duration.  When
    every rule of the list satisfies the rule invariant, a tick at a non-zero
    instant makes at most one call per rule; each call is a ["firing"] or a
    ["resolved"] for a rule that is (or, resolving, was) firing, with both
    timestamps set and [FiredAt - ActiveAt >= For]; and every rule satisfies
    the invariant again afterwards. *)
Lemma evaluateRules_calls
    {W : Type} (common_FromMap : gmap string string -> Types.Labels)
    (e : Engine.RuleEvaluator W) (now : time.Time)
    (rs rs' : list Engine.EvalRule.t) (st st' : Engine.Run_state W) :
  now <> time.zero ->
  Forall (fun r => exists now0, rule_invariant now0 r) rs ->
  Engine.evaluateRules common_FromMap e now rs st = Done (rs', st') ->
  Forall (fun r => exists now0, rule_invariant now0 r) rs'
  /\ exists more,
       snd st' = snd st ++ more
       /\ (length more <= length rs)%nat
       /\ Forall held_for more.
Proof.
  intros Hnow. revert rs' st. induction rs as [|rule rest IH]; intros rs' st Hinv; simpl.
  - intros [= <- <-]. split; [constructor |].
    exists []. rewrite app_nil_r. split_and!; [done | simpl; lia | constructor].
  - inversion Hinv as [|? ? [now0 Hr] Hrest]; subst.
    destruct (Engine.evaluateRule _ _ _ rule st) as [[rule1 st1]|] eqn:E1; [| done].
    destruct (Engine.evaluateRules _ _ _ rest st1) as [[rest1 st2]|] eqn:E2; [| done].
    intros [= <- <-].
    destruct (evaluateRule_invariant common_FromMap e rule rule1 now0 now st st1)
      as (Hr1 & m1 & Hm1 & Hl1 & Hh1); [done | done | done |].
    destruct (IH rest1 st1 Hrest E2) as (Hrest1 & m2 & Hm2 & Hl2 & Hh2).
    split; [by constructor |].
    exists (m1 ++ m2). rewrite Hm2, Hm1, app_assoc. split_and!; [done | |].
    + rewrite length_app. simpl. lia.
    + by apply Forall_app.
Qed.

(** A tick changes no rule's identity: the new rule list has the rules of the
    old one in the same order, each with its [ID], [PromID], [Expr], [For]
    and [Annotations] as they were. *)
Lemma evaluateRules_identity
    {W : Type} (common_FromMap : gmap string string -> Types.Labels)
    (e : Engine.RuleEvaluator W) (now : time.Time)
    (rs rs' : list Engine.EvalRule.t) (st st' : Engine.Run_state W) :
  Engine.evaluateRules common_FromMap e now rs st = Done (rs', st') ->
  Forall2 same_identity rs rs'.
Proof.
  revert rs' st. induction rs as [|rule rest IH]; intros rs' st; simpl.
  - intros [= <- <-]. constructor.
  - destruct (Engine.evaluateRule _ _ _ rule st) as [[rule1 st1]|] eqn:E1; [| done].
    destruct (Engine.evaluateRules _ _ _ rest st1) as [[rest1 st2]|] eqn:E2; [| done].
    intros [= <- <-]. constructor; [by eapply evaluateRule_identity | by eapply IH].
Qed.

(** Over the life of an evaluator.  [Run] over any ticks at non-zero instants
    keeps the two function values of the evaluator and the identity and order
    of its rules, keeps the rule invariant, and makes at most one call per
    rule and tick, each for a rule that has served its duration. *)
Theorem Run_keeps_rules_and_notifies_soundly
    {W : Type} (common_FromMap : gmap string string -> Types.Labels)
    (e e' : Engine.RuleEvaluator W) (ticks : list time.Time)
    (st st' : Engine.Run_state W) :
  Forall (fun now => now <> time.zero) ticks ->
  Forall (fun r => exists now0, rule_invariant now0 r) (Engine.rules e) ->
  Engine.Run common_FromMap e ticks st = Done (e', st') ->
  Engine.queryFunc e' = Engine.queryFunc e
  /\ Engine.notifyFunc e' = Engine.notifyFunc e
  /\ Forall2 same_identity (Engine.rules e) (Engine.rules e')
  /\ Forall (fun r => exists now0, rule_invariant now0 r) (Engine.rules e')
  /\ exists more,
       snd st' = snd st ++ more
       /\ (length more <= length ticks * length (Engine.rules e))%nat
       /\ Forall held_for more.
Proof.
  intros Hticks. revert e st.
  induction Hticks as [|now later Hnow Hlater IH]; intros e st Hinv; simpl.
  - intros [= <- <-]. split_and!; [done | done | | done |].
    + clear. induction (Engine.rules e); constructor; [by repeat split | done].
    + exists []. rewrite app_nil_r. split_and!; [done | simpl; lia | constructor].
  - unfold Engine.evaluate.
    destruct (Engine.evaluateRules _ _ _ (Engine.rules e) st) as [[rs1 st1]|] eqn:E1;
      [| done].
    intros Hrun.
    destruct (evaluateRules_calls _ _ _ _ _ _ _ Hnow Hinv E1)
      as (Hinv1 & m1 & Hm1 & Hl1 & Hh1).
    pose proof (evaluateRules_identity _ _ _ _ _ _ _ E1) as Hid1.
    destruct (IH (Engine.UpdateRules e rs1) st1 Hinv1 Hrun)
      as (Hq & Hn & Hid & Hinv' & m2 & Hm2 & Hl2 & Hh2).
    simpl in Hq, Hn, Hid, Hl2.
    split_and!; [done | done | | done |].
    + clear -Hid1 Hid. revert Hid. generalize (Engine.rules e'). revert Hid1.
      generalize (Engine.rules e). intros l1 H12.
      induction H12 as [|a b l1 l2 Hab H12 IH12]; intros l3 H23;
        inversion H23; subst; constructor; [| by apply IH12].
      unfold same_identity in *. intuition congruence.
    + exists (m1 ++ m2). rewrite Hm2, Hm1, app_assoc. split_and!; [done | |].
      * rewrite length_app. apply Forall2_length in Hid1. nia.
      * by apply Forall_app.
Qed.

Lemma Run_keeps_rules_and_notifies_soundly_witness :
  exists e' st',
    Engine.Run (Library.common_FromMap Reference.lib)
      (Engine.UpdateRules evaluator_a [fresh_rule]) [1000; 2000; 3000]
      (Reference.world, [])
    = Done (e', st')
    /\ (length (snd st') <= 3)%nat
    /\ Forall held_for (snd st')
    /\ Forall2 same_identity [fresh_rule] (Engine.rules e').
Proof.
  destruct (Engine.Run (Library.common_FromMap Reference.lib)
              (Engine.UpdateRules evaluator_a [fresh_rule]) [1000; 2000; 3000]
              (Reference.world, [])) as [[e' st']|] eqn:E;
    [| vm_compute in E; discriminate E].
  destruct (Run_keeps_rules_and_notifies_soundly
              (Library.common_FromMap Reference.lib)
              (Engine.UpdateRules evaluator_a [fresh_rule]) e' [1000; 2000; 3000]
              (Reference.world, []) st')
    as (_ & _ & Hid & _ & more & Hmore & Hlen & Hheld).
  - repeat constructor; discriminate.
  - repeat constructor. exists 0. vm_compute. split; reflexivity.
  - exact E.
  - exists e', st'. split; [reflexivity |]. simpl in Hmore. rewrite Hmore.
    split; [exact Hlen |]. split; [exact Hheld | exact Hid].
Defined.

(** A tick without a value.  Whatever the rule, a step whose query has no
    value leaves it inactive with the last value recorded; a rule that
    satisfied the invariant has both timestamps cleared.  The notify function
    is called exactly when the rule was firing, with ["resolved"] and the rule
    as it was before the reset (its [ActiveAt] and [FiredAt] still set); a
    pending rule goes back to inactive without a call. *)
Theorem step_without_value_resets_rule
    {W : Type} (e : Engine.RuleEvaluator W) (rule rule' : Engine.EvalRule.t)
    (value : float64) (now0 now : time.Time) (st st' : Engine.Run_state W) :
  rule_invariant now0 rule ->
  Engine.updateRuleState e rule false value now st = Done (rule', st') ->
  Engine.EvalRule.State rule' = Engine.StateInactive
  /\ Engine.EvalRule.ActiveAt rule' = time.zero
  /\ Engine.EvalRule.FiredAt rule' = time.zero
  /\ Engine.EvalRule.LastValue rule' = value
  /\ ((Engine.EvalRule.State rule = Engine.StateFiring
       /\ Engine.notifyFunc e <> None
       /\ snd st' = snd st ++ [(Engine.EvalRule.set_LastValue value rule, "resolved")])
      \/ ((Engine.EvalRule.State rule <> Engine.StateFiring
           \/ Engine.notifyFunc e = None)
          /\ st' = st)).
Proof.
  intros Hinv. unfold Engine.updateRuleState, rule_invariant in *.
  simpl Engine.EvalRule.State.
  destruct (Engine.EvalRule.State rule) eqn:Hs; simpl negb; cbv iota.
  - intros [= <- <-]. simpl. rewrite Hs.
    split_and!; [done | tauto | tauto | done |]. right. split; [by left | done].
  - intros [= <- <-]. simpl.
    split_and!; [done | done | tauto | done |]. right. split; [by left | done].
  - unfold Engine.notify. destruct (Engine.notifyFunc e) as [f|] eqn:Hf.
    + destruct (f _ "resolved" (fst st)) as [w|]; [| done].
      intros [= <- <-]. simpl. split_and!; [done | done | done | done |].
      left. split_and!; done.
    + intros [= <- <-]. simpl. split_and!; [done | done | done | done |].
      right. split; [by right | done].
Qed.

Lemma step_without_value_resets_rule_witness :
  exists rule' st',
    Engine.updateRuleState evaluator_a firing_rule false 0%float 400
      (Reference.world, [])
    = Done (rule', st')
    /\ Engine.EvalRule.State rule' = Engine.StateInactive
    /\ Engine.EvalRule.FiredAt rule' = 0
    /\ snd st' = [(Engine.EvalRule.set_LastValue 0%float firing_rule, "resolved")].
Proof.
  destruct (Engine.updateRuleState evaluator_a firing_rule false 0%float 400
              (Reference.world, [])) as [[rule' st']|] eqn:E;
    [| vm_compute in E; discriminate E].
  destruct (step_without_value_resets_rule evaluator_a firing_rule rule' 0%float
              0 400 (Reference.world, []) st')
    as (Hs & _ & Hf & _ & [(_ & _ & Hlog) | ([Hne | Hnone] & _)]).
  - vm_compute. repeat split; discriminate.
  - exact E.
  - exists rule', st'. split; [reflexivity |]. split; [exact Hs |].
    split; [exact Hf | exact Hlog].
  - exfalso. apply Hne. reflexivity.
  - discriminate Hnone.
Defined.

(** ** The evaluator: the label merge *)

Lemma foldl_insert_lookup (l : Types.Labels) (acc : gmap string string)
    (k : string) :
  foldl (fun m (label : string * string) => <[fst label := snd label]> m) acc l !! k
  = match (list_to_map (reverse l) : gmap string string) !! k with
    | Some v => Some v
    | None => acc !! k
    end.
Proof.
  revert acc. induction l as [|[k' v'] l IH]; intros acc; simpl; [done |].
  rewrite IH, reverse_cons, list_to_map_app.
  destruct (list_to_map (reverse l) !! k) as [v|] eqn:E.
  - by rewrite (lookup_union_Some_l _ _ _ _ E).
  - rewrite lookup_union_r by done. simpl.
    destruct (decide (k' = k)) as [->|Hne].
    + by rewrite !lookup_insert_eq.
    + by rewrite !lookup_insert_ne, lookup_empty by done.
Qed.

(** The labels of the metric win.  A key of the merged map carries the value
    the query returned for it when the query returned one, and otherwise the
    value of the last label of that name among the rule's own; no other key is
    in the map. *)
Theorem mergeLabels_lookup
    (ruleLabels : Types.Labels) (metricLabels : gmap string string) (k : string) :
  Engine.mergeLabels ruleLabels metricLabels !! k
  = match metricLabels !! k with
    | Some v => Some v
    | None => (list_to_map (reverse ruleLabels) : gmap string string) !! k
    end.
Proof.
  unfold Engine.mergeLabels.
  set (base := foldl _ ∅ ruleLabels).
  assert (forall m : gmap string string,
            map_fold (fun k v (m : gmap string string) => <[k := v]> m) base m !! k
            = match m !! k with Some v => Some v | None => base !! k end) as Hfold.
  { apply (map_fold_weak_ind
             (fun (b : gmap string string) (m : gmap string string) =>
                b !! k = match m !! k with Some v => Some v | None => base !! k end)).
    - by rewrite lookup_empty.
    - intros i x m r Hi Hr.
      destruct (decide (i = k)) as [->|Hne].
      + by rewrite !lookup_insert_eq.
      + by rewrite !lookup_insert_ne by done. }
  rewrite Hfold. destruct (metricLabels !! k); [done |].
  subst base. rewrite foldl_insert_lookup, lookup_empty.
  by destruct (list_to_map (reverse ruleLabels) !! k).
Qed.

(** ** The notifier: accounting and edges *)

Section NotifierAccounting.

Variable lib : Library.t.
Variable out : Outside.t.
Variable cfg : Config.t.

(** What a notification leaves alone: the disk, the queries made, the gauge
    and the reload counters. *)
Definition notifier_frame (w w' : World.t) : Prop :=
  World.disk w' = World.disk w
  /\ World.queries w' = World.queries w
  /\ Metrics.RulesLoaded (World.metrics w') = Metrics.RulesLoaded (World.metrics w)
  /\ Metrics.ReloadSuccess (World.metrics w') = Metrics.ReloadSuccess (World.metrics w)
  /\ Metrics.ReloadErrors (World.metrics w') = Metrics.ReloadErrors (World.metrics w).

Lemma postAlert_accounting (url : string) (data : bytes) (req0 : Request.t)
    (n : nat) (w : World.t) :
  Library.http_NewRequest lib "POST" url data = Some req0 ->
  exists w' k,
    Manager.postAlert lib out cfg url data n w = Done w'
    /\ (k <= n)%nat
    /\ World.posts w' = World.posts w ++ replicate k (posted cfg req0)
    /\ notifier_frame w w'
    /\ Metrics.NotifyErrors (World.metrics w') - Metrics.NotifyErrors (World.metrics w)
       + (Metrics.NotificationsSent (World.metrics w')
          - Metrics.NotificationsSent (World.metrics w))
       = Z.of_nat k
    /\ ((Metrics.NotificationsSent (World.metrics w')
         = Metrics.NotificationsSent (World.metrics w)
         /\ k = n)
        \/ (Metrics.NotificationsSent (World.metrics w')
            = Metrics.NotificationsSent (World.metrics w) + 1
            /\ exists i, k = S i
                 /\ Outside.gateway out (length (World.posts w) + i) (posted cfg req0)
                    = Response 200)).
Proof.
  intros Hreq. revert w. induction n as [|n IH]; intros w.
  - exists w, 0%nat. simpl. rewrite app_nil_r.
    split_and!; [done | lia | done | by repeat split | lia | by left].
  - destruct (decide (Outside.gateway out (length (World.posts w)) (posted cfg req0)
                      = Response 200)) as [Hok|Hno].
    + rewrite (postAlert_step_success lib out cfg url data req0 Hreq n w Hok).
      eexists _, 1%nat. split; [done |]. simpl.
      split_and!; [lia | done | by repeat split | lia |].
      right. split; [done |]. exists 0%nat. by rewrite Nat.add_0_r.
    + rewrite (postAlert_step_failure lib out cfg url data req0 Hreq n w Hno).
      destruct (IH (failing_step cfg req0 w))
        as (w' & k & -> & Hk & Hposts & Hframe & Hsum & Hlast).
      exists w', (S k). split; [done |].
      destruct Hframe as (? & ? & ? & ? & ?). simpl in *.
      split_and!; [lia | by rewrite Hposts, <- app_assoc | by repeat split | lia |].
      destruct Hlast as [[Hs ->] | (Hs & i & -> & Hi)]; [by left |].
      right. split; [done |]. exists (S i). split; [done |].
      rewrite length_app in Hi. simpl in Hi.
      by replace (length (World.posts w) + S i)%nat
        with (length (World.posts w) + 1 + i)%nat by lia.
Qed.

End NotifierAccounting.

(** Every post is counted once.  A notification whose alert marshals and
    whose request can be built comes back having posted the same request [k]
    times, [k <= NotifyRetries]; the notify errors and the notifications sent
    together grow by exactly [k]; the notifications sent grow by one, and then
    the last post was answered 200, or not at all, and then all
    [NotifyRetries] posts were made.  The disk, the query count, the gauge and
    the reload counters are as before. *)
Theorem sendNotification_counts_every_post
    (lib : Library.t) (out : Outside.t) (cfg : Config.t)
    (rule : Engine.EvalRule.t) (state : string) (w : World.t)
    (data : bytes) (req0 : Request.t) :
  Library.json_Marshal lib [Manager.makeAlert lib rule state] = Some data ->
  Library.http_NewRequest lib "POST"
    (Config.GatewayURL cfg +:+ Config.NotifyPath cfg) data = Some req0 ->
  exists w' k,
    Manager.sendNotification lib out cfg rule state w = Done w'
    /\ (k <= Z.to_nat (Config.NotifyRetries cfg))%nat
    /\ World.posts w' = World.posts w ++ replicate k (posted cfg req0)
    /\ notifier_frame w w'
    /\ Metrics.NotifyErrors (World.metrics w') - Metrics.NotifyErrors (World.metrics w)
       + (Metrics.NotificationsSent (World.metrics w')
          - Metrics.NotificationsSent (World.metrics w))
       = Z.of_nat k
    /\ ((Metrics.NotificationsSent (World.metrics w')
         = Metrics.NotificationsSent (World.metrics w)
         /\ k = Z.to_nat (Config.NotifyRetries cfg))
        \/ (Metrics.NotificationsSent (World.metrics w')
            = Metrics.NotificationsSent (World.metrics w) + 1
            /\ exists i, k = S i
                 /\ Outside.gateway out (length (World.posts w) + i) (posted cfg req0)
                    = Response 200)).
Proof.
  intros Hjson Hreq. unfold Manager.sendNotification. rewrite Hjson.
  by apply postAlert_accounting.
Qed.

Lemma sendNotification_counts_every_post_witness :
  exists w' k,
    Manager.sendNotification Reference.lib Reference.out Reference.config
      firing_rule "firing" Reference.world = Done w'
    /\ (k <= 2)%nat
    /\ length (World.posts w') = k
    /\ Metrics.NotifyErrors (World.metrics w')
       + Metrics.NotificationsSent (World.metrics w') = Z.of_nat k.
Proof.
  destruct (sendNotification_counts_every_post Reference.lib Reference.out
              Reference.config firing_rule "firing" Reference.world []
              (Request.mk "POST" "http://gateway/api/v1/alerts" ∅ []))
    as (w' & k & Hw' & Hk & Hposts & _ & Hsum & _); [reflexivity | reflexivity |].
  exists w', k. split; [exact Hw' |]. split; [exact Hk |].
  split.
  - rewrite Hposts. simpl. apply length_replicate.
  - simpl in Hsum. rewrite <- Hsum. lia.
Defined.

(** The edges of a notification.  An alert that does not marshal counts one
    notify error and posts nothing.  With [NotifyRetries <= 0] an alert that
    marshals is dropped: nothing is posted and nothing is counted.  With at
    least one retry and a gateway URL from which no request can be built, the
    call panics on the nil request before anything is posted. *)
Theorem sendNotification_edges
    (lib : Library.t) (out : Outside.t) (cfg : Config.t)
    (rule : Engine.EvalRule.t) (state : string) (w : World.t) :
  (Library.json_Marshal lib [Manager.makeAlert lib rule state] = None ->
   exists w',
     Manager.sendNotification lib out cfg rule state w = Done w'
     /\ World.posts w' = World.posts w
     /\ Metrics.NotifyErrors (World.metrics w')
        = Metrics.NotifyErrors (World.metrics w) + 1
     /\ Metrics.NotificationsSent (World.metrics w')
        = Metrics.NotificationsSent (World.metrics w))
  /\ (forall data,
        Library.json_Marshal lib [Manager.makeAlert lib rule state] = Some data ->
        Config.NotifyRetries cfg <= 0 ->
        Manager.sendNotification lib out cfg rule state w = Done w)
  /\ (forall data,
        Library.json_Marshal lib [Manager.makeAlert lib rule state] = Some data ->
        0 < Config.NotifyRetries cfg ->
        Library.http_NewRequest lib "POST"
          (Config.GatewayURL cfg +:+ Config.NotifyPath cfg) data = None ->
        Manager.sendNotification lib out cfg rule state w = Panic).
Proof.
  unfold Manager.sendNotification. split_and!.
  - intros ->. by eexists.
  - intros data -> Hn. by replace (Z.to_nat (Config.NotifyRetries cfg)) with 0%nat by lia.
  - intros data -> Hn Hreq.
    destruct (Z.to_nat (Config.NotifyRetries cfg)) as [|n] eqn:E; [lia |].
    simpl. by rewrite Hreq.
Qed.

(** ** The rule archive: what a save touches, and saves in a row *)

Section SaveRuleMore.
Import fs gostring Storage.

Variable sha256_hex : bytes -> string.

Lemma Mkdir_keeps (p : list string) (t : FS) (q : list string) (n : Node) :
  t !! q = Some n -> fst (Mkdir p t) !! q = Some n.
Proof.
  intros Hq. unfold Mkdir.
  destruct (stat t p) as [x|] eqn:Hp; [done |].
  destruct (stat t (parent p)) as [[|c]|]; [| done | done]. simpl.
  destruct p as [|a p]; [done |]. unfold stat in Hp.
  rewrite lookup_insert_ne; [done |]. intros <-. congruence.
Qed.

(** [MkdirAll] never changes a node that is there, also when it fails. *)
Lemma MkdirAll_rev_keeps (rp : list string) (t : FS) (q : list string) (n : Node) :
  t !! q = Some n -> fst (MkdirAll_rev rp t) !! q = Some n.
Proof.
  revert t. induction rp as [|c rparent IH]; intros t Hq.
  - simpl. by destruct (stat t []) as [[|?]|].
  - change (MkdirAll_rev (c :: rparent) t)
      with (match stat t (rev (c :: rparent)) with
            | Some DirNode => (t, None)
            | Some (FileNode _) => (t, Some ENOTDIR)
            | None =>
                match MkdirAll_rev rparent t with
                | (t1, Some e) => (t1, Some e)
                | (t1, None) => Mkdir (rev (c :: rparent)) t1
                end
            end).
    destruct (stat t (rev (c :: rparent))) as [[|?]|]; [done | done |].
    specialize (IH t Hq).
    destruct (MkdirAll_rev rparent t) as [t1 [err|]]; [done |].
    by apply Mkdir_keeps.
Qed.

Lemma MkdirAll_keeps (path : string) (t : FS) (q : list string) (n : Node) :
  t !! q = Some n -> fst (MkdirAll path t) !! q = Some n.
Proof.
  intros Hq. unfold MkdirAll. destruct (decide (path = "")); [done |].
  by apply MkdirAll_rev_keeps.
Qed.

(** [WriteFile] changes the node of its path on success, and nothing
    otherwise. *)
Lemma WriteFile_cases (path : string) (content : bytes) (t : FS) :
  (snd (WriteFile path content t) = None
   /\ fst (WriteFile path content t) = <[components path := FileNode content]> t
   /\ stat t (components path) <> Some DirNode
   /\ stat t (parent (components path)) = Some DirNode)
  \/ (snd (WriteFile path content t) <> None /\ fst (WriteFile path content t) = t).
Proof.
  unfold WriteFile.
  destruct (stat t (components path)) as [[|c]|] eqn:Hp;
    destruct (stat t (parent (components path))) as [[|c']|] eqn:Hpar; simpl;
    (by right) || (left; by split_and!).
Qed.

Lemma append_last_inj (a b : string) (c d : ascii) :
  a +:+ String c "" = b +:+ String d "" -> a = b /\ c = d.
Proof.
  revert b. induction a as [|x a IH]; intros [|y b]; rewrite ?append_cons, ?append_nil_l.
  - by intros [= ->].
  - intros [= -> H]. destruct b; rewrite ?append_cons, ?append_nil_l in H; discriminate.
  - intros [= -> H]. destruct a; rewrite ?append_cons, ?append_nil_l in H; discriminate.
  - intros [= -> H]. apply IH in H as [-> ->]. done.
Qed.

Lemma append_inj_r (s a b : string) : a +:+ s = b +:+ s -> a = b.
Proof.
  revert a b. induction s as [|c s IH]; intros a b.
  - by rewrite !append_nil_r.
  - replace (a +:+ String c s) with ((a +:+ String c "") +:+ s)
      by (by rewrite append_assoc, append_cons, append_nil_l).
    replace (b +:+ String c s) with ((b +:+ String c "") +:+ s)
      by (by rewrite append_assoc, append_cons, append_nil_l).
    intros H%IH. by apply append_last_inj in H as [? _].
Qed.

Lemma spuriousName_ends_m (s : Storage.t) (timestamp : string) :
  exists x, spuriousName s timestamp = x +:+ "m".
Proof.
  unfold spuriousName. destruct (enableHistory s).
  - exists ("rule_" +:+ timestamp +:+ ".y"). by rewrite !append_assoc.
  - by exists "current.y".
Qed.

Lemma spuriousName_ne_saveName (s : Storage.t) (ts1 ts2 : string) :
  spuriousName s ts1 <> saveName s ts2.
Proof.
  rewrite saveName_last. destruct (spuriousName_ends_m s ts1) as [x ->].
  intros H. by apply append_last_inj in H as [_ ?].
Qed.

Lemma saveName_inj (s : Storage.t) (ts1 ts2 : string) :
  enableHistory s = true -> saveName s ts1 = saveName s ts2 -> ts1 = ts2.
Proof.
  unfold saveName. intros ->. intros H.
  apply (inj (String.app "rule_")) in H. by apply append_inj_r in H.
Qed.

(** A save that goes through, with all that it leaves. *)
Lemma SaveRule_success (s : Storage.t) (promID : Z) (content : bytes)
    (timestamp : string) (d : FS) :
  let filepath := savePath s promID timestamp in
  let dir := Join (saveParent s promID ++ [spuriousName s timestamp]) in
  no_sep timestamp = true ->
  wf d ->
  no_file_on d (components dir) ->
  stat d (components filepath) <> Some DirNode ->
  exists d',
    SaveRule sha256_hex s promID content timestamp d = Done (d', (filepath, None))
    /\ wf d'
    /\ d' !! components filepath = Some (FileNode content)
    /\ (forall q n, d !! q = Some n -> q <> components filepath -> d' !! q = Some n)
    /\ (forall q n, d' !! q = Some n ->
          d !! q = Some n
          \/ q = components filepath
          \/ (n = DirNode /\ exists k, components dir = q ++ k)).
Proof.
  intros filepath dir Hts Hwf Hnf Hnd. subst filepath dir.
  destruct (saveName_no_sep s timestamp Hts) as [Hn1 Hn2].
  pose proof (spuriousName_nonempty s timestamp) as Hne2.
  assert (saveName s timestamp <> "") as Hne1.
  { rewrite saveName_last. intros [_ ?]%append_eq_nil. done. }
  assert (saveDir (savePath s promID timestamp)
          = Done (Join (saveParent s promID ++ [spuriousName s timestamp])))
    as Hslice.
  { rewrite savePath_Join, spuriousPath_Join, saveName_last.
    rewrite <- append_cons, <- append_assoc. apply saveDir_drops_last. }
  unfold SaveRule. cbv zeta. rewrite Hslice. clear Hslice.
  pose proof (spuriousPath_nonempty s promID timestamp) as Hdne.
  rewrite spuriousPath_Join in *.
  destruct (MkdirAll_spec _ d Hdne Hwf Hnf)
    as (d1 & -> & Hwf1 & Hdir1 & Hkeep1 & Hnew1).
  rewrite savePath_Join in *.
  rewrite !components_snoc in * by done.
  set (P := components (Join (saveParent s promID))) in *.
  assert (stat d1 P = Some DirNode) as HP.
  { rewrite stat_snoc in Hdir1. apply Hwf1 in Hdir1. by rewrite parent_snoc in Hdir1. }
  assert (P ++ [spuriousName s timestamp] <> P ++ [saveName s timestamp]) as Hdiff.
  { intros H. apply app_inv_head in H. injection H as H.
    by apply spuriousName_ne_saveName in H. }
  assert (stat d1 (P ++ [saveName s timestamp]) <> Some DirNode) as Hnd1.
  { rewrite stat_snoc in *. intros H.
    destruct (Hnew1 _ _ H) as [H' | (_ & k & Hk)]; [done |].
    assert (k = []) as ->.
    { apply (f_equal length) in Hk. rewrite !length_app in Hk. simpl in Hk.
      destruct k; [done | simpl in Hk; lia]. }
    rewrite app_nil_r in Hk. done. }
  destruct (WriteFile_cases
              (Join (saveParent s promID) +:+ String sep (saveName s timestamp))
              content d1) as [(Hok & Hd' & _ & _) | (Hfail & _)].
  - destruct (WriteFile _ content d1) as [d2 err]. simpl in Hok, Hd'. subst err d2.
    rewrite components_snoc by done. fold P.
    eexists. split; [done |].
    split; [apply wf_insert_file; by rewrite ?parent_snoc |].
    split; [by rewrite lookup_insert_eq |]. split.
    + intros q n Hq Hne. rewrite lookup_insert_ne by done. by apply Hkeep1.
    + intros q n Hq.
      destruct (decide (P ++ [saveName s timestamp] = q)) as [<-|Hne]; [by right; left |].
      rewrite lookup_insert_ne in Hq by done.
      destruct (Hnew1 _ _ Hq) as [H | H]; [by left | by right; right].
  - exfalso. apply Hfail. unfold WriteFile. rewrite components_snoc by done. fold P.
    rewrite parent_snoc, HP.
    by destruct (stat d1 (P ++ [saveName s timestamp])) as [[|?]|].
Qed.

End SaveRuleMore.

(** What a save touches.  Take an archive whose base directory is a clean
    path, and a timestamp without separator.  [SaveRule] always comes back,
    and whatever it
    returns, every node that was on the disk is still there unchanged, except
    possibly the target: on success the target holds the content and the path
    returned is the target; on failure the target too is as it was. *)
Theorem SaveRule_touches_only_target
    (sha256_hex : bytes -> string) (s : Storage.t) (promID : Z)
    (content : bytes) (timestamp : string) (d : fs.FS) :
  fs.clean (Storage.baseDir s) = true ->
  no_sep timestamp = true ->
  let target := fs.components (Storage.savePath s promID timestamp) in
  exists d' path err,
    Storage.SaveRule sha256_hex s promID content timestamp d = Done (d', (path, err))
    /\ (forall q n, d !! q = Some n -> q <> target -> d' !! q = Some n)
    /\ match err with
       | None =>
           path = Storage.savePath s promID timestamp
           /\ d' !! target = Some (fs.FileNode content)
       | Some _ => path = "" /\ forall n, d !! target = Some n -> d' !! target = Some n
       end.
Proof.
  intros _ _ target. subst target.
  pose proof (SaveRule_no_panic sha256_hex s promID content timestamp d) as Hnp.
  unfold Storage.SaveRule in *. cbv zeta in *.
  destruct (Storage.saveDir _) as [dir|]; [| done]. clear Hnp.
  pose proof (MkdirAll_keeps dir d) as Hkeep.
  destruct (fs.MkdirAll dir d) as [d1 [e|]]; simpl in Hkeep.
  - eexists _, _, _. split; [done |]. split; [auto |]. split; [done | auto].
  - destruct (WriteFile_cases (Storage.savePath s promID timestamp) content d1)
      as [(Hok & Hd' & _) | (Hfail & Hd')];
      destruct (fs.WriteFile _ content d1) as [d2 [e|]]; simpl in *; try done; subst d2.
    + eexists _, _, _. split; [done |]. split.
      * intros q n Hq Hne. rewrite lookup_insert_ne by done. auto.
      * split; [done |]. by rewrite lookup_insert_eq.
    + eexists _, _, _. split; [done |]. split; [auto |]. split; [done | auto].
Qed.

(** The statement at work: a file beside the rule directories is kept. *)
Lemma SaveRule_touches_only_target_witness :
  let d : fs.FS := <[ ["rules"; "keep.txt"] := fs.FileNode [] ]>
                     (<[ ["rules"] := fs.DirNode ]> ∅) in
  exists d' path err,
    Storage.SaveRule (fun _ => "") (Storage.mk "rules" 30 true) 7 []
      "20240101_000000" d
    = Done (d', (path, err))
    /\ d' !! ["rules"; "keep.txt"] = Some (fs.FileNode []).
Proof.
  intros d.
  destruct (SaveRule_touches_only_target (fun _ => "") (Storage.mk "rules" 30 true)
              7 [] "20240101_000000" d eq_refl eq_refl)
    as (d' & path & err & Hsave & Hframe & _).
  exists d', path, err. split; [exact Hsave |].
  apply Hframe; [reflexivity |].
  intros H. vm_compute in H. discriminate H.
Defined.

Section SaveRuleOutcomes.
Import fs gostring Storage.





End SaveRuleOutcomes.





(** Two saves in a row.  Take an archive whose base directory is a clean
    path, and timestamps without separator.  On a well-formed disk where
    neither save is in the
    way of a file or a directory, both saves for one source go through, the
    disk stays well-formed, and the second target holds the second content.
    With history off the two targets are the same file, so the last write
    wins; with history on and two different timestamps both versions are
    kept. *)
Theorem SaveRule_twice
    (sha256_hex : bytes -> string) (s : Storage.t) (promID : Z)
    (content1 content2 : bytes) (timestamp1 timestamp2 : string) (d : fs.FS) :
  let target1 := Storage.savePath s promID timestamp1 in
  let target2 := Storage.savePath s promID timestamp2 in
  let dir1 := gostring.Join (saveParent s promID ++ [spuriousName s timestamp1]) in
  let dir2 := gostring.Join (saveParent s promID ++ [spuriousName s timestamp2]) in
  fs.clean (Storage.baseDir s) = true ->
  no_sep timestamp1 = true ->
  no_sep timestamp2 = true ->
  fs.wf d ->
  no_file_on d (fs.components dir1) ->
  no_file_on d (fs.components dir2) ->
  fs.stat d (fs.components target1) <> Some fs.DirNode ->
  fs.stat d (fs.components target2) <> Some fs.DirNode ->
  exists d1 d2,
    Storage.SaveRule sha256_hex s promID content1 timestamp1 d
    = Done (d1, (target1, None))
    /\ Storage.SaveRule sha256_hex s promID content2 timestamp2 d1
       = Done (d2, (target2, None))
    /\ fs.wf d2
    /\ d2 !! fs.components target2 = Some (fs.FileNode content2)
    /\ (Storage.enableHistory s = false -> target1 = target2)
    /\ (Storage.enableHistory s = true -> timestamp1 <> timestamp2 ->
        d2 !! fs.components target1 = Some (fs.FileNode content1))
    /\ (forall q n, d !! q = Some n ->
          q <> fs.components target1 -> q <> fs.components target2 ->
          d2 !! q = Some n).
Proof.
  intros target1 target2 dir1 dir2 _ Hts1 Hts2 Hwf Hnf1 Hnf2 Hnd1 Hnd2.
  subst target1 target2 dir1 dir2.
  destruct (SaveRule_success sha256_hex s promID content1 timestamp1 d Hts1 Hwf Hnf1 Hnd1)
    as (d1 & Heq1 & Hwf1 & Hfile1 & Hkeep1 & Hnew1).
  destruct (saveName_no_sep s timestamp1 Hts1) as [Hn1 Hn1'].
  destruct (saveName_no_sep s timestamp2 Hts2) as [Hn2 Hn2'].
  pose proof (spuriousName_nonempty s timestamp1) as Hne1'.
  pose proof (spuriousName_nonempty s timestamp2) as Hne2'.
  assert (forall ts, saveName s ts <> "") as Hne.
  { intros ts. rewrite saveName_last. intros [_ ?]%append_eq_nil. done. }
  rewrite !spuriousPath_Join in *. rewrite !savePath_Join in *.
  rewrite !components_snoc in * by done.
  set (P := fs.components (gostring.Join (saveParent s promID))) in *.
  assert (no_file_on d1 (P ++ [spuriousName s timestamp2])) as Hnf2'.
  { intros q k c Hqk Hq.
    assert (d1 !! q = Some (fs.FileNode c)) as Hq'.
    { destruct q; [done | exact Hq]. }
    destruct (Hnew1 _ _ Hq') as [H | [-> | [? _]]]; [| | done].
    - apply (Hnf2 q k c Hqk). unfold fs.stat. by destruct q.
    - assert (k = []) as ->.
      { apply (f_equal length) in Hqk. rewrite !length_app in Hqk. simpl in Hqk.
        destruct k; [done | simpl in Hqk; lia]. }
      rewrite app_nil_r in Hqk. apply app_inv_head in Hqk. injection Hqk as Hqk.
      by apply spuriousName_ne_saveName in Hqk. }
  assert (fs.stat d1 (P ++ [saveName s timestamp2]) <> Some fs.DirNode) as Hnd2'.
  { rewrite stat_snoc in *. intros H.
    destruct (Hnew1 _ _ H) as [H' | [H' | (_ & k & Hk)]]; [done | |].
    - rewrite H' in H. congruence.
    - assert (k = []) as ->.
      { apply (f_equal length) in Hk. rewrite !length_app in Hk. simpl in Hk.
        destruct k; [done | simpl in Hk; lia]. }
      rewrite app_nil_r in Hk. apply app_inv_head in Hk. injection Hk as Hk.
      by apply spuriousName_ne_saveName in Hk. }
  pose proof (SaveRule_success sha256_hex s promID content2 timestamp2 d1 Hts2 Hwf1)
    as Hsecond.
  cbv zeta in Hsecond.
  rewrite spuriousPath_Join, savePath_Join, !components_snoc in Hsecond by done.
  destruct (Hsecond Hnf2' Hnd2') as (d2 & Heq2 & Hwf2 & Hfile2 & Hkeep2 & _).
  exists d1, d2. split; [done |]. split; [done |]. split; [done |]. split; [done |].
  split; [| split].
  - intros Hoff. unfold saveName. by rewrite Hoff.
  - intros Hon Hdiff. apply Hkeep2; [done |].
    intros H. apply app_inv_head in H. injection H as H.
    by apply (saveName_inj s _ _ Hon) in H.
  - intros q n Hq Hq1 Hq2. apply Hkeep2; [| done]. by apply Hkeep1.
Qed.

(** The statement at work: history on, an empty disk, two timestamps. *)
Lemma SaveRule_twice_witness :
  exists d1 d2,
    Storage.SaveRule (fun _ => "") archive_with_history 7 [] "20240101_000000" ∅
    = Done (d1, (Storage.savePath archive_with_history 7 "20240101_000000", None))
    /\ Storage.SaveRule (fun _ => "") archive_with_history 7 [] "20240102_000000" d1
       = Done (d2, (Storage.savePath archive_with_history 7 "20240102_000000", None))
    /\ d2 !! fs.components (Storage.savePath archive_with_history 7 "20240101_000000")
       = Some (fs.FileNode [])
    /\ d2 !! fs.components (Storage.savePath archive_with_history 7 "20240102_000000")
       = Some (fs.FileNode []).
Proof.
  destruct (SaveRule_twice (fun _ => "") archive_with_history 7 [] []
              "20240101_000000" "20240102_000000" ∅)
    as (d1 & d2 & H1 & H2 & _ & H3 & _ & H4 & _).
  - reflexivity.
  - reflexivity.
  - reflexivity.
  - apply wf_empty.
  - apply no_file_on_empty.
  - apply no_file_on_empty.
  - vm_compute. discriminate.
  - vm_compute. discriminate.
  - exists d1, d2. split; [exact H1 |]. split; [exact H2 |].
    split; [apply H4; [reflexivity | discriminate] | exact H3].
Defined.

(** ** Opening and cleaning the archive *)

Section ArchiveFacts.
Import fs gostring Storage Archive.

(** The files of one history directory that a run removes. *)
Definition stale (disk : Archive.Disk) (cutoffTime : time.Time) (historyDir : string)
    (file : FileInfo.t) (p : string) : Prop :=
  FileInfo.IsDir file = false
  /\ FileInfo.ModTime file < cutoffTime
  /\ p = Join [historyDir; FileInfo.Name file]
  /\ os_Remove disk p = None.

Lemma removeOld_cons (disk : Archive.Disk) (cutoffTime : time.Time)
    (historyDir : string) (file : FileInfo.t) (rest : list FileInfo.t)
    (st : Progress) :
  removeOld disk cutoffTime historyDir (file :: rest) st
  = if FileInfo.IsDir file then removeOld disk cutoffTime historyDir rest st
    else if Before (FileInfo.ModTime file) cutoffTime then
      match os_Remove disk (Join [historyDir; FileInfo.Name file]) with
      | Some _ => removeOld disk cutoffTime historyDir rest st
      | None =>
          removeOld disk cutoffTime historyDir rest
            (fst st ++ [Join [historyDir; FileInfo.Name file]], snd st + 1)
      end
    else removeOld disk cutoffTime historyDir rest st.
Proof. reflexivity. Qed.

Lemma cleanDirs_cons (disk : Archive.Disk) (cutoffTime : time.Time)
    (baseDir : string) (promDir : DirEntry.t) (rest : list DirEntry.t)
    (st : Progress) :
  cleanDirs disk cutoffTime baseDir (promDir :: rest) st
  = if negb (DirEntry.IsDir promDir) then cleanDirs disk cutoffTime baseDir rest st
    else
      match ioutil_ReadDir disk (Join [baseDir; DirEntry.Name promDir; "history"]) with
      | ReadDirOk files =>
          cleanDirs disk cutoffTime baseDir rest
            (removeOld disk cutoffTime
               (Join [baseDir; DirEntry.Name promDir; "history"]) files st)
      | ReadDirNotExist => cleanDirs disk cutoffTime baseDir rest st
      | ReadDirFailed _ => cleanDirs disk cutoffTime baseDir rest st
      end.
Proof. reflexivity. Qed.

Lemma removeOld_spec (disk : Archive.Disk) (cutoffTime : time.Time)
    (historyDir : string) (files : list FileInfo.t) (st : Progress) :
  exists more,
    removeOld disk cutoffTime historyDir files st
    = (fst st ++ more, snd st + Z.of_nat (length more))
    /\ forall p, p ∈ more <->
         exists file, file ∈ files /\ stale disk cutoffTime historyDir file p.
Proof.
  revert st. induction files as [|file rest IH]; intros [removed n].
  - exists []. simpl. rewrite app_nil_r, Z.add_0_r. split; [done |].
    intros p. split; [by intros ?%elem_of_nil | by intros (? & ?%elem_of_nil & _)].
  - assert (forall st' : Progress,
              st' = (removed, n) ->
              (forall p, ~ stale disk cutoffTime historyDir file p) ->
              exists more,
                removeOld disk cutoffTime historyDir rest st'
                = (removed ++ more, n + Z.of_nat (length more))
                /\ forall p, p ∈ more <->
                     exists f, f ∈ file :: rest
                               /\ stale disk cutoffTime historyDir f p) as Hskip.
    { intros st' -> Hno. destruct (IH (removed, n)) as (more & Heq & Hin).
      exists more. split; [done |]. intros p. rewrite Hin. split.
      - intros (f & Hf & Hs). exists f. split; [by right | done].
      - intros (f & Hf & Hs). apply elem_of_cons in Hf as [-> | Hf].
        + by apply Hno in Hs.
        + by exists f. }
    rewrite removeOld_cons.
    destruct (FileInfo.IsDir file) eqn:Hd.
    { apply Hskip; [done |]. intros p (H & _). congruence. }
    unfold Before. destruct (FileInfo.ModTime file <? cutoffTime) eqn:Hold.
    2:{ apply Hskip; [done |]. intros p (_ & H & _). lia. }
    destruct (os_Remove disk (Join [historyDir; FileInfo.Name file])) as [e|] eqn:Hrm.
    { apply Hskip; [done |]. intros p (_ & _ & -> & H). congruence. }
    destruct (IH (removed ++ [Join [historyDir; FileInfo.Name file]], n + 1))
      as (more & Heq & Hin).
    exists (Join [historyDir; FileInfo.Name file] :: more). simpl fst. simpl snd.
    split.
    + rewrite Heq. simpl fst. simpl snd. rewrite <- app_assoc. simpl.
      f_equal. lia.
    + intros p. rewrite elem_of_cons, Hin. split.
      * intros [-> | (f & Hf & Hs)].
        -- exists file. split; [by left |]. split_and!; [done | lia | done | done].
        -- exists f. split; [by right | done].
      * intros (f & Hf & Hs). apply elem_of_cons in Hf as [-> | Hf].
        -- left. by destruct Hs as (_ & _ & -> & _).
        -- right. by exists f.
Qed.

(** The history directories a run goes through. *)
Definition cleaned (disk : Archive.Disk) (cutoffTime : time.Time) (baseDir : string)
    (promDir : DirEntry.t) (p : string) : Prop :=
  DirEntry.IsDir promDir = true
  /\ exists files file,
       ioutil_ReadDir disk (Join [baseDir; DirEntry.Name promDir; "history"])
       = ReadDirOk files
       /\ file ∈ files
       /\ stale disk cutoffTime (Join [baseDir; DirEntry.Name promDir; "history"])
            file p.

Lemma cleanDirs_spec (disk : Archive.Disk) (cutoffTime : time.Time) (baseDir : string)
    (promDirs : list DirEntry.t) (st : Progress) :
  exists more,
    cleanDirs disk cutoffTime baseDir promDirs st
    = (fst st ++ more, snd st + Z.of_nat (length more))
    /\ forall p, p ∈ more <->
         exists promDir, promDir ∈ promDirs
                         /\ cleaned disk cutoffTime baseDir promDir p.
Proof.
  revert st. induction promDirs as [|promDir rest IH]; intros [removed n].
  - exists []. simpl. rewrite app_nil_r, Z.add_0_r. split; [done |].
    intros p. split; [by intros ?%elem_of_nil | by intros (? & ?%elem_of_nil & _)].
  - assert ((forall p, ~ cleaned disk cutoffTime baseDir promDir p) ->
            exists more,
              cleanDirs disk cutoffTime baseDir rest (removed, n)
              = (removed ++ more, n + Z.of_nat (length more))
              /\ forall p, p ∈ more <->
                   exists e, e ∈ promDir :: rest
                             /\ cleaned disk cutoffTime baseDir e p) as Hskip.
    { intros Hno. destruct (IH (removed, n)) as (more & Heq & Hin).
      exists more. split; [done |]. intros p. rewrite Hin. split.
      - intros (e & He & Hs). exists e. split; [by right | done].
      - intros (e & He & Hs). apply elem_of_cons in He as [-> | He].
        + by apply Hno in Hs.
        + by exists e. }
    rewrite cleanDirs_cons. destruct (DirEntry.IsDir promDir) eqn:Hd; simpl negb; cbv iota.
    2:{ apply Hskip. intros p (H & _). congruence. }
    destruct (ioutil_ReadDir disk (Join [baseDir; DirEntry.Name promDir; "history"]))
      as [files| |e] eqn:Hread.
    2:{ apply Hskip. intros p (_ & files & file & H & _). congruence. }
    2:{ apply Hskip. intros p (_ & files & file & H & _). congruence. }
    destruct (removeOld_spec disk cutoffTime
                (Join [baseDir; DirEntry.Name promDir; "history"]) files (removed, n))
      as (m1 & Heq1 & Hin1).
    rewrite Heq1. simpl fst. simpl snd.
    destruct (IH (removed ++ m1, n + Z.of_nat (length m1))) as (m2 & Heq2 & Hin2).
    exists (m1 ++ m2). split.
    + rewrite Heq2. simpl fst. simpl snd. rewrite <- app_assoc, length_app.
      f_equal. lia.
    + intros p. rewrite elem_of_app, Hin1, Hin2. split.
      * intros [(file & Hf & Hs) | (e & He & Hs)].
        -- exists promDir. split; [by left |]. split; [done |]. by exists files, file.
        -- exists e. split; [by right | done].
      * intros (e & He & Hs). apply elem_of_cons in He as [-> | He].
        -- left. destruct Hs as (_ & files' & file & Hread' & Hf & Hs).
           rewrite Hread in Hread'. injection Hread' as <-. by exists file.
        -- right. by exists e.
Qed.

End ArchiveFacts.

(** What a clean-up removes.  [CleanupOldVersions] returns an error only when
    history is on and the base directory cannot be listed.  The paths it
    removes are exactly these: history is on, the base directory lists a
    directory entry, the [history] directory below that entry can be listed,
    and the path is that of an entry of that listing which is not a directory,
    was modified before the cut-off (now less the retention days), and which
    [os.Remove] removes.  The count logged is the number of paths removed.
    So nothing outside a [history] directory is ever removed (no
    [current.yml]), nothing at or after the cut-off, and nothing at all with
    history off. *)
Theorem CleanupOldVersions_removes_exactly
    (time_AddDate : time.Time -> Z -> Z -> Z -> time.Time)
    (s : Storage.t) (disk : Archive.Disk) (now : time.Time) :
  let cutoffTime :=
    time_AddDate now 0 0 (Archive.negInt (Storage.retentionDays s)) in
  let result := Archive.CleanupOldVersions time_AddDate s disk now in
  let removed := fst (fst result) in
  let deletedCount := snd (fst result) in
  deletedCount = Z.of_nat (length removed)
  /\ (snd result = None <->
      Storage.enableHistory s = false
      \/ exists promDirs, Archive.os_ReadDir disk (Storage.baseDir s) = inl promDirs)
  /\ forall p, p ∈ removed <->
       Storage.enableHistory s = true
       /\ exists promDirs promDir files file,
            Archive.os_ReadDir disk (Storage.baseDir s) = inl promDirs
            /\ promDir ∈ promDirs
            /\ Archive.DirEntry.IsDir promDir = true
            /\ Archive.ioutil_ReadDir disk
                 (gostring.Join [Storage.baseDir s; Archive.DirEntry.Name promDir;
                                 "history"])
               = fs.ReadDirOk files
            /\ file ∈ files
            /\ fs.FileInfo.IsDir file = false
            /\ fs.FileInfo.ModTime file < cutoffTime
            /\ p = gostring.Join
                     [gostring.Join [Storage.baseDir s;
                                     Archive.DirEntry.Name promDir; "history"];
                      fs.FileInfo.Name file]
            /\ Archive.os_Remove disk p = None.
Proof.
  intros cutoffTime result removed deletedCount.
  subst removed deletedCount result. unfold Archive.CleanupOldVersions.
  destruct (Storage.enableHistory s) eqn:Hon; simpl negb; cbv iota.
  2:{ simpl. split; [done |]. split; [by split; [left |] |].
      intros p. split; [by intros ?%elem_of_nil | by intros [? _]]. }
  fold cutoffTime.
  destruct (Archive.os_ReadDir disk (Storage.baseDir s)) as [promDirs | e] eqn:Hbase.
  2:{ simpl. split; [done |]. split.
      - split; [done |]. by intros [? | [? ?]].
      - intros p. split; [by intros ?%elem_of_nil |].
        by intros (_ & ? & ? & ? & ? & ? & _). }
  destruct (cleanDirs_spec disk cutoffTime (Storage.baseDir s) promDirs ([], 0))
    as (more & Heq & Hin).
  rewrite Heq. simpl. split; [done |]. split.
  - split; [| done]. intros _. right. by exists promDirs.
  - intros p. rewrite Hin. split.
    + intros (promDir & Hp & Hd & files & file & Hread & Hf & H1 & H2 & H3 & H4).
      split; [done |]. exists promDirs, promDir, files, file. by split_and!.
    + intros (_ & promDirs' & promDir & files & file & [= <-] & Hp & Hd & Hread
              & Hf & H1 & H2 & H3 & H4).
      exists promDir. split; [done |]. split; [done |]. exists files, file.
      split; [done |]. split; [done |]. by split_and!.
Qed.



(** ** Grouping the rules by source, and joining the sources' addresses *)

Section GroupingFacts.
Import Types.

Lemma groupByProm_lookup (r : list Rule.t) (id : Z) :
  Reloader.groupByProm r !! id
  = match filter (fun rule => Rule.PromID rule = id) r with
    | [] => None
    | l => Some l
    end.
Proof.
  unfold Reloader.groupByProm.
  induction r as [|x r IH] using rev_ind; [done |].
  rewrite foldl_app, filter_app. simpl foldl.
  set (tmp := foldl _ ∅ r) in *.
  destruct (decide (Rule.PromID x = id)) as [Hx | Hx].
  - rewrite (filter_cons_True _ x []) by done. rewrite filter_nil. rewrite Hx, IH.
    destruct (filter (fun rule => Rule.PromID rule = id) r) as [|y l].
    + by rewrite lookup_insert_eq.
    + rewrite lookup_insert_eq. done.
  - rewrite (filter_cons_False _ x []) by done. rewrite filter_nil, app_nil_r.
    destruct (tmp !! Rule.PromID x); by rewrite lookup_insert_ne.
Qed.

Lemma filter_nonempty (r : list Rule.t) (id : Z) :
  filter (fun rule => Rule.PromID rule = id) r <> []
  <-> exists rule, rule ∈ r /\ Rule.PromID rule = id.
Proof.
  split.
  - destruct (filter _ r) as [|y l] eqn:E; [done |]. intros _.
    assert (y ∈ filter (fun rule => Rule.PromID rule = id) r) as Hy
      by (rewrite E; by left).
    apply list_elem_of_filter in Hy as [? ?]. by exists y.
  - intros (rule & Hin & Hid) E.
    assert (rule ∈ filter (fun rule => Rule.PromID rule = id) r) as Hy
      by (by apply list_elem_of_filter).
    rewrite E in Hy. by apply elem_of_nil in Hy.
Qed.

Lemma Rules_PromRules_elem (r : list Rule.t) (g : PromRules.t) :
  g ∈ Reloader.Rules_PromRules r <->
  exists id,
    (exists rule, rule ∈ r /\ Rule.PromID rule = id)
    /\ g = PromRules.mk (Prom.mk id "")
             (filter (fun rule => Rule.PromID rule = id) r).
Proof.
  unfold Reloader.Rules_PromRules.
  change (map ?f ?l) with (f <$> l). rewrite list_elem_of_fmap. split.
  - intros ([id l] & -> & Hin). apply elem_of_map_to_list in Hin.
    rewrite groupByProm_lookup in Hin. exists id. simpl.
    destruct (filter (fun rule => Rule.PromID rule = id) r) as [|y l'] eqn:E;
      [done |].
    injection Hin as <-. split; [| done].
    apply filter_nonempty. by rewrite E.
  - intros (id & Hne & ->).
    exists (id, filter (fun rule => Rule.PromID rule = id) r). split; [done |].
    apply elem_of_map_to_list. rewrite groupByProm_lookup.
    apply filter_nonempty in Hne.
    by destruct (filter (fun rule => Rule.PromID rule = id) r).
Qed.

Lemma Rules_PromRules_ids (r : list Rule.t) :
  (fun g => Prom.ID (PromRules.Prom g)) <$> Reloader.Rules_PromRules r
  = fst <$> map_to_list (Reloader.groupByProm r).
Proof.
  unfold Reloader.Rules_PromRules. change (map ?f ?l) with (f <$> l).
  rewrite <- list_fmap_compose. done.
Qed.

Lemma fillURL_id (proms : list Prom.t) (pr : PromRules.t) :
  Prom.ID (PromRules.Prom (Reloader.fillURL proms pr)) = Prom.ID (PromRules.Prom pr).
Proof. unfold Reloader.fillURL. by destruct (find _ proms). Qed.

(** The address the gateway lists for a source: that of the first entry with
    its id, and none when there is no such entry. *)
Definition listedURL (proms : list Prom.t) (id : Z) : string :=
  match find (fun prom => id =? Prom.ID prom) proms with
  | Some prom => Prom.URL prom
  | None => ""
  end.

End GroupingFacts.

(** [Rules.PromRules] partitions the rules by source.  Whatever the order in
    which the map is ranged over: there is exactly one group for each source
    id that occurs among the rules, it holds exactly the rules of that id, in
    their original order, and its source carries no address yet; no two
    groups have the same id, and no group is empty. *)
Theorem PromRules_partitions (r : list Types.Rule.t) :
  let data := Reloader.Rules_PromRules r in
  NoDup ((fun g => Types.Prom.ID (Types.PromRules.Prom g)) <$> data)
  /\ (forall g, g ∈ data <->
        exists id,
          (exists rule, rule ∈ r /\ Types.Rule.PromID rule = id)
          /\ g = Types.PromRules.mk (Types.Prom.mk id "")
                   (filter (fun rule => Types.Rule.PromID rule = id) r))
  /\ (forall g, g ∈ data -> Types.PromRules.Rules g <> [])
  /\ (forall rule, rule ∈ r ->
        exists g, g ∈ data
                  /\ Types.Prom.ID (Types.PromRules.Prom g) = Types.Rule.PromID rule
                  /\ rule ∈ Types.PromRules.Rules g).
Proof.
  intros data. subst data. split_and!.
  - rewrite Rules_PromRules_ids. apply NoDup_fst_map_to_list.
  - apply Rules_PromRules_elem.
  - intros g (id & Hne & ->)%Rules_PromRules_elem. simpl.
    by apply filter_nonempty.
  - intros rule Hin.
    exists (Types.PromRules.mk (Types.Prom.mk (Types.Rule.PromID rule) "")
              (filter (fun x => Types.Rule.PromID x = Types.Rule.PromID rule) r)).
    split_and!; [| done | by apply list_elem_of_filter].
    apply Rules_PromRules_elem. exists (Types.Rule.PromID rule).
    split; [by exists rule | done].
Qed.

(** What [fetchPromRules] hands to the reconcile.  It fails with the error of
    the rules request, or else with that of the sources request.  Otherwise
    there is exactly one group for each source id that occurs among the rules
    fetched; the group holds the rules of that id in their original order, and
    its address is that of the first source listed under the id, or empty when
    the gateway lists none. *)
Theorem fetchPromRules_groups (f : Reloader.Fetched.t) :
  match Reloader.fetchPromRules f with
  | inr e =>
      Reloader.Fetched.rules f = inr e
      \/ ((exists rules, Reloader.Fetched.rules f = inl rules)
          /\ Reloader.Fetched.proms f = inr e)
  | inl groups =>
      exists (rules : list Types.Rule.t) proms,
        Reloader.Fetched.rules f = inl rules
        /\ Reloader.Fetched.proms f = inl proms
        /\ NoDup ((fun g => Types.Prom.ID (Types.PromRules.Prom g)) <$> groups)
        /\ forall g, g ∈ groups <->
             exists id,
               (exists rule, rule ∈ rules /\ Types.Rule.PromID rule = id)
               /\ g = Types.PromRules.mk (Types.Prom.mk id (listedURL proms id))
                        (filter (fun rule => Types.Rule.PromID rule = id) rules)
  end.
Proof.
  unfold Reloader.fetchPromRules.
  destruct (Reloader.Fetched.rules f) as [rules | e]; [| by left].
  destruct (Reloader.Fetched.proms f) as [proms | e]; [| right; split; [by eexists | done]].
  exists rules, proms. split; [done |]. split; [done |].
  change (map ?h ?l) with (h <$> l). split.
  - rewrite <- list_fmap_compose.
    erewrite list_fmap_ext; [rewrite Rules_PromRules_ids; apply NoDup_fst_map_to_list |].
    intros i x _. simpl. apply fillURL_id.
  - intros g. rewrite list_elem_of_fmap. split.
    + intros (g0 & -> & (id & Hne & ->)%Rules_PromRules_elem).
      exists id. split; [done |]. unfold Reloader.fillURL, listedURL. simpl.
      by destruct (find _ proms).
    + intros (id & Hne & ->).
      exists (Types.PromRules.mk (Types.Prom.mk id "")
                (filter (fun rule => Types.Rule.PromID rule = id) rules)).
      split.
      * unfold Reloader.fillURL, listedURL. simpl. by destruct (find _ proms).
      * apply Rules_PromRules_elem. by exists id.
Qed.

(** ** A manager's update, whatever its outcome *)

Lemma SaveRule_written (sha256_hex : bytes -> string) (s : Storage.t) (promID : Z)
    (content : bytes) (timestamp : string) (d d' : fs.FS) (path : string) :
  Storage.SaveRule sha256_hex s promID content timestamp d = Done (d', (path, None)) ->
  d' !! fs.components (Storage.savePath s promID timestamp)
  = Some (fs.FileNode content).
Proof.
  unfold Storage.SaveRule. cbv zeta.
  destruct (Storage.saveDir _) as [dir|]; [| done].
  destruct (fs.MkdirAll dir d) as [d1 [e|]]; [done |].
  destruct (WriteFile_cases (Storage.savePath s promID timestamp) content d1)
    as [(Hok & Hd' & _) | (Hfail & _)];
    destruct (fs.WriteFile _ content d1) as [d2 [e|]]; simpl in *; try done.
  intros [= <- _]. subst d2. by rewrite lookup_insert_eq.
Qed.

(** [Manager.Update] always comes back.  The manager's own rule list is
    replaced at once, so also when the update then fails, while the evaluator
    and the metrics change on success only: after a failed update the manager
    lists rules that its evaluator does not run.  On success the file of the
    source holds the marshalled rules, the evaluator runs one fresh rule per
    rule given, and the gauge of the source shows their number.  No outcome
    posts anything, queries anything, or starts or stops the manager. *)
Theorem Manager_Update_outcomes
    (lib : Library.t) (m : Manager.t) (rules : Types.Rules) (timestamp : string)
    (w : World.t) :
  exists m' w' err,
    Manager.Update lib m rules timestamp w = Done (m', w', err)
    /\ Manager.rules m' = rules
    /\ Manager.prom m' = Manager.prom m
    /\ Manager.started m' = Manager.started m
    /\ Manager.cancelled m' = Manager.cancelled m
    /\ World.posts w' = World.posts w
    /\ World.queries w' = World.queries w
    /\ match err with
       | None =>
           exists content,
             RulesContent.Content lib rules = Some content
             /\ World.disk w'
                  !! fs.components
                       (Storage.savePath (Manager.storage m)
                          (Types.Prom.ID (Manager.prom m)) timestamp)
                = Some (fs.FileNode content)
             /\ Engine.rules (Manager.evaluator m')
                = map (Manager.newEvalRule lib) rules
             /\ Metrics.RulesLoaded (World.metrics w')
                  !! gostring.FormatInt (Types.Prom.ID (Manager.prom m))
                = Some (Z.of_nat (length rules))
       | Some e =>
           Manager.evaluator m' = Manager.evaluator m
           /\ World.metrics w' = World.metrics w
           /\ (RulesContent.Content lib rules = None -> e = ErrYaml /\ w' = w)
           /\ (RulesContent.Content lib rules <> None ->
               exists oserr, e = ErrCreateDirectory oserr \/ e = ErrWriteFile oserr)
       end.
Proof.
  unfold Manager.Update.
  destruct (RulesContent.Content lib rules) as [content|].
  - pose proof (SaveRule_no_panic (Library.sha256_hex lib)
                  (Manager.storage (Manager.set_rules rules m))
                  (Types.Prom.ID (Manager.prom (Manager.set_rules rules m)))
                  content timestamp (World.disk w)) as Hnp.
    destruct (Storage.SaveRule _ _ _ _ _ _) as [[d [path [err|]]]|] eqn:Hsave;
      [| | done].
    + eexists _, _, _. split; [done |]. split_and!; try done.
      intros _. clear Hnp. unfold Storage.SaveRule in Hsave. cbv zeta in Hsave.
      destruct (Storage.saveDir _); [| done].
      destruct (fs.MkdirAll _ _) as [d1 [e|]].
      * injection Hsave as _ _ <-. by eexists; left.
      * destruct (fs.WriteFile _ _ _) as [d2 [e|]]; [| done].
        injection Hsave as _ _ <-. by eexists; right.
    + eexists _, _, _. split; [done |]. split_and!; try done.
      exists content. split; [done |]. split_and!.
      * simpl. by apply SaveRule_written in Hsave.
      * done.
      * simpl. by rewrite lookup_insert_eq.
  - eexists _, _, _. split; [done |]. by split_and!.
Qed.

(** ** The reconcile keeps what runs running *)

Section ReconcileFacts.
Import Types.

Variable lib : Library.t.
Variable out : Outside.t.

(** Every manager of the map has been started and its context is not done. *)
Definition all_running (ms : gmap Z Manager.t) : Prop :=
  forall id m, ms !! id = Some m ->
    Manager.started m = true /\ Manager.cancelled m = false.

Lemma Manager_Update_flags (m : Manager.t) (rules : Rules) (timestamp : string)
    (w : World.t) :
  exists m' w' err,
    Manager.Update lib m rules timestamp w = Done (m', w', err)
    /\ Manager.started m' = Manager.started m
    /\ Manager.cancelled m' = Manager.cancelled m.
Proof.
  unfold Manager.Update.
  destruct (RulesContent.Content lib rules) as [content|].
  - pose proof (SaveRule_no_panic (Library.sha256_hex lib)
                  (Manager.storage (Manager.set_rules rules m))
                  (Prom.ID (Manager.prom (Manager.set_rules rules m)))
                  content timestamp (World.disk w)) as Hnp.
    destruct (Storage.SaveRule _ _ _ _ _ _) as [[d [path [err|]]]|]; [| | done];
      by eexists _, _, _.
  - by eexists _, _, _.
Qed.

Lemma converge_running (r : Reloader.t) (timestamp : string) (pr : PromRules.t)
    (ms : gmap Z Manager.t) (w : World.t) :
  Reloader.cancelled r = false ->
  all_running ms ->
  exists ms' w',
    Reloader.converge lib out r timestamp pr (ms, w) = Done (ms', w')
    /\ all_running ms'.
Proof.
  intros Hctx Hall. unfold Reloader.converge.
  destruct (String.eqb _ ""); [by exists ms, w |].
  simpl fst. simpl snd.
  destruct (ms !! Prom.ID (PromRules.Prom pr)) as [m|] eqn:Hm.
  - destruct (Manager_Update_flags m (PromRules.Rules pr) timestamp w)
      as (m' & w' & err & -> & Hs & Hc).
    eexists _, _. split; [done |].
    intros id x. destruct (decide (Prom.ID (PromRules.Prom pr) = id)) as [<-|Hne].
    + rewrite lookup_insert_eq. intros [= <-]. rewrite Hs, Hc. by eapply Hall.
    + rewrite lookup_insert_ne by done. apply Hall.
  - unfold Manager.NewManager.
    destruct (Library.api_NewClient lib _); simpl negb; cbv iota; [| by exists ms, w].
    match goal with
    | |- context [Manager.Update lib ?nm _ _ _] =>
        destruct (Manager_Update_flags nm (PromRules.Rules pr) timestamp w)
          as (m' & w' & err & -> & Hs & Hc)
    end.
    eexists _, _. split; [done |].
    intros id x. destruct (decide (Prom.ID (PromRules.Prom pr) = id)) as [<-|Hne].
    + rewrite lookup_insert_eq. intros [= <-]. rewrite Hs, Hc.
      split; [done | exact Hctx].
    + rewrite !lookup_insert_ne by done. apply Hall.
Qed.

Lemma convergeAll_running (r : Reloader.t) (clock : Z -> string)
    (gs : list PromRules.t) (ms : gmap Z Manager.t) (w : World.t) :
  Reloader.cancelled r = false ->
  all_running ms ->
  exists ms' w',
    Reloader.convergeAll lib out r clock gs (ms, w) = Done (ms', w')
    /\ all_running ms'.
Proof.
  intros Hctx. revert ms w.
  induction gs as [|pr gs IH]; intros ms w Hall; [by exists ms, w |].
  simpl.
  destruct (converge_running r (clock (Prom.ID (PromRules.Prom pr))) pr ms w
              Hctx Hall)
    as (ms1 & w1 & -> & Hall1).
  by apply IH.
Qed.

Lemma sweep_running (groups : list PromRules.t) (ms : gmap Z Manager.t) :
  all_running ms -> all_running (Reloader.sweep groups ms).
Proof. intros Hall id m [Hm _]%sweep_lookup. by eapply Hall. Qed.

Lemma sweep_nil (ms : gmap Z Manager.t) : Reloader.sweep [] ms = ∅.
Proof.
  apply map_eq. intros id. rewrite lookup_empty.
  destruct (Reloader.sweep [] ms !! id) as [m|] eqn:E; [| done].
  apply sweep_lookup in E as [_ E]. done.
Qed.

Lemma rounds_halt (pre post : list Reloader.LoopEvent) (ev : Reloader.LoopEvent)
    (r : Reloader.t) (w : World.t) :
  is_tick ev = false ->
  Reloader.rounds lib out (pre ++ ev :: post) r w
  = Reloader.rounds lib out (pre ++ [ev]) r w.
Proof.
  intros Hev. revert r w. induction pre as [|e pre IH]; intros r w.
  - simpl. destruct (negb (Reloader.running r)); [done |]. by destruct ev.
  - simpl. destruct (negb (Reloader.running r)); [done |].
    destruct e as [f clock| |]; [| done | done].
    destruct (Reloader.Update lib out r f clock w) as [[[r1 w1] [e|]]|];
      [apply IH | apply IH | done].
Qed.

Lemma rounds_not_running (events : list Reloader.LoopEvent) (r : Reloader.t)
    (w : World.t) :
  Reloader.running r = false -> Reloader.rounds lib out events r w = Done (r, w).
Proof. intros H. destruct events; simpl; by rewrite H. Qed.

End ReconcileFacts.

(** A reconcile keeps what runs running.  Take a reloader whose context is
    not cancelled ([Stop] has not been called).  [Update] comes back.  It
    returns an error exactly when one of the two requests to the gateway
    fails, and then nothing has changed, neither the managers nor the disk:
    no failure of a single manager (a client that cannot be built, a rule
    file that cannot be written) is ever reported.  The reloader's settings
    and its running state are never touched.  If every manager was started
    and its context not done before, so is every manager afterwards, the new
    ones included: their context is derived from the reloader's. *)
Theorem Update_keeps_managers_running
    (lib : Library.t) (out : Outside.t) (r : Reloader.t)
    (f : Reloader.Fetched.t) (clock : Z -> string) (w : World.t) :
  Reloader.cancelled r = false ->
  all_running (Reloader.managers r) ->
  exists r' w' err,
    Reloader.Update lib out r f clock w = Done (r', w', err)
    /\ all_running (Reloader.managers r')
    /\ Reloader.config r' = Reloader.config r
    /\ Reloader.storage r' = Reloader.storage r
    /\ Reloader.running r' = Reloader.running r
    /\ Reloader.cancelled r' = Reloader.cancelled r
    /\ (err = None <-> exists groups, Reloader.fetchPromRules f = inl groups)
    /\ (err <> None -> err = Some ErrFetchRules /\ r' = r /\ w' = w).
Proof.
  intros Hctx Hall. unfold Reloader.Update.
  destruct (Reloader.fetchPromRules f) as [groups | e].
  - destruct (convergeAll_running lib out r clock groups
                (Reloader.sweep groups (Reloader.managers r)) w Hctx)
      as (ms' & w' & -> & Hall'); [by apply sweep_running |].
    eexists _, _, _. split; [done |]. simpl. split_and!; try done.
    split; [by eexists | done].
  - eexists _, _, _. split; [done |]. split_and!; try done.
    split; [done | by intros [? ?]].
Qed.

(** The statement at work: a first reconcile installs the manager of source
    7, started. *)
Lemma Update_keeps_managers_running_witness :
  exists r' w' m,
    Reloader.Update Reference.lib Reference.out fresh_reloader gateway_answers
      (fun _ => "") Reference.world
    = Done (r', w', None)
    /\ Reloader.managers r' !! 7 = Some m
    /\ Manager.started m = true
    /\ Manager.cancelled m = false.
Proof.
  destruct (Update_keeps_managers_running Reference.lib Reference.out
              fresh_reloader gateway_answers (fun _ => "") Reference.world)
    as (r' & w' & err & Hup & Hall & _).
  - reflexivity.
  - intros id m H. vm_compute in H. discriminate H.
  - assert (err = None /\ is_Some (Reloader.managers r' !! 7)) as [-> [m Hm]].
    { pose proof Hup as Hup'. vm_compute in Hup'. injection Hup' as <- _ <-.
      split; [reflexivity | eexists; reflexivity]. }
    destruct (Hall 7 m Hm) as [Hs Hc].
    exists r', w', m.
    split; [exact Hup | split; [exact Hm | split; [exact Hs | exact Hc]]].
Defined.

(** Readiness follows the sources that can be reached.  Take a reconcile
    whose fetch succeeds, on a well-formed manager map, in which every client
    that is needed can be built.  Afterwards the probe [/ready] answers 200
    exactly when some group has an address, and 503 exactly when none has: a
    gateway that lists rules but no address for any of their sources leaves
    the engine not ready, although the reconcile reports success. *)
Theorem ready_after_Update
    (lib : Library.t) (out : Outside.t) (r : Reloader.t)
    (f : Reloader.Fetched.t) (clock : Z -> string) (w : World.t)
    (groups : list Types.PromRules.t) :
  Reloader.fetchPromRules f = inl groups ->
  managers_wf (Reloader.managers r) ->
  (forall g, g ∈ groups ->
     Types.Prom.URL (Types.PromRules.Prom g) <> "" ->
     Reloader.sweep groups (Reloader.managers r)
       !! Types.Prom.ID (Types.PromRules.Prom g) = None ->
     Library.api_NewClient lib (Types.Prom.URL (Types.PromRules.Prom g)) = true) ->
  exists r' w',
    Reloader.Update lib out r f clock w = Done (r', w', None)
    /\ (Health.ready r' = (200, "Ready") <->
        exists g, g ∈ groups /\ Types.Prom.URL (Types.PromRules.Prom g) <> "")
    /\ (Health.ready r' = (503, "Not Ready") <->
        forall g, g ∈ groups -> Types.Prom.URL (Types.PromRules.Prom g) = "").
Proof.
  intros Hfetch Hwf Hnew. unfold Reloader.Update. rewrite Hfetch.
  destruct (convergeAll_spec lib out groups r clock groups
              (Reloader.sweep groups (Reloader.managers r)) w)
    as (ms' & w' & -> & Hlive & Hdom); [done | by apply sweep_live_for | done |].
  exists (Reloader.set_managers ms' r), w'. split; [done |].
  assert (ms' <> ∅ <->
          exists g, g ∈ groups /\ Types.Prom.URL (Types.PromRules.Prom g) <> "")
    as Hne.
  { split.
    - intros (id & m & Hm)%map_choose.
      destruct (Hlive id m Hm) as (_ & Hu & g & Hg & Hp).
      exists g. split; [done |]. by rewrite Hp.
    - intros (g & Hg & Hu) ->.
      assert (is_Some ((∅ : gmap Z Manager.t) !! Types.Prom.ID (Types.PromRules.Prom g)))
        as [m Hm] by (apply Hdom; right; by exists g).
      by rewrite lookup_empty in Hm. }
  unfold Health.ready, Reloader.GetManagerCount. simpl Reloader.managers.
  destruct (decide (ms' = ∅)) as [Hempty | Hfull].
  - assert (size ms' = 0%nat) as -> by (by apply map_size_empty_iff).
    simpl. split.
    + split; [done |]. intros H%Hne. done.
    + split; [| done]. intros _ g Hg.
      destruct (decide (Types.Prom.URL (Types.PromRules.Prom g) = "")) as [? | Hu];
        [done |].
      exfalso. apply (proj2 Hne); [by exists g | done].
  - assert (size ms' <> 0%nat) as Hsize by (by rewrite map_size_empty_iff).
    assert ((0 <? Z.of_nat (size ms')) = true) as -> by lia.
    split.
    + split; [| done]. intros _. by apply Hne.
    + split; [done |]. intros Hnone. exfalso.
      apply Hne in Hfull as (g & Hg & Hu). by apply Hu, Hnone.
Qed.

(** The statement at work: source 7 is listed, so the engine is ready. *)
Lemma ready_after_Update_witness :
  exists r' w',
    Reloader.Update Reference.lib Reference.out fresh_reloader gateway_answers
      (fun _ => "") Reference.world
    = Done (r', w', None)
    /\ Health.ready r' = (200, "Ready").
Proof.
  destruct (Reloader.fetchPromRules gateway_answers) as [groups|] eqn:Hfetch;
    [| vm_compute in Hfetch; discriminate Hfetch].
  destruct (ready_after_Update Reference.lib Reference.out fresh_reloader
              gateway_answers (fun _ => "") Reference.world groups)
    as (r' & w' & Hup & Hready & _).
  - exact Hfetch.
  - apply managers_wf_empty.
  - intros. reflexivity.
  - exists r', w'. split; [exact Hup |]. apply Hready.
    vm_compute in Hfetch. injection Hfetch as <-.
    eexists. split; [apply list_elem_of_here | discriminate].
Defined.

(** No rules, no managers.  When the gateway answers with an empty rule
    list, the reconcile succeeds and drops every manager, whatever was
    running; it writes nothing, and the probe [/ready] answers 503. *)
Theorem Update_without_rules
    (lib : Library.t) (out : Outside.t) (r : Reloader.t)
    (f : Reloader.Fetched.t) (clock : Z -> string) (w : World.t)
    (proms : list Types.Prom.t) :
  Reloader.Fetched.rules f = inl [] ->
  Reloader.Fetched.proms f = inl proms ->
  Reloader.Update lib out r f clock w = Done (Reloader.set_managers ∅ r, w, None)
  /\ Reloader.GetManagerCount (Reloader.set_managers ∅ r) = 0
  /\ Health.ready (Reloader.set_managers ∅ r) = (503, "Not Ready").
Proof.
  intros Hrules Hproms. split; [| done].
  unfold Reloader.Update, Reloader.fetchPromRules. rewrite Hrules, Hproms.
  assert (Reloader.Rules_PromRules [] = []) as ->.
  { unfold Reloader.Rules_PromRules, Reloader.groupByProm. simpl foldl.
    by rewrite map_to_list_empty. }
  simpl map. by rewrite sweep_nil.
Qed.

(** The statement at work: the manager of source 7 is running, the gateway
    lists no rule any more. *)
Lemma Update_without_rules_witness :
  let r := Reloader.mk Reference.config
             (Storage.mk "/var/lib/alertengine/rules" 30 false)
             {[ 7 := manager_a ]} true false in
  Health.ready r = (200, "Ready")
  /\ Reloader.Update Reference.lib Reference.out r
       (Reloader.Fetched.mk (inl []) (inl [Types.Prom.mk 7 "http://prom-a"]))
       (fun _ => "") Reference.world
     = Done (Reloader.set_managers ∅ r, Reference.world, None)
  /\ Health.ready (Reloader.set_managers ∅ r) = (503, "Not Ready").
Proof.
  intros r. split; [reflexivity |].
  destruct (Update_without_rules Reference.lib Reference.out r
              (Reloader.Fetched.mk (inl []) (inl [Types.Prom.mk 7 "http://prom-a"]))
              (fun _ => "") Reference.world [Types.Prom.mk 7 "http://prom-a"])
    as (H1 & _ & H2); [reflexivity | reflexivity |].
  split; [exact H1 | exact H2].
Defined.

(** Where the loop ends.  [Loop] returns at the first event that is not a
    tick (the context done, or [Stop]): whatever follows that event is never
    looked at.  And on a reloader that is not running, because [Run] was never
    called or [Stop] already was, [Loop] performs its immediate reconcile and
    returns, looking at no event at all. *)
Theorem Loop_ends_at_first_halt
    (lib : Library.t) (out : Outside.t) (f0 : Reloader.Fetched.t)
    (clock0 : Z -> string) (r : Reloader.t) (w : World.t) :
  (forall pre ev post,
     is_tick ev = false ->
     Reloader.Loop lib out f0 clock0 (pre ++ ev :: post) r w
     = Reloader.Loop lib out f0 clock0 (pre ++ [ev]) r w)
  /\ (Reloader.running r = false ->
      forall events,
        Reloader.Loop lib out f0 clock0 events r w
        = Reloader.Loop lib out f0 clock0 [] r w
        /\ exists r' w' err,
             Reloader.Update lib out r f0 clock0 w = Done (r', w', err)
             /\ Reloader.Loop lib out f0 clock0 events r w = Done (r', w')).
Proof.
  split.
  - intros pre ev post Hev. unfold Reloader.Loop.
    destruct (Reloader.Update lib out r f0 clock0 w) as [[[r1 w1] err]|]; [| done].
    by apply rounds_halt.
  - intros Hrun events. unfold Reloader.Loop.
    destruct (Reloader_Update_total lib out r f0 clock0 w)
      as (r1 & w1 & err & -> & Hrun1 & _).
    rewrite Hrun in Hrun1.
    rewrite !rounds_not_running by done. split; [done |]. by eexists _, _, _.
Qed.

(** ** A manager's evaluator over its life *)

Section ManagerRunFacts.
Import Types Engine.

Variable lib : Library.t.
Variable out : Outside.t.
Variable cfg : Config.t.
Variable address : string.
Variable e0 : RuleEvaluator World.t.

Hypothesis e0_query : queryFunc e0 = Manager.queryPrometheus out address.
Hypothesis e0_notify : notifyFunc e0 = Some (Manager.sendNotification lib out cfg).
Hypothesis request_built :
  forall data,
    Library.http_NewRequest lib "POST"
      (Config.GatewayURL cfg +:+ Config.NotifyPath cfg) data <> None.









End ManagerRunFacts.



(** ** Starting and stopping *)

(** [Stop] and [Run] of the reloader touch flags only.  After [Stop] the
    reloader is not running, its context is cancelled and every manager is
    cancelled, but every manager is still in the map: the count of managers,
    and with it the answer of [/ready], is what it was.  Stopping twice is
    stopping once.  [Run] marks the reloader and every manager as started and
    changes nothing else; a manager cancelled before stays cancelled. *)
Theorem Stop_and_Run_touch_flags_only (r : Reloader.t) :
  Reloader.running (Reloader.Stop r) = false
  /\ Reloader.cancelled (Reloader.Stop r) = true
  /\ (forall id m, Reloader.managers (Reloader.Stop r) !! id = Some m ->
        Manager.cancelled m = true
        /\ exists m0, Reloader.managers r !! id = Some m0
                      /\ m = Manager.Stop m0
                      /\ Manager.started m = Manager.started m0)
  /\ dom (Reloader.managers (Reloader.Stop r)) = dom (Reloader.managers r)
  /\ Reloader.GetManagerCount (Reloader.Stop r) = Reloader.GetManagerCount r
  /\ Health.ready (Reloader.Stop r) = Health.ready r
  /\ Reloader.Stop (Reloader.Stop r) = Reloader.Stop r
  /\ Reloader.running (Reloader.Run r) = true
  /\ Reloader.cancelled (Reloader.Run r) = Reloader.cancelled r
  /\ (forall id m, Reloader.managers (Reloader.Run r) !! id = Some m ->
        Manager.started m = true
        /\ exists m0, Reloader.managers r !! id = Some m0
                      /\ m = Manager.Run m0
                      /\ Manager.cancelled m = Manager.cancelled m0)
  /\ Health.ready (Reloader.Run r) = Health.ready r.
Proof.
  unfold Health.ready, Reloader.GetManagerCount, Reloader.Stop, Reloader.Run.
  simpl. rewrite !map_size_fmap, dom_fmap_L.
  split_and!; try done.
  - intros id m. rewrite lookup_fmap.
    destruct (Reloader.managers r !! id) as [m0|]; [| done].
    intros [= <-]. split; [done |]. by exists m0.
  - f_equal. rewrite <- map_fmap_compose. apply map_fmap_ext. by intros id [].
  - intros id m. rewrite lookup_fmap.
    destruct (Reloader.managers r !! id) as [m0|]; [| done].
    intros [= <-]. split; [done |]. by exists m0.
Qed.
